(** * madgui: constraint-driven optics matching

    A shallow embedding of the matching core of madgui and of the code
    around it:

    - [madgui/component/matchtool.py]: [MatchTransform],
      [_get_any_elem_param] and the class [Matching];
    - [madgui/component/session.py]: of [Segment], [twiss], [raw_twiss],
      the property [twiss_args], [element_by_position],
      [get_element_info], [parse_range], [contains] and [get_twiss]; of
      [Session], [_get_twiss] and [_get_seq_model];
    - [madgui/component/model.py]: [map_noexcept], [Model.get_seq_model]
      and [Model.detect];
    - [madgui/core/plugin.py]: [Hook], [List] and [HookCollection].

    Python objects are records, Python dictionaries are insertion-ordered
    association lists, exceptions are the [Raised] outcome of a small
    state-and-exception monad, and the MAD-X interpreter is a black box
    whose answers may depend on everything it was asked before. *)

From Stdlib Require Import List String Ascii ZArith Bool Arith Lia.
Import ListNotations.
Open Scope string_scope.

Set Implicit Arguments.

(* ===================================================================== *)
(** * Python values, exceptions and dictionaries *)
(* ===================================================================== *)

(** The exceptions that the embedded code raises or lets through. *)
Inductive Exn : Type :=
| KeyError
| AttributeError
| ValueError
| EngineError (msg : string).

(** Result of running a piece of Python: a value or a raised exception. *)
Inductive Outcome (A : Type) : Type :=
| Returned (a : A)
| Raised (e : Exn).

Arguments Returned {A} a.
Arguments Raised {A} e.

(** Stateful Python code over a mutable object of type [S]: the state is
    kept as it is at the moment of a raise, as in Python. *)
Definition Py (S A : Type) : Type := S -> Outcome A * S.

Definition ret {S A} (a : A) : Py S A := fun s => (Returned a, s).

Definition bind {S A B} (c : Py S A) (k : A -> Py S B) : Py S B :=
  fun s =>
    match c s with
    | (Returned a, s') => k a s'
    | (Raised e, s') => (Raised e, s')
    end.

Definition raise {S A} (e : Exn) : Py S A := fun s => (Raised e, s).

Definition get_state {S} : Py S S := fun s => (Returned s, s).

Definition modify {S} (f : S -> S) : Py S unit := fun s => (Returned tt, f s).

(** Subscripting: [d[k]] raises [KeyError] when the key is absent. *)
Definition subscript {S A} (o : option A) : Py S A :=
  match o with
  | Some a => ret a
  | None => raise KeyError
  end.

(** A pure computation that may raise, run inside stateful code. *)
Definition lift_outcome {S A} (o : Outcome A) : Py S A := fun s => (o, s).

Declare Scope py_scope.
Delimit Scope py_scope with py.
Notation "x <- c ;; k" := (bind c (fun x => k))
  (at level 61, c at next level, right associativity) : py_scope.
Notation "c ;;; k" := (bind c (fun _ => k))
  (at level 61, right associativity) : py_scope.

(** Dictionaries with string keys.  The order of the bindings is the
    insertion order; assigning to an existing key keeps its place. *)
Module Dict.

Definition t (V : Type) : Type := list (string * V).

Definition empty {V} : t V := [].

Fixpoint get {V} (k : string) (d : t V) : option V :=
  match d with
  | [] => None
  | (k', v) :: rest => if String.eqb k k' then Some v else get k rest
  end.

(** [d[k] = v] *)
Fixpoint set {V} (k : string) (v : V) (d : t V) : t V :=
  match d with
  | [] => [(k, v)]
  | (k', v') :: rest =>
      if String.eqb k k' then (k, v) :: rest else (k', v') :: set k v rest
  end.

(** [del d[k]] *)
Definition del {V} (k : string) (d : t V) : t V :=
  filter (fun kv => negb (String.eqb k (fst kv))) d.

Definition keys {V} (d : t V) : list string := map fst d.

Definition values {V} (d : t V) : list V := map snd d.

Definition items {V} (d : t V) : list (string * V) := d.

(** [d.get(k, default)] *)
Definition get_default {V} (k : string) (default : V) (d : t V) : V :=
  match get k d with
  | Some v => v
  | None => default
  end.

(** [{k: f(k, v) for k, v in d.items()}] *)
Definition map_items {V W} (f : string -> V -> W) (d : t V) : t W :=
  map (fun kv => (fst kv, f (fst kv) (snd kv))) d.

End Dict.

(** [l.remove(v)]: drops the first item equal to [v]; [None] stands for the
    [ValueError] that Python raises when there is none. *)
Fixpoint list_remove {A} (eq_dec : forall x y : A, {x = y} + {x <> y})
    (v : A) (l : list A) : option (list A) :=
  match l with
  | [] => None
  | x :: rest =>
      if eq_dec x v then Some rest
      else match list_remove eq_dec v rest with
           | Some rest' => Some (x :: rest')
           | None => None
           end
  end.

(** [max(l, key=key)] on a non-empty list: the first item whose key no
    later item exceeds; an item replaces the running maximum only when its
    key compares strictly greater. *)
Fixpoint max_from {A K} (ltb : K -> K -> bool) (key : A -> K)
    (best : A) (l : list A) : A :=
  match l with
  | [] => best
  | x :: rest =>
      if ltb (key best) (key x) then max_from ltb key x rest
      else max_from ltb key best rest
  end.

Definition py_max {A K} (ltb : K -> K -> bool) (key : A -> K)
    (l : list A) : option A :=
  match l with
  | [] => None
  | x :: rest => Some (max_from ltb key x rest)
  end.

(* ===================================================================== *)
(** * Numbers, units and the elements of a sequence *)
(* ===================================================================== *)

(** The numeric values of the program (floats, with or without a unit).
    Only the operations that the embedded code applies are listed;
    [num_pow_half x] is [x ** 0.5]. *)
Class Numeric (num : Type) : Type := {
  num_eq_dec : forall x y : num, {x = y} + {x <> y};
  num_ltb : num -> num -> bool;
  num_add : num -> num -> num;
  num_mul : num -> num -> num;
  num_div : num -> num -> num;
  num_pow_half : num -> num;
  num_zero : num
}.

(** The unit conversion service ([madgui.util.unit], not part of the
    sources at hand): [strip_unit] is the module-level function on a
    number, [text_equals_zero text] tells whether [strip_unit(text) == 0.0]
    for a text, and the other two are the methods of the session's
    [utool]. *)
Class UnitTool (num : Type) : Type := {
  strip_unit : num -> num;
  text_equals_zero : string -> bool;
  utool_add_unit : string -> num -> num;
  utool_strip_unit : string -> num -> num
}.

Section Elements.

Context {num : Type} `{Numeric num} `{UnitTool num}.

(** [utool.dict_add_unit] and [utool.dict_strip_unit]: the conversion
    applied to every entry under its own name. *)
Definition dict_add_unit (d : Dict.t num) : Dict.t num :=
  Dict.map_items utool_add_unit d.

Definition dict_strip_unit (d : Dict.t num) : Dict.t num :=
  Dict.map_items utool_strip_unit d.

(** The same for a table: each column is an array of numbers. *)
Definition table_add_unit (d : Dict.t (list num)) : Dict.t (list num) :=
  Dict.map_items (fun k col => map (utool_add_unit k) col) d.

(** The value of an element parameter: a number, and the symbolic
    expression behind it when there is one (attribute [_expression]). *)
Record ParamValue : Type := {
  pv_value : num;
  pv_expression : option string
}.

(** An element of the sequence: [elem['name']], [elem['type']],
    [elem['at']], [elem['l']] and its further parameters. *)
Record Element : Type := {
  el_name : string;
  el_type : string;
  el_at : num;
  el_l : num;
  el_params : Dict.t ParamValue
}.

(** What an element holds under a key: a number, or a text (the name
    and the type). *)
Inductive ElemValue : Type :=
| NumberValue (value : ParamValue)
| TextValue (text : string).

(** A number without [_expression]. *)
Definition plain (v : num) : ParamValue :=
  {| pv_value := v; pv_expression := None |}.

(** [elem[param]]: the element is one dictionary, with the keys [name],
    [type], [at] and [l] beside its further parameters; [None] stands for
    the [KeyError]. The position and the length are plain numbers, and
    the further parameters are read under the other keys only. *)
Definition elem_getitem (elem : Element) (param : string)
    : option ElemValue :=
  if String.eqb param "name" then Some (TextValue (el_name elem))
  else if String.eqb param "type" then Some (TextValue (el_type elem))
  else if String.eqb param "at" then Some (NumberValue (plain (el_at elem)))
  else if String.eqb param "l" then Some (NumberValue (plain (el_l elem)))
  else option_map NumberValue (Dict.get param (el_params elem)).

Definition ParamValue_eq_dec (x y : ParamValue) : {x = y} + {x <> y}.
Proof.
  decide equality.
  - decide equality. apply string_dec.
  - apply num_eq_dec.
Defined.

Definition Element_eq_dec (x y : Element) : {x = y} + {x <> y}.
Proof.
  decide equality; try apply num_eq_dec; try apply string_dec.
  apply list_eq_dec. decide equality.
  - apply ParamValue_eq_dec.
  - apply string_dec.
Defined.

(** [ElementInfo = namedtuple('ElementInfo', ['name', 'index', 'at'])] *)
Record ElementInfo : Type := {
  ei_name : string;
  ei_index : Z;
  ei_at : num
}.

End Elements.

Arguments ParamValue num : clear implicits.
Arguments ElemValue num : clear implicits.
Arguments Element num : clear implicits.
Arguments ElementInfo num : clear implicits.

(* ===================================================================== *)
(** * The MAD-X interpreter, the session and the segment *)
(* ===================================================================== *)

Section Engine.

Context {num : Type}.

(** Keyword arguments of [madx.twiss]. *)
Record TwissArgs : Type := {
  ta_sequence : string;
  ta_range : string * string;
  ta_columns : list string;
  ta_twiss_init : Dict.t num
}.

(** What [madx.twiss] returns: the table columns and [.summary]. The
    text column [name] is read by none of the embedded code and is left
    out of the table. *)
Record TwissResult : Type := {
  tr_columns : Dict.t (list num);
  tr_summary : Dict.t num
}.

(** One entry [{'range': elem_name, name: value}] of the constraints
    handed to [madx.match]. *)
Record MatchEntry : Type := {
  me_range : string;
  me_name : string;
  me_value : num
}.

(** Keyword arguments of [madx.match]. *)
Record MatchArgs : Type := {
  ma_sequence : string;
  ma_vary : list string;
  ma_constraints : list MatchEntry;
  ma_twiss_init : Dict.t num
}.

Inductive Call : Type :=
| CallTwiss (args : TwissArgs)
| CallMatch (args : MatchArgs).

(** The interpreter is an external process: what it answers is a
    function of the request and of all requests made before. *)
Class Madx : Type := {
  madx_twiss : list Call -> TwissArgs -> Outcome TwissResult;
  madx_match : list Call -> MatchArgs -> Outcome unit
}.

(** The session, reduced to its interpreter: the requests sent so far,
    oldest first. *)
Record Session : Type := {
  madx_calls : list Call
}.

End Engine.

Arguments TwissArgs num : clear implicits.
Arguments TwissResult num : clear implicits.
Arguments MatchEntry num : clear implicits.
Arguments MatchArgs num : clear implicits.
Arguments Call num : clear implicits.
Arguments Madx num : clear implicits.
Arguments Session num : clear implicits.

Section SegmentModel.

Context {num : Type} `{Numeric num} `{UnitTool num} `{Madx num}.

(** [Segment._columns] *)
Definition _columns : list string :=
  ["name"; "l"; "angle"; "k1l"; "s"; "x"; "y"; "betx"; "bety";
   "alfx"; "alfy"].

(** The attributes of a [Segment] that the embedded methods touch.
    [seg_hook] lists the hooks fired so far, oldest first. *)
Record Segment : Type := {
  session : Session num;
  sequence_name : string;
  seg_start : ElementInfo num;
  seg_stop : ElementInfo num;
  seg_range : string * string;
  _twiss_args : Dict.t num;
  elements : list (Element num);
  tw : Dict.t (list num);
  summary : Dict.t num;
  pos : list num;
  seg_hook : list string
}.

Definition set_session (v : Session num) (self : Segment) : Segment :=
  {| session := v; sequence_name := sequence_name self;
     seg_start := seg_start self; seg_stop := seg_stop self;
     seg_range := seg_range self; _twiss_args := _twiss_args self;
     elements := elements self; tw := tw self; summary := summary self;
     pos := pos self; seg_hook := seg_hook self |}.

Definition set_tw (v : Dict.t (list num)) (self : Segment) : Segment :=
  {| session := session self; sequence_name := sequence_name self;
     seg_start := seg_start self; seg_stop := seg_stop self;
     seg_range := seg_range self; _twiss_args := _twiss_args self;
     elements := elements self; tw := v; summary := summary self;
     pos := pos self; seg_hook := seg_hook self |}.

Definition set_summary (v : Dict.t num) (self : Segment) : Segment :=
  {| session := session self; sequence_name := sequence_name self;
     seg_start := seg_start self; seg_stop := seg_stop self;
     seg_range := seg_range self; _twiss_args := _twiss_args self;
     elements := elements self; tw := tw self; summary := v;
     pos := pos self; seg_hook := seg_hook self |}.

Definition set_pos (v : list num) (self : Segment) : Segment :=
  {| session := session self; sequence_name := sequence_name self;
     seg_start := seg_start self; seg_stop := seg_stop self;
     seg_range := seg_range self; _twiss_args := _twiss_args self;
     elements := elements self; tw := tw self; summary := summary self;
     pos := v; seg_hook := seg_hook self |}.

Definition fire_seg_hook (name : string) (self : Segment) : Segment :=
  {| session := session self; sequence_name := sequence_name self;
     seg_start := seg_start self; seg_stop := seg_stop self;
     seg_range := seg_range self; _twiss_args := _twiss_args self;
     elements := elements self; tw := tw self; summary := summary self;
     pos := pos self; seg_hook := seg_hook self ++ [name] |}.

Local Open Scope py_scope.

(** The call of [self.madx.twiss] with keyword arguments [args]: the
    request is sent, the interpreter answers or fails. *)
Definition call_twiss (args : TwissArgs num) : Py Segment (TwissResult num) :=
  fun self =>
    let calls := madx_calls (session self) in
    (madx_twiss calls args,
     set_session {| madx_calls := calls ++ [CallTwiss args] |} self).

(** [Segment._get_twiss_args] without keyword overrides. *)
Definition _get_twiss_args (self : Segment) : TwissArgs num :=
  let twiss_init := dict_strip_unit (_twiss_args self) in
  {| ta_sequence := sequence_name self;
     ta_range := seg_range self;
     ta_columns := _columns;
     ta_twiss_init := twiss_init |}.

(** [Segment.raw_twiss] *)
Definition raw_twiss : Py Segment (TwissResult num) :=
  self <- get_state ;;
  call_twiss (_get_twiss_args self).

(** [self.tw[k]], [self.summary[k]] and [self.tw[k] = col] *)
Definition tw_get (k : string) : Py Segment (list num) :=
  self <- get_state ;; subscript (Dict.get k (tw self)).

Definition summary_get (k : string) : Py Segment num :=
  self <- get_state ;; subscript (Dict.get k (summary self)).

Definition tw_set (k : string) (col : list num) : Py Segment unit :=
  modify (fun self => set_tw (Dict.set k col (tw self)) self).

(** [Segment.twiss]: recalculate the TWISS parameters. *)
Definition twiss : Py Segment unit :=
  results <- raw_twiss ;;
  (* Update TWISS results *)
  modify (set_tw (table_add_unit (tr_columns results))) ;;;
  modify (set_summary (dict_add_unit (tr_summary results))) ;;;
  (* data post processing: self.tw['s'] += self.start.at *)
  s <- tw_get "s" ;;
  self <- get_state ;;
  tw_set "s" (map (fun x => num_add x (ei_at (seg_start self))) s) ;;;
  s <- tw_get "s" ;;
  modify (set_pos s) ;;;
  betx <- tw_get "betx" ;;
  ex <- summary_get "ex" ;;
  tw_set "envx" (map (fun b => num_pow_half (num_mul b ex)) betx) ;;;
  bety <- tw_get "bety" ;;
  ey <- summary_get "ey" ;;
  tw_set "envy" (map (fun b => num_pow_half (num_mul b ey)) bety) ;;;
  (* aliases for x, y *)
  x <- tw_get "x" ;;
  tw_set "posx" x ;;;
  y <- tw_get "y" ;;
  tw_set "posy" y ;;;
  modify (fire_seg_hook "update").

End SegmentModel.

Arguments Segment num : clear implicits.

(* ===================================================================== *)
(** * The matching tool *)
(* ===================================================================== *)

Section MatchingModel.

Context {num : Type} `{Numeric num} `{UnitTool num} `{Madx num}.

(** ** MatchTransform *)

Record MatchTransform : Type := {
  _ex : num;
  _ey : num
}.

(** [MatchTransform.__init__]: reads the emittances of the segment. *)
Definition MatchTransform_init (segment : Segment num)
    : Outcome MatchTransform :=
  match Dict.get "ex" (summary segment) with
  | None => Raised KeyError
  | Some ex =>
      match Dict.get "ey" (summary segment) with
      | None => Raised KeyError
      | Some ey => Returned {| _ex := ex; _ey := ey |}
      end
  end.

Definition envx (self : MatchTransform) (val : num) : string * num :=
  ("betx", num_div (num_mul val val) (_ex self)).

Definition envy (self : MatchTransform) (val : num) : string * num :=
  ("bety", num_div (num_mul val val) (_ey self)).

Definition x (self : MatchTransform) (val : num) : string * num :=
  ("x", val).

Definition posx := x.

Definition y (self : MatchTransform) (val : num) : string * num :=
  ("y", val).

Definition posy := y.

(** [getattr(trans, axis)]: the method of that name; any other axis name
    ends in [AttributeError]. *)
Definition getattr_trans (axis : string)
    : option (MatchTransform -> num -> string * num) :=
  if String.eqb axis "envx" then Some envx
  else if String.eqb axis "envy" then Some envy
  else if String.eqb axis "x" then Some x
  else if String.eqb axis "posx" then Some posx
  else if String.eqb axis "y" then Some y
  else if String.eqb axis "posy" then Some posy
  else None.

(** ** _get_any_elem_param *)

(** The function returns a string whenever it returns; its type keeps
    Python's [None] because the caller tests for it. [elem[param]] is read
    from the whole element, so that a rule may name [l] or [at], or even
    [name] or [type]: a text has no [_expression]. *)
Fixpoint _get_any_elem_param (elem : Element num) (params : list string)
    : Outcome (option string) :=
  match params with
  | [] => Raised ValueError
  | param :: rest =>
      match elem_getitem elem param with
      | None => (* KeyError: pass *)
          _get_any_elem_param elem rest
      | Some (NumberValue value) =>
          match pv_expression value with
          | Some expression => Returned (Some expression)
          | None => (* AttributeError *)
              if num_eq_dec (strip_unit (pv_value value)) num_zero
              then _get_any_elem_param elem rest
              else Returned (Some (el_name elem ++ "->" ++ param))
          end
      | Some (TextValue text) => (* AttributeError *)
          if text_equals_zero text
          then _get_any_elem_param elem rest
          else Returned (Some (el_name elem ++ "->" ++ param))
      end
  end.

(** ** Matching *)

(** A constraint [(elem, value)] and a candidate [(elem, params)]. *)
Definition Constraint : Type := Element num * num.

Definition Candidate : Type := Element num * list string.

Definition Candidate_eq_dec (a b : Candidate) : {a = b} + {a <> b}.
Proof.
  decide equality.
  - apply list_eq_dec, string_dec.
  - apply Element_eq_dec.
Defined.

(** The attributes of a [Matching] object; [hook] lists the hooks fired
    so far, oldest first. *)
Record Matching : Type := {
  segment : Segment num;
  constraints : Dict.t (list Constraint);
  _elements : list (Element num);
  _rules : Dict.t (Dict.t (list string));
  _variable_parameters : Dict.t (list Candidate);
  hook : list string
}.

(** [Matching.__init__] *)
Definition Matching_init (segment : Segment num)
    (rules : Dict.t (Dict.t (list string))) : Matching :=
  {| segment := segment;
     constraints := Dict.empty;
     _elements := elements segment;
     _rules := rules;
     _variable_parameters := Dict.empty;
     hook := [] |}.

Definition set_segment (v : Segment num) (self : Matching) : Matching :=
  {| segment := v; constraints := constraints self;
     _elements := _elements self; _rules := _rules self;
     _variable_parameters := _variable_parameters self;
     hook := hook self |}.

Definition set_constraints (v : Dict.t (list Constraint))
    (self : Matching) : Matching :=
  {| segment := segment self; constraints := v;
     _elements := _elements self; _rules := _rules self;
     _variable_parameters := _variable_parameters self;
     hook := hook self |}.

Definition set_variable_parameters (v : Dict.t (list Candidate))
    (self : Matching) : Matching :=
  {| segment := segment self; constraints := constraints self;
     _elements := _elements self; _rules := _rules self;
     _variable_parameters := v;
     hook := hook self |}.

Definition fire_hook (name : string) (self : Matching) : Matching :=
  {| segment := segment self; constraints := constraints self;
     _elements := _elements self; _rules := _rules self;
     _variable_parameters := _variable_parameters self;
     hook := hook self ++ [name] |}.

(** [Matching._allvars]: the candidates of an axis, computed on first
    use and cached. *)
Definition _allvars (axis : string) (self : Matching)
    : list Candidate * Matching :=
  match Dict.get axis (_variable_parameters self) with
  | Some allvars => (allvars, self)
  | None =>
      (* filter element list for usable types: *)
      let param_spec := Dict.get_default axis Dict.empty (_rules self) in
      let allvars :=
        flat_map (fun elem =>
                    match Dict.get (el_type elem) param_spec with
                    | Some params => [(elem, params)]
                    | None => []
                    end) (_elements self) in
      (allvars,
       set_variable_parameters
         (Dict.set axis allvars (_variable_parameters self)) self)
  end.

(** [Matching._gconstr] *)
Definition _gconstr (axis : string) (self : Matching) : list Constraint :=
  Dict.get_default axis [] (constraints self).

(** [Matching.find_constraint] *)
Definition find_constraint (axis : string) (elem : Element num)
    (self : Matching) : list Constraint :=
  filter (fun c => if Element_eq_dec (fst c) elem then true else false)
         (_gconstr axis self).

(** [Matching.remove_constraint] *)
Definition remove_constraint (axis : string) (elem : Element num)
    (self : Matching) : Matching :=
  match Dict.get axis (constraints self) with
  | None => (* KeyError *) self
  | Some orig =>
      let filtered :=
        filter (fun c => negb (String.eqb (el_name (fst c)) (el_name elem)))
               orig in
      let self :=
        match filtered with
        | _ :: _ =>
            set_constraints (Dict.set axis filtered (constraints self)) self
        | [] =>
            set_constraints (Dict.del axis (constraints self)) self
        end in
      if Nat.ltb (List.length filtered) (List.length orig)
      then fire_hook "remove_constraint" self
      else self
  end.

(** [self._sconstr(axis).append(c)]: the list of the axis, created empty
    when the axis is new, gets one more item. *)
Definition dict_append {V} (k : string) (item : V) (d : Dict.t (list V))
    : Dict.t (list V) :=
  match Dict.get k d with
  | Some l => Dict.set k (l ++ [item])%list d
  | None => Dict.set k ([] ++ [item])%list d
  end.

(** [Matching.add_constraint] *)
Definition add_constraint (axis : string) (elem : Element num)
    (envelope : num) (self : Matching) : Matching :=
  let self := remove_constraint axis elem self in
  let self :=
    set_constraints (dict_append axis (elem, envelope) (constraints self))
                    self in
  fire_hook "add_constraint" self.

(** [Matching.clear_constraints] *)
Definition clear_constraints (self : Matching) : Matching :=
  fire_hook "clear_constraints" (set_constraints Dict.empty self).

(** [Matching.stop] *)
Definition stop (self : Matching) : Matching :=
  fire_hook "stop" (clear_constraints self).

(** ** Matching.match *)

(** One entry of the list [vary]. Only [ve_expr] is in the Python list
    and goes to the interpreter; the other fields are ghost data that
    remember the iteration which appended it: the axis and the element of
    the constraint, the working pool of that axis as it was then, and the
    candidate taken from it. *)
Record VaryEntry : Type := {
  ve_expr : string;
  ve_axis : string;
  ve_elem : Element num;
  ve_pool : list Candidate;
  ve_knob : Candidate
}.

(** First loop of [match]: transform the constraints
    ([envx] to [betx], and so on). *)
Fixpoint transform_axis (trans : MatchTransform) (axis : string)
    (constr : list Constraint) (trans_constr : Dict.t (list Constraint))
    : Outcome (Dict.t (list Constraint)) :=
  match constr with
  | [] => Returned trans_constr
  | (elem, value) :: rest =>
      match getattr_trans axis with
      | None => Raised AttributeError
      | Some method =>
          let '(trans_name, trans_value) := method trans value in
          transform_axis trans axis rest
            (dict_append trans_name (elem, trans_value) trans_constr)
      end
  end.

Fixpoint transform_constraints (trans : MatchTransform)
    (items : list (string * list Constraint))
    (trans_constr : Dict.t (list Constraint))
    : Outcome (Dict.t (list Constraint)) :=
  match items with
  | [] => Returned trans_constr
  | (axis, constr) :: rest =>
      match transform_axis trans axis constr trans_constr with
      | Returned trans_constr' =>
          transform_constraints trans rest trans_constr'
      | Raised e => Raised e
      end
  end.

(** The dictionary comprehension that copies the needed variable lists:
    one call of [_allvars] per transformed axis. *)
Fixpoint copy_allvars (axes : list string)
    (allvars : Dict.t (list Candidate)) (self : Matching)
    : Dict.t (list Candidate) * Matching :=
  match axes with
  | [] => (allvars, self)
  | axis :: rest =>
      let '(vars, self') := _allvars axis self in
      copy_allvars rest (Dict.set axis vars allvars) self'
  end.

(** [allowed = [v for v in allvars[axis] if v[0]['at'] < at]] *)
Definition allowed_of (pool : list Candidate) (at_ : num)
    : list Candidate :=
  filter (fun v => num_ltb (el_at (fst v)) at_) pool.

(** [for c in allvars.values(): try: c.remove(v) except ValueError: pass] *)
Definition remove_from_all (v : Candidate)
    (allvars : Dict.t (list Candidate)) : Dict.t (list Candidate) :=
  map (fun kc =>
         (fst kc,
          match list_remove Candidate_eq_dec v (snd kc) with
          | Some c => c
          | None => snd kc
          end)) allvars.

(** The body of the greedy loop for one constraint [(elem, envelope)]
    of [axis], on the working pools and the list [vary]. *)
Definition assign_knob (axis : string) (elem : Element num)
    (st : Dict.t (list Candidate) * list VaryEntry)
    : Outcome (Dict.t (list Candidate) * list VaryEntry) :=
  let '(allvars, vary) := st in
  let at_ := el_at elem in
  match Dict.get axis allvars with
  | None => Raised KeyError
  | Some pool =>
      match allowed_of pool at_ with
      | [] => (* No variable in range found! Ok. *)
          Returned (allvars, vary)
      | first :: others =>
          let v := max_from num_ltb (fun v => el_at (fst v)) first others in
          match _get_any_elem_param (fst v) (snd v) with
          | Raised e => Raised e
          | Returned None =>
              match list_remove Candidate_eq_dec v pool with
              | Some pool' => Returned (Dict.set axis pool' allvars, vary)
              | None => Raised ValueError
              end
          | Returned (Some expr) =>
              Returned
                (remove_from_all v allvars,
                 (vary ++ [{| ve_expr := expr; ve_axis := axis;
                              ve_elem := elem; ve_pool := pool;
                              ve_knob := v |}])%list)
          end
      end
  end.

Fixpoint assign_axis (axis : string) (constr : list Constraint)
    (st : Dict.t (list Candidate) * list VaryEntry)
    : Outcome (Dict.t (list Candidate) * list VaryEntry) :=
  match constr with
  | [] => Returned st
  | (elem, envelope) :: rest =>
      match assign_knob axis elem st with
      | Returned st' => assign_axis axis rest st'
      | Raised e => Raised e
      end
  end.

Fixpoint assign_all (items : list (string * list Constraint))
    (st : Dict.t (list Candidate) * list VaryEntry)
    : Outcome (Dict.t (list Candidate) * list VaryEntry) :=
  match items with
  | [] => Returned st
  | (axis, constr) :: rest =>
      match assign_axis axis constr st with
      | Returned st' => assign_all rest st'
      | Raised e => Raised e
      end
  end.

(** The constraints list to be passed to [Madx.match]. *)
Definition madx_constraints (trans_constr : Dict.t (list Constraint))
    : list (MatchEntry num) :=
  flat_map (fun nc =>
              map (fun ev =>
                     {| me_range := el_name (fst ev);
                        me_name := fst nc;
                        me_value := utool_strip_unit (fst nc) (snd ev) |})
                  (snd nc))
           (Dict.items trans_constr).

(** The call of [simul.madx.match]: the request is sent, the
    interpreter answers or fails. *)
Definition call_match (args : MatchArgs num) : Py Matching unit :=
  fun self =>
    let calls := madx_calls (session (segment self)) in
    (madx_match calls args,
     set_segment
       (set_session {| madx_calls := (calls ++ [CallMatch args])%list |}
                    (segment self)) self).

(** A method of the segment run on [self.segment]. *)
Definition on_segment {A} (c : Py (Segment num) A) : Py Matching A :=
  fun self =>
    let '(r, segment') := c (segment self) in
    (r, set_segment segment' self).

Local Open Scope py_scope.

(** The first part of [Matching.match], up to the point where the
    interpreter is called: the transformed constraints and the list
    [vary]. *)
Definition match_plan
    : Py Matching (Dict.t (list Constraint) * list VaryEntry) :=
  self <- get_state ;;
  trans <- lift_outcome (MatchTransform_init (segment self)) ;;
  (* transform constraints (envx => betx, etc) *)
  trans_constr <-
    lift_outcome (transform_constraints trans
                    (Dict.items (constraints self)) Dict.empty) ;;
  (* Copy all needed variable lists (for later modification): *)
  allvars <-
    (fun self =>
       let '(allvars, self') :=
         copy_allvars (Dict.keys trans_constr) Dict.empty self in
       (Returned allvars, self')) ;;
  st <- lift_outcome (assign_all (Dict.items trans_constr) (allvars, [])) ;;
  ret (trans_constr, snd st).

(** The arguments of the call of [simul.madx.match]. *)
Definition match_args (self : Matching)
    (trans_constr : Dict.t (list Constraint)) (vary : list VaryEntry)
    : MatchArgs num :=
  (* create constraints list to be passed to Madx.match *)
  let constraints := madx_constraints trans_constr in
  let twiss_args := dict_strip_unit (_twiss_args (segment self)) in
  {| ma_sequence := sequence_name (segment self);
     ma_vary := map ve_expr vary;
     ma_constraints := constraints;
     ma_twiss_init := twiss_args |}.

(** [Matching.match]: perform matching according to current
    constraints. *)
Definition match_ : Py Matching unit :=
  plan <- match_plan ;;
  self <- get_state ;;
  call_match (match_args self (fst plan) (snd plan)) ;;;
  on_segment twiss.

End MatchingModel.

Arguments Matching num : clear implicits.
Arguments Constraint num : clear implicits.
Arguments Candidate num : clear implicits.
Arguments MatchTransform num : clear implicits.
Arguments VaryEntry num : clear implicits.

(* ===================================================================== *)
(** * Vocabulary of the statements *)
(* ===================================================================== *)

Section Vocabulary.

Context {num : Type} `{Numeric num} `{UnitTool num}.

(** Test used by [remove_constraint]: the names differ. *)
Definition other_name (elem : Element num) (c : Constraint num) : bool :=
  negb (String.eqb (el_name (fst c)) (el_name elem)).

(** A state of the constraint set is well formed when no axis is mapped
    to the empty list. *)
Definition no_empty_axis (self : Matching num) : Prop :=
  forall axis l, Dict.get axis (constraints self) = Some l -> l <> [].

(** The column [k] of the cached table ([self.tw[k]]), empty when the
    table has no such column. *)
Definition column (k : string) (self : Segment num) : list num :=
  Dict.get_default k [] (tw self).

(** A parameter of an element can be varied when the element has an
    entry of that name, under whichever key of the element, and its value
    either is defined by an expression or is not zero. *)
Definition modifiable (elem : Element num) (param : string) : Prop :=
  match elem_getitem elem param with
  | None => False
  | Some (NumberValue value) =>
      pv_expression value <> None
      \/ strip_unit (pv_value value) <> num_zero
  | Some (TextValue text) => text_equals_zero text = false
  end.

(** What [vary] gets for a parameter that can be varied: the expression
    behind its value, or the text [name->param] when there is none. *)
Definition knob_text (elem : Element num) (param : string) : string :=
  match elem_getitem elem param with
  | Some (NumberValue value) =>
      match pv_expression value with
      | Some expression => expression
      | None => el_name elem ++ "->" ++ param
      end
  | _ => el_name elem ++ "->" ++ param
  end.

(** The candidate that the greedy loop takes from [pool] for a constraint
    on [elem]: none when no candidate lies upstream, else the maximum of
    the allowed ones by position. *)
Definition chosen (pool : list (Candidate num)) (elem : Element num)
    : option (Candidate num) :=
  match allowed_of pool (el_at elem) with
  | [] => None
  | first :: others =>
      Some (max_from num_ltb (fun v => el_at (fst v)) first others)
  end.

(** The nested loops of the greedy phase run over the constraints in the
    order of the flattened list of [(axis, constraint)] pairs. *)
Definition flat_items {V} (items : list (string * list V))
    : list (string * V) :=
  flat_map (fun nc => map (pair (fst nc)) (snd nc)) items.

Fixpoint assign_flat (l : list (string * Constraint num))
    (st : Dict.t (list (Candidate num)) * list (VaryEntry num))
    : Outcome (Dict.t (list (Candidate num)) * list (VaryEntry num)) :=
  match l with
  | [] => Returned st
  | (axis, (elem, _)) :: rest =>
      match assign_knob axis elem st with
      | Returned st' => assign_flat rest st'
      | Raised e => Raised e
      end
  end.

(** An axis is a key of the working pools. *)
Definition has_pool (allvars : Dict.t (list (Candidate num)))
    (axis : string) : Prop :=
  In axis (Dict.keys allvars).


(** The entry of the constraints list made from a transformed
    constraint. *)
Definition match_entry (name : string) (tc : Constraint num)
    : MatchEntry num :=
  {| me_range := el_name (fst tc);
     me_name := name;
     me_value := utool_strip_unit name (snd tc) |}.

(** The knob of an entry of [vary] is in the working pool of its axis,
    lies strictly upstream of the element of the constraint, and no
    candidate of that pool strictly upstream of the constraint lies
    after it. *)
Definition closest_upstream (entry : VaryEntry num) : Prop :=
  let at_ v := el_at (fst v) in
  In (ve_knob entry) (ve_pool entry)
  /\ num_ltb (at_ (ve_knob entry)) (el_at (ve_elem entry)) = true
  /\ forall u,
       In u (ve_pool entry) ->
       num_ltb (at_ u) (el_at (ve_elem entry)) = true ->
       num_ltb (at_ (ve_knob entry)) (at_ u) = false.

(** The element behind an entry of [vary]. *)
Definition knob_element (entry : VaryEntry num) : Element num :=
  fst (ve_knob entry).

(** The entry was appended to [vary] by the greedy loop, run over the
    constraints [flat] from the pools [pools0], when [vary] was [before]:
    the loop had gone through the constraints [done] and stood at a
    constraint on the axis and the element of the entry; the pool of the
    entry was the working pool of that axis; the text of the entry, which
    is what the interpreter receives, is what [_get_any_elem_param] gives
    for the knob of the entry; and the iteration appended the entry and
    removed its knob from the pools. *)
Definition taken_at (pools0 : Dict.t (list (Candidate num)))
    (flat : list (string * Constraint num))
    (before : list (VaryEntry num)) (entry : VaryEntry num) : Prop :=
  exists done target rest pools,
    flat = (done ++ (ve_axis entry, (ve_elem entry, target)) :: rest)%list
    /\ assign_flat done (pools0, []) = Returned (pools, before)
    /\ Dict.get (ve_axis entry) pools = Some (ve_pool entry)
    /\ _get_any_elem_param (fst (ve_knob entry)) (snd (ve_knob entry))
       = Returned (Some (ve_expr entry))
    /\ assign_knob (ve_axis entry) (ve_elem entry) (pools, before)
       = Returned (remove_from_all (ve_knob entry) pools,
                   (before ++ [entry])%list).

(** The pools agree when no pool lists a candidate twice and an element
    that is a candidate in two pools (or twice in one) is so with the same
    list of parameter names. *)
Definition pools_agree (allvars : Dict.t (list (Candidate num))) : Prop :=
  (forall axis pool, In (axis, pool) allvars -> NoDup pool)
  /\ (forall axis1 pool1 axis2 pool2 u1 u2,
         In (axis1, pool1) allvars -> In u1 pool1 ->
         In (axis2, pool2) allvars -> In u2 pool2 ->
         fst u1 = fst u2 -> u1 = u2).

(** The state of the greedy loop: the pools agree, no element behind an
    entry of [vary] is a candidate any more, and no element is behind two
    entries. *)
Definition knobs_apart
    (st : Dict.t (list (Candidate num)) * list (VaryEntry num)) : Prop :=
  pools_agree (fst st)
  /\ (forall entry axis pool u,
         In entry (snd st) -> In (axis, pool) (fst st) -> In u pool ->
         fst u <> knob_element entry)
  /\ NoDup (map knob_element (snd st)).

End Vocabulary.

(* ===================================================================== *)
(** * The life of a matching session *)
(* ===================================================================== *)

Section Lifecycle.

Context {num : Type} `{Numeric num} `{UnitTool num} `{Madx num}.

(** The calls that change a [Matching] object. *)
Inductive Edit : Type :=
| EditAdd (axis : string) (elem : Element num) (envelope : num)
| EditRemove (axis : string) (elem : Element num)
| EditClear
| EditStop
| EditMatch.

Definition apply_edit (self : Matching num) (edit : Edit) : Matching num :=
  match edit with
  | EditAdd axis elem envelope => add_constraint axis elem envelope self
  | EditRemove axis elem => remove_constraint axis elem self
  | EditClear => clear_constraints self
  | EditStop => stop self
  | EditMatch => snd (match_ self)
  end.

Definition apply_edits (edits : list Edit) (self : Matching num)
    : Matching num :=
  fold_left apply_edit edits self.

(** The names of the elements that have a constraint on [axis]. *)
Definition constrained_names (axis : string) (self : Matching num)
    : list string :=
  map (fun c => el_name (fst c)) (_gconstr axis self).

(** The candidates that [_allvars] computes for an axis that has none
    cached. *)
Definition fresh_candidates (axis : string) (self : Matching num)
    : list (Candidate num) :=
  let param_spec := Dict.get_default axis Dict.empty (_rules self) in
  flat_map (fun elem =>
              match Dict.get (el_type elem) param_spec with
              | Some params => [(elem, params)]
              | None => []
              end) (_elements self).

(** Every cached candidate list is the one that would be computed now. *)
Definition cache_sound (self : Matching num) : Prop :=
  forall axis pool,
    Dict.get axis (_variable_parameters self) = Some pool ->
    pool = fresh_candidates axis self.

(** The rules name the same parameters for an element type on every axis
    that lists the type. *)
Definition rules_coherent (rules : Dict.t (Dict.t (list string))) : Prop :=
  forall axis1 axis2 spec1 spec2 type params1 params2,
    Dict.get axis1 rules = Some spec1 ->
    Dict.get axis2 rules = Some spec2 ->
    Dict.get type spec1 = Some params1 ->
    Dict.get type spec2 = Some params2 ->
    params1 = params2.

End Lifecycle.

Arguments Edit num : clear implicits.

(* ===================================================================== *)
(** * Further methods of the segment *)
(* ===================================================================== *)

(** Exceptions of the further code: those above, [IndexError] and
    [RuntimeError]. *)
Inductive Error : Type :=
| Exception (e : Exn)
| IndexError
| RuntimeError (msg : string).

Inductive Result (A : Type) : Type :=
| Ok (a : A)
| Err (e : Error).

Arguments Ok {A} a.
Arguments Err {A} e.

(** [a[i]] on a list or an array: a negative index counts from the end,
    an index out of range raises [IndexError]. *)
Definition getitem {A} (a : list A) (i : Z) : Result A :=
  let n := Z.of_nat (List.length a) in
  if Z.ltb i (- n) || Z.leb n i then Err IndexError
  else
    match nth_error a (Z.to_nat (if Z.ltb i 0 then i + n else i)) with
    | Some item => Ok item
    | None => Err IndexError
    end.

(** [s.split(sep)] for a separator of one character. *)
Fixpoint str_split (sep : ascii) (s : string) : list string :=
  match s with
  | EmptyString => [EmptyString]
  | String c rest =>
      if Ascii.eqb c sep then EmptyString :: str_split sep rest
      else
        match str_split sep rest with
        | [] => [String c EmptyString]
        | first :: others => String c first :: others
        end
  end.

Section ElementAccess.

Context {num : Type}.

(** What names an element for [get_element_info]: an [ElementInfo], a
    name or an element (a dictionary), or an index. *)
Inductive ElementKey : Type :=
| ByName (name : string)
| ByElement (elem : Element num).

Inductive ElementRef : Type :=
| RefInfo (info : ElementInfo num)
| RefKey (key : ElementKey)
| RefIndex (index : Z).

(** A range: a text [start/stop] or a sequence of items. *)
Inductive RangeSpec : Type :=
| RangeText (range : string)
| RangeItems (range : list ElementRef).

End ElementAccess.

Arguments ElementKey num : clear implicits.
Arguments ElementRef num : clear implicits.
Arguments RangeSpec num : clear implicits.

(** The element list of the sequence in the interpreter
    ([self.sequence.elements]), as far as [get_element_info] uses it: the
    index of a name or an element, the length, and the name and the
    position of the element at an index once through [dict_add_unit];
    the lookups may raise. *)
Class ElementList (num : Type) : Type := {
  elements_index : ElementKey num -> Result Z;
  elements_data : Z -> Result (string * num);
  elements_len : Z
}.

(** The number of occurrences of a character in a text. *)
Fixpoint occurrences (c : ascii) (s : string) : nat :=
  match s with
  | EmptyString => 0
  | String c' rest =>
      if Ascii.eqb c' c then S (occurrences c rest) else occurrences c rest
  end.

(** The comparisons [>=] and [<=] of the numeric values. *)
Class Comparable (num : Type) : Type := {
  num_geb : num -> num -> bool;
  num_leb : num -> num -> bool
}.

Section SegmentAccess.

Context {num : Type} `{Numeric num} `{UnitTool num} `{Madx num}
        `{Comparable num} `{ElementList num}.

Local Open Scope py_scope.

Definition set__twiss_args (v : Dict.t num) (self : Segment num)
    : Segment num :=
  {| session := session self; sequence_name := sequence_name self;
     seg_start := seg_start self; seg_stop := seg_stop self;
     seg_range := seg_range self; _twiss_args := v;
     elements := elements self; tw := tw self; summary := summary self;
     pos := pos self; seg_hook := seg_hook self |}.

(** The property [Segment.twiss_args] and its setter. *)
Definition twiss_args (self : Segment num) : Dict.t num :=
  _twiss_args self.

Definition twiss_args_setter (twiss_args : Dict.t num)
    : Py (Segment num) unit :=
  modify (set__twiss_args twiss_args) ;;;
  twiss.

(** [Segment.element_by_position]: find optics element by longitudinal
    position. *)
Definition element_by_position (pos : option num) (self : Segment num)
    : option (Element num) :=
  match pos with
  | None => None
  | Some pos =>
      find (fun elem =>
              let at_ := el_at elem in
              let L := el_l elem in
              num_geb pos at_ && num_leb pos (num_add at_ L))
           (elements self)
  end.

(** The test of [element_by_position]: [pos >= at and pos <= at + L]. *)
Definition lies_within (pos : num) (elem : Element num) : bool :=
  num_geb pos (el_at elem)
  && num_leb pos (num_add (el_at elem) (el_l elem)).

(** [Segment.contains] *)
Definition contains (element : ElementInfo num) (self : Segment num) : bool :=
  Z.leb (ei_index (seg_start self)) (ei_index element)
  && Z.geb (ei_index (seg_stop self)) (ei_index element).

(** The end of [get_element_info], for an index: the data of the
    element, and the index counted from the start. *)
Definition element_info_at (element : Z) : Result (ElementInfo num) :=
  match elements_data element with
  | Err e => Err e
  | Ok (name, at_) =>
      let element :=
        if Z.ltb element 0 then (element + elements_len)%Z else element in
      Ok {| ei_name := name; ei_index := element; ei_at := at_ |}
  end.

(** [Segment.get_element_info]: get [ElementInfo] from element name or
    index. *)
Definition get_element_info (element : ElementRef num) (self : Segment num)
    : Result (ElementInfo num) :=
  match element with
  | RefInfo info => Ok info
  | RefKey key =>
      match elements_index key with
      | Err e => Err e
      | Ok element => element_info_at element
      end
  | RefIndex element => element_info_at element
  end.

(** [Segment.parse_range]: convert a range str/tuple to a tuple of
    [ElementInfo]. *)
Definition parse_range (range : RangeSpec num) (self : Segment num)
    : Result (ElementInfo num * ElementInfo num) :=
  let range :=
    match range with
    | RangeText range => map (fun name => RefKey (ByName name))
                             (str_split "/" range)
    | RangeItems range => range
    end in
  match range with
  | [start_name; stop_name] =>
      match get_element_info start_name self with
      | Err e => Err e
      | Ok start =>
          match get_element_info stop_name self with
          | Err e => Err e
          | Ok stop => Ok (start, stop)
          end
      end
  | _ => Err (Exception ValueError)
  end.

(** [Segment.get_twiss]: the value of the column [name] at the element,
    [None] outside of the segment. *)
Definition get_twiss (elem : ElementRef num) (name : string)
    (self : Segment num) : Result (option num) :=
  match get_element_info elem self with
  | Err e => Err e
  | Ok element =>
      if negb (contains element self) then Ok None
      else
        match Dict.get name (tw self) with
        | None => Err (Exception KeyError)
        | Some column =>
            match getitem column
                    (ei_index element - ei_index (seg_start self)) with
            | Ok value => Ok (Some value)
            | Err e => Err e
            end
        end
  end.

End SegmentAccess.

(* ===================================================================== *)
(** * Models guessed from the state of the interpreter *)
(* ===================================================================== *)

Section GuessedModels.

Context {num : Type} `{Numeric num} `{UnitTool num}.

(** What the embedded code reads of the objects of the interpreter.
    A column of a table holds numbers or text. *)
Inductive Column : Type :=
| Numbers (data : list num)
| Text (data : list string).

(** A TWISS table: [table.range] (what evaluating it gives, an exception
    or the items of the sequence it returns) and [table.items()]. *)
Record Table : Type := {
  table_range : Result (list string);
  table_items : list (string * Column)
}.

(** A sequence: [sequence.beam], [sequence.twiss_table] and the names in
    [sequence.elements]. *)
Record Sequence : Type := {
  seq_beam : Result (Dict.t num);
  seq_twiss_table : Result Table;
  seq_elements : list string
}.

Definition mandatory_fields : list string :=
  ["betx"; "bety"; "alfx"; "alfy"].

Definition is_mandatory (key : string) : bool :=
  existsb (String.eqb key) mandatory_fields.

(** [data[0] != 0] *)
Definition nonzero (x : num) : bool :=
  if num_eq_dec x num_zero then false else true.

(** The dictionary comprehension of [Session._get_twiss], item by item:
    [{key: float(data[0]) for key, data in table.items()
      if issubclass(data.dtype.type, np.number)
         and (key in mandatory_fields or data[0] != 0)}] *)
Fixpoint twiss_of_items (items : list (string * Column))
    (twiss : Dict.t num) : Result (Dict.t num) :=
  match items with
  | [] => Ok twiss
  | (key, Text _) :: rest => twiss_of_items rest twiss
  | (key, Numbers data) :: rest =>
      if is_mandatory key then
        match getitem data 0 with
        | Err e => Err e
        | Ok value => twiss_of_items rest (Dict.set key value twiss)
        end
      else
        match getitem data 0 with
        | Err e => Err e
        | Ok first =>
            if nonzero first then
              match getitem data 0 with
              | Err e => Err e
              | Ok value => twiss_of_items rest (Dict.set key value twiss)
              end
            else twiss_of_items rest twiss
        end
  end.

(** [first, last = table.range] under [except ValueError], followed by
    the test that both are elements of the sequence. *)
Definition table_ends (sequence : Sequence) (table : Table)
    : Result (string * string) :=
  match table_range table with
  | Err (Exception ValueError) =>
      Err (RuntimeError "TWISS table inaccessible or nonsensical.")
  | Err e => Err e
  | Ok [first; last] =>
      if negb (existsb (String.eqb first) (seq_elements sequence))
         || negb (existsb (String.eqb last) (seq_elements sequence))
      then Err (RuntimeError
                  "The TWISS table appears to belong to a different sequence.")
      else Ok (first, last)
  | Ok _ => Err (RuntimeError "TWISS table inaccessible or nonsensical.")
  end.

(** [Session._get_twiss]: try to determine (range, twiss) from the MAD-X
    state. *)
Definition _get_twiss (sequence : Sequence)
    : Result ((string * string) * Dict.t num) :=
  match seq_twiss_table sequence with
  | Err e => Err e
  | Ok table =>
      match table_ends sequence table with
      | Err e => Err e
      | Ok (first, last) =>
          match twiss_of_items (table_items table) Dict.empty with
          | Err e => Err e
          | Ok twiss => Ok ((first, last), twiss)
          end
      end
  end.

(** The dictionary that [_get_seq_model] returns. *)
Record SeqModel : Type := {
  sm_sequence : string;
  sm_range : string * string;
  sm_beam : Dict.t num;
  sm_twiss : Dict.t num
}.

(** [Session._get_seq_model], on the sequences of the interpreter. *)
Definition _get_seq_model (sequences : Dict.t Sequence)
    (sequence_name : string) : Result SeqModel :=
  match Dict.get sequence_name sequences with
  | None => Err (RuntimeError "The sequence is not defined.")
  | Some sequence =>
      let beam :=
        match seq_beam sequence with
        | Ok beam => Ok beam
        | Err (RuntimeError _) => Ok Dict.empty
        | Err e => Err e
        end in
      match beam with
      | Err e => Err e
      | Ok beam =>
          let guess :=
            match _get_twiss sequence with
            | Ok (range, twiss) => Ok (range, twiss)
            | Err (RuntimeError _) =>
                Ok ((sequence_name ++ "$start", sequence_name ++ "$end"),
                    Dict.empty)
            | Err e => Err e
            end in
          match guess with
          | Err e => Err e
          | Ok (range, twiss) =>
              Ok {| sm_sequence := sequence_name;
                    sm_range := range;
                    sm_beam := dict_add_unit beam;
                    sm_twiss := dict_add_unit twiss |}
          end
      end
  end.

(** ** [madgui/component/model.py] *)

(** An entry of a table: a number or a text. *)
Inductive Cell : Type :=
| Number (x : num)
| Word (s : string).

(** [data[0]] and [data[0] != 0] on a column of either kind. *)
Definition first_cell (data : Column) : Result Cell :=
  match data with
  | Numbers data =>
      match getitem data 0 with
      | Ok x => Ok (Number x)
      | Err e => Err e
      end
  | Text data =>
      match getitem data 0 with
      | Ok s => Ok (Word s)
      | Err e => Err e
      end
  end.

Definition cell_nonzero (c : Cell) : bool :=
  match c with
  | Number x => nonzero x
  | Word _ => true
  end.

(** [map_noexcept], as [list] consumes it: the results of [func] on the
    items, without those on which [func] raises an exception that [catch]
    covers; any other exception ends the iteration. *)
Fixpoint map_noexcept {A B} (func : A -> Result B) (sequence : list A)
    (catch : Error -> bool) : Result (list B) :=
  match sequence with
  | [] => Ok []
  | item :: rest =>
      match func item with
      | Ok value =>
          match map_noexcept func rest catch with
          | Ok values => Ok (value :: values)
          | Err e => Err e
          end
      | Err e =>
          if catch e then map_noexcept func rest catch else Err e
      end
  end.

(** [except RuntimeError] *)
Definition is_RuntimeError (e : Error) : bool :=
  match e with
  | RuntimeError _ => true
  | _ => false
  end.

(** The dictionary that [Model.get_seq_model] returns. *)
Record Model : Type := {
  md_api_version : Z;
  md_init_files : list string;
  md_sequence : string;
  md_range : string * string;
  md_beam : Dict.t num;
  md_twiss : Dict.t Cell
}.

(** The dictionary comprehension of [Model.get_seq_model]:
    [{key: data[0] for key, data in table.items()
      if data[0] != 0 or key in mandatory_fields}] *)
Fixpoint twiss_init_of_items (items : list (string * Column))
    (twiss_init : Dict.t Cell) : Result (Dict.t Cell) :=
  match items with
  | [] => Ok twiss_init
  | (key, data) :: rest =>
      match first_cell data with
      | Err e => Err e
      | Ok first =>
          if cell_nonzero first || is_mandatory key then
            match first_cell data with
            | Err e => Err e
            | Ok value =>
                twiss_init_of_items rest (Dict.set key value twiss_init)
            end
          else twiss_init_of_items rest twiss_init
      end
  end.

(** [Model.get_seq_model] *)
Definition get_seq_model (sequences : Dict.t Sequence)
    (sequence_name : string) : Result Model :=
  match Dict.get sequence_name sequences with
  | None => Err (RuntimeError "The sequence is not defined.")
  | Some sequence =>
      match seq_beam sequence with
      | Err e => Err e
      | Ok beam =>
          match seq_twiss_table sequence with
          | Err e => Err e
          | Ok table =>
              match table_ends sequence table with
              | Err e => Err e
              | Ok (first, last) =>
                  match twiss_init_of_items (table_items table)
                                            Dict.empty with
                  | Err e => Err e
                  | Ok twiss_init =>
                      Ok {| md_api_version := 1;
                            md_init_files := [];
                            md_sequence := sequence_name;
                            md_range := (first, last);
                            md_beam := beam;
                            md_twiss := twiss_init |}
                  end
              end
          end
      end
  end.

(** [Model.detect]: the models of all sequences of the interpreter. *)
Definition detect (sequences : Dict.t Sequence) : Result (list Model) :=
  map_noexcept (get_seq_model sequences) (Dict.keys sequences)
               is_RuntimeError.

End GuessedModels.

Arguments Column num : clear implicits.
Arguments Table num : clear implicits.
Arguments Sequence num : clear implicits.
Arguments SeqModel num : clear implicits.
Arguments Cell num : clear implicits.
Arguments Model num : clear implicits.

(* ===================================================================== *)
(** * Hooks: [madgui/core/plugin.py] *)
(* ===================================================================== *)

Module Plugin.

Section Signals.

(** The event handlers of the application: callables, compared as Python
    compares them. *)
Variable Handler : Type.
Variable Handler_eq_dec : forall a b : Handler, {a = b} + {a <> b}.

(** A slot of a signal: a handler of the application, or an [EntryPoint]
    object with its group and name. *)
Inductive Slot : Type :=
| Client (handler : Handler)
| EntryPoint (_group : string) (_name : option string).

Definition Slot_eq_dec (a b : Slot) : {a = b} + {a <> b}.
Proof.
  decide equality.
  - decide equality. apply string_dec.
  - apply string_dec.
Defined.



Local Open Scope py_scope.

(** [List.connect]: register an event handler. *)
Definition connect (slot : Handler) : Py (list Slot) unit :=
  modify (fun slots => (slots ++ [Client slot])%list).

(** [List.disconnect]: remove an event handler. *)
Definition disconnect (slot : Handler) : Py (list Slot) unit :=
  fun slots =>
    match list_remove Slot_eq_dec (Client slot) slots with
    | Some rest => (Returned tt, rest)
    | None => (Raised ValueError, slots)
    end.

(** [HookCollection]: the declared hooks with their entry point group,
    and the signals created so far. *)
Record HookCollection : Type := {
  _hooks : Dict.t (option string);
  _cache : Dict.t (list Slot)
}.

Definition HookCollection_init (hooks : Dict.t (option string))
    : HookCollection :=
  {| _hooks := hooks; _cache := Dict.empty |}.




End Signals.

End Plugin.

(* ===================================================================== *)
(** * A concrete setting: integer quantities, no unit scaling *)
(* ===================================================================== *)

(** Integers as quantities: comparison, sum and product are the usual
    ones; quotient and square root are the integer ones. *)
#[global] Instance Z_Numeric : Numeric Z := {|
  num_eq_dec := Z.eq_dec;
  num_ltb := Z.ltb;
  num_add := Z.add;
  num_mul := Z.mul;
  num_div := Z.div;
  num_pow_half := Z.sqrt;
  num_zero := 0%Z
|}.

(** Values carry their number unchanged through the unit service, and no
    text equals zero. *)
#[global] Instance plain_units : UnitTool Z := {|
  strip_unit := fun v => v;
  text_equals_zero := fun _ => false;
  utool_add_unit := fun _ v => v;
  utool_strip_unit := fun _ v => v
|}.

(** A bare number and a number defined by an expression. *)
Definition bare (v : Z) : ParamValue Z :=
  {| pv_value := v; pv_expression := None |}.

Definition knob (v : Z) (expression : string) : ParamValue Z :=
  {| pv_value := v; pv_expression := Some expression |}.

(** The sequence [Q1 (quadrupole at 0), D1 (drift at 5),
    Q2 (quadrupole at 10)]. *)
Definition Q1 : Element Z :=
  {| el_name := "q1"; el_type := "quadrupole"; el_at := 0%Z; el_l := 1%Z;
     el_params := [("k1", knob 3%Z "kq1")] |}.

Definition D1 : Element Z :=
  {| el_name := "d1"; el_type := "drift"; el_at := 5%Z; el_l := 1%Z;
     el_params := [] |}.

Definition Q2 : Element Z :=
  {| el_name := "q2"; el_type := "quadrupole"; el_at := 10%Z; el_l := 1%Z;
     el_params := [("k1", bare 7%Z)] |}.

(** An interpreter that answers every TWISS request with the same three
    rows and accepts every match request. *)
Definition three_rows : TwissResult Z :=
  {| tr_columns :=
       [("s", [0; 5; 10]%Z); ("x", [1; 2; 3]%Z); ("y", [4; 5; 6]%Z);
        ("betx", [4; 9; 16]%Z); ("bety", [1; 4; 9]%Z)];
     tr_summary := [("ex", 4%Z); ("ey", 9%Z)] |}.

Definition steady_madx : Madx Z := {|
  madx_twiss := fun _ _ => Returned three_rows;
  madx_match := fun _ _ => Returned tt
|}.

(** An interpreter whose TWISS command fails. *)
Definition failing_madx : Madx Z := {|
  madx_twiss := fun _ _ => Raised (EngineError "twiss failed");
  madx_match := fun _ _ => Returned tt
|}.

(** A segment over the three elements that starts at position 100 and
    has not computed its optics yet. *)
Definition fresh_segment : Segment Z :=
  {| session := {| madx_calls := [] |};
     sequence_name := "line";
     seg_start := {| ei_name := "q1"; ei_index := 0%Z; ei_at := 100%Z |};
     seg_stop := {| ei_name := "q2"; ei_index := 2%Z; ei_at := 110%Z |};
     seg_range := ("q1", "q2");
     _twiss_args := [("betx", 1%Z); ("bety", 1%Z)];
     elements := [Q1; D1; Q2];
     tw := [];
     summary := [("ex", 4%Z); ("ey", 9%Z)];
     pos := [];
     seg_hook := [] |}.

(** Quadrupoles may be varied through [k1] for both beta functions. *)
Definition quad_rules : Dict.t (Dict.t (list string)) :=
  [("betx", [("quadrupole", ["k1"])]); ("bety", [("quadrupole", ["k1"])])].

(** A matching session on the three-element line with a target for
    [envx] at the drift. *)
Definition drift_matching : Matching Z :=
  add_constraint "envx" D1 2%Z (Matching_init fresh_segment quad_rules).

(** Three quadrupoles at 10, 25 and 40 and a marker at 50 that carries an
    envelope target. *)
Definition quad_at (name : string) (position : Z) : Element Z :=
  {| el_name := name; el_type := "quadrupole"; el_at := position;
     el_l := 1%Z; el_params := [("k1", bare 2%Z)] |}.

Definition M50 : Element Z :=
  {| el_name := "m50"; el_type := "marker"; el_at := 50%Z; el_l := 0%Z;
     el_params := [] |}.

Definition segment_of (elems : list (Element Z)) : Segment Z :=
  {| session := {| madx_calls := [] |};
     sequence_name := "line";
     seg_start := {| ei_name := "start"; ei_index := 0%Z; ei_at := 0%Z |};
     seg_stop := {| ei_name := "end"; ei_index := 3%Z; ei_at := 50%Z |};
     seg_range := ("start", "end");
     _twiss_args := [("betx", 1%Z); ("bety", 1%Z)];
     elements := elems;
     tw := [];
     summary := [("ex", 4%Z); ("ey", 9%Z)];
     pos := [];
     seg_hook := [] |}.

Definition three_quads_matching : Matching Z :=
  add_constraint "envx" M50 2%Z
    (Matching_init
       (segment_of [quad_at "qa" 10%Z; quad_at "qb" 25%Z;
                    quad_at "qc" 40%Z; M50])
       quad_rules).

(** A constraint at position 5 whose candidates lie at 5 and 10. *)
Definition downstream_only_matching : Matching Z :=
  add_constraint "envx" D1 2%Z
    (Matching_init (segment_of [D1; quad_at "q5" 5%Z; quad_at "q10" 10%Z])
                   quad_rules).

(** A quadrupole upstream of the drift whose strength is the literal 0. *)
Definition Q0 : Element Z :=
  {| el_name := "q0"; el_type := "quadrupole"; el_at := 0%Z; el_l := 1%Z;
     el_params := [("k1", bare 0%Z)] |}.

Definition dead_knob_matching : Matching Z :=
  add_constraint "envx" D1 2%Z
    (Matching_init (segment_of [Q0; D1]) quad_rules).

(** A kicker with a horizontal and a vertical kick, used through [hkick]
    for the orbit in x and through [vkick] for the orbit in y; the drift
    downstream of it carries a target on both axes, as a click in matching
    mode sets them. *)
Definition K1 : Element Z :=
  {| el_name := "k1"; el_type := "kicker"; el_at := 0%Z; el_l := 1%Z;
     el_params := [("hkick", bare 1%Z); ("vkick", bare 1%Z)] |}.

Definition kicker_rules : Dict.t (Dict.t (list string)) :=
  [("x", [("kicker", ["hkick"])]); ("y", [("kicker", ["vkick"])])].

Definition kicker_matching : Matching Z :=
  add_constraint "posy" D1 0%Z
    (add_constraint "posx" D1 0%Z
       (Matching_init (segment_of [K1; D1]) kicker_rules)).

(** The list [vary] that the first part of [match] builds, empty when it
    raises. *)
Definition plan_vary (self : Matching Z) : list (VaryEntry Z) :=
  match fst (match_plan self) with
  | Returned plan => snd plan
  | Raised _ => []
  end.

(** The comparisons of the integers. *)
#[global] Instance Z_Comparable : Comparable Z := {|
  num_geb := Z.geb;
  num_leb := Z.leb
|}.

(** The element list of the three-element line in the interpreter. *)
Definition line_names : list (string * Z) :=
  [("q1", 0%Z); ("d1", 5%Z); ("q2", 10%Z)].

Fixpoint index_of (name : string) (names : list (string * Z)) (i : Z)
    : Result Z :=
  match names with
  | [] => Err (Exception ValueError)
  | (name', _) :: rest =>
      if String.eqb name name' then Ok i else index_of name rest (i + 1)%Z
  end.

#[global] Instance line_elements : ElementList Z := {|
  elements_index := fun key =>
    match key with
    | ByName name => index_of name line_names 0%Z
    | ByElement elem => index_of (el_name elem) line_names 0%Z
    end;
  elements_data := fun i => getitem line_names i;
  elements_len := 3%Z
|}.

(** An interpreter that computes optics but rejects every match
    request. *)
Definition refusing_madx : Madx Z := {|
  madx_twiss := fun _ _ => Returned three_rows;
  madx_match := fun _ _ => Raised (EngineError "match failed")
|}.

(** An interpreter whose TWISS answer has no summary. *)
Definition summaryless_madx : Madx Z := {|
  madx_twiss := fun _ _ =>
    Returned {| tr_columns := tr_columns three_rows; tr_summary := [] |};
  madx_match := fun _ _ => Returned tt
|}.

(** Three quadrupoles upstream of a marker that carries a target for
    both envelopes. *)
Definition both_planes_matching : Matching Z :=
  add_constraint "envy" M50 3%Z
    (add_constraint "envx" M50 2%Z
       (Matching_init
          (segment_of [quad_at "qa" 10%Z; quad_at "qb" 25%Z;
                       quad_at "qc" 40%Z; M50])
          quad_rules)).

(** A matching session that was just created. *)
Definition idle_matching : Matching Z :=
  Matching_init fresh_segment quad_rules.

(** A segment without a computed summary. *)
Definition blank_segment : Segment Z :=
  set_summary [] fresh_segment.

(** The sequence [line] as the interpreter shows it after a TWISS over
    all of it. *)
Definition line_table : Table Z :=
  {| table_range := Ok ["q1"; "q2"];
     table_items :=
       [("name", Text ["q1"; "d1"; "q2"]);
        ("betx", Numbers [4; 9; 16]%Z);
        ("alfx", Numbers [0; 1; 2]%Z);
        ("x", Numbers [0; 2; 3]%Z);
        ("y", Numbers [5; 5; 6]%Z)] |}.

Definition line_sequence : Sequence Z :=
  {| seq_beam := Ok [("energy", 2%Z)];
     seq_twiss_table := Ok line_table;
     seq_elements := ["q1"; "d1"; "q2"] |}.

(* ===================================================================== *)
(** * Facts about dictionaries and lists *)
(* ===================================================================== *)

Section DictFacts.

Context {V : Type}.

Lemma get_set_same (k : string) (v : V) (d : Dict.t V) :
  Dict.get k (Dict.set k v d) = Some v.
Proof.
  induction d as [|[k' v'] rest IH]; simpl.
  - now rewrite String.eqb_refl.
  - destruct (String.eqb k k') eqn:E; simpl; rewrite ?String.eqb_refl, ?E; auto.
Qed.

Lemma get_set_other (k k' : string) (v : V) (d : Dict.t V) :
  k <> k' -> Dict.get k' (Dict.set k v d) = Dict.get k' d.
Proof.
  intros Hne.
  assert (Hkk : String.eqb k' k = false) by (apply String.eqb_neq; congruence).
  induction d as [|[k0 v0] rest IH]; simpl.
  - now rewrite Hkk.
  - destruct (String.eqb k k0) eqn:E; simpl.
    + apply String.eqb_eq in E. subst k0. now rewrite Hkk.
    + now rewrite IH.
Qed.

Lemma get_del_same (k : string) (d : Dict.t V) :
  Dict.get k (Dict.del k d) = None.
Proof.
  unfold Dict.del.
  induction d as [|[k' v'] rest IH]; simpl; auto.
  destruct (String.eqb k k') eqn:E; simpl; auto.
  now rewrite E.
Qed.

Lemma get_del_other (k k' : string) (d : Dict.t V) :
  k <> k' -> Dict.get k' (Dict.del k d) = Dict.get k' d.
Proof.
  intros Hne. unfold Dict.del.
  induction d as [|[k0 v0] rest IH]; simpl; auto.
  destruct (String.eqb k k0) eqn:E; simpl.
  - apply String.eqb_eq in E. subst k0.
    assert (String.eqb k' k = false) as -> by (apply String.eqb_neq; congruence).
    exact IH.
  - now rewrite IH.
Qed.

Lemma set_get_same (k : string) (v : V) (d : Dict.t V) :
  Dict.get k d = Some v -> Dict.set k v d = d.
Proof.
  induction d as [|[k' v'] rest IH]; simpl; [discriminate|].
  destruct (String.eqb k k') eqn:E.
  - apply String.eqb_eq in E. subst k'. now intros [= ->].
  - intros Hget. f_equal. auto.
Qed.

Lemma get_none_not_key (k : string) (d : Dict.t V) :
  Dict.get k d = None <-> ~ In k (Dict.keys d).
Proof.
  unfold Dict.keys.
  induction d as [|[k' v'] rest IH]; simpl.
  - tauto.
  - destruct (String.eqb k k') eqn:E.
    + apply String.eqb_eq in E. subst. split; [discriminate | tauto].
    + apply String.eqb_neq in E. rewrite IH. split.
      * intros Hn [Heq | Hin]; [congruence | tauto].
      * tauto.
Qed.

Lemma keys_set (k : string) (v : V) (d : Dict.t V) :
  forall k', In k' (Dict.keys (Dict.set k v d)) <-> k' = k \/ In k' (Dict.keys d).
Proof.
  unfold Dict.keys.
  induction d as [|[k0 v0] rest IH]; simpl; intros k'.
  - intuition.
  - destruct (String.eqb k k0) eqn:E; simpl.
    + apply String.eqb_eq in E. subst. intuition.
    + rewrite IH. intuition.
Qed.

End DictFacts.

Lemma filter_none {A} (f : A -> bool) (l : list A) :
  (forall a, In a l -> f a = false) -> filter f l = [].
Proof.
  induction l as [|a l IH]; simpl; intros Hall; auto.
  rewrite (Hall a) by auto. apply IH. auto.
Qed.

Lemma filter_length_lt {A} (f : A -> bool) (l : list A) :
  (List.length (filter f l) < List.length l)%nat <-> exists a, In a l /\ f a = false.
Proof.
  induction l as [|a l IH]; simpl.
  - split; [lia | intros [a [[] _]]].
  - pose proof (filter_length_le f l) as Hle.
    destruct (f a) eqn:E; simpl.
    + rewrite <- Nat.succ_lt_mono, IH. split.
      * intros [b [Hb Hf]]. eauto.
      * intros [b [[Hb | Hb] Hf]]; [congruence | eauto].
    + split; [eauto | lia].
Qed.

(* ===================================================================== *)
(** * The constraint set *)
(* ===================================================================== *)

Section ConstraintFacts.

Context {num : Type} `{Numeric num}.

Lemma constraints_fire_hook (name : string) (self : Matching num) :
  constraints (fire_hook name self) = constraints self.
Proof. reflexivity. Qed.

Lemma gconstr_remove_constraint axis elem (self : Matching num) :
  _gconstr axis (remove_constraint axis elem self)
  = filter (other_name elem) (_gconstr axis self).
Proof.
  unfold remove_constraint, _gconstr, Dict.get_default.
  destruct (Dict.get axis (constraints self)) as [orig|] eqn:Hget.
  - change (filter _ orig) with (filter (other_name elem) orig).
    destruct (filter (other_name elem) orig) as [|c cs];
      destruct (Nat.ltb _ _); simpl;
      rewrite ?get_del_same, ?get_set_same; reflexivity.
  - rewrite Hget. reflexivity.
Qed.

Lemma gconstr_remove_constraint_other axis axis' elem (self : Matching num) :
  axis <> axis' ->
  _gconstr axis' (remove_constraint axis elem self) = _gconstr axis' self.
Proof.
  intros Hne. unfold remove_constraint, _gconstr, Dict.get_default.
  destruct (Dict.get axis (constraints self)) as [orig|] eqn:Hget; auto.
  change (filter _ orig) with (filter (other_name elem) orig).
  destruct (filter (other_name elem) orig); destruct (Nat.ltb _ _); simpl;
    rewrite ?get_del_other, ?get_set_other by assumption; reflexivity.
Qed.

Lemma get_dict_append {V} (k : string) (item : V) (d : Dict.t (list V)) :
  Dict.get k (dict_append k item d)
  = Some (Dict.get_default k [] d ++ [item])%list.
Proof.
  unfold dict_append, Dict.get_default.
  destruct (Dict.get k d); now rewrite get_set_same.
Qed.

Lemma gconstr_add_constraint axis elem v (self : Matching num) :
  _gconstr axis (add_constraint axis elem v self)
  = (filter (other_name elem) (_gconstr axis self) ++ [(elem, v)])%list.
Proof.
  rewrite <- gconstr_remove_constraint.
  unfold add_constraint, _gconstr at 1. unfold Dict.get_default at 1.
  rewrite constraints_fire_hook. simpl.
  now rewrite get_dict_append.
Qed.

Lemma get_add_constraint axis elem v (self : Matching num) :
  Dict.get axis (constraints (add_constraint axis elem v self))
  = Some (filter (other_name elem) (_gconstr axis self) ++ [(elem, v)])%list.
Proof.
  rewrite <- gconstr_remove_constraint.
  unfold add_constraint. rewrite constraints_fire_hook. simpl.
  now rewrite get_dict_append.
Qed.

Lemma get_dict_append_other {V} (k k' : string) (item : V)
    (d : Dict.t (list V)) :
  k <> k' -> Dict.get k' (dict_append k item d) = Dict.get k' d.
Proof.
  intros Hne. unfold dict_append.
  destruct (Dict.get k d); now rewrite get_set_other.
Qed.

Lemma find_constraint_filter axis elem (self : Matching num) :
  find_constraint axis elem self
  = filter (fun c => if Element_eq_dec (fst c) elem then true else false)
           (_gconstr axis self).
Proof. reflexivity. Qed.

Lemma other_name_not_found elem (l : list (Constraint num)) :
  filter (fun c => if Element_eq_dec (fst c) elem then true else false)
         (filter (other_name elem) l) = [].
Proof.
  apply filter_none. intros c Hc.
  apply filter_In in Hc. destruct Hc as [_ Hc].
  destruct (Element_eq_dec (fst c) elem) as [Heq|]; auto.
  unfold other_name in Hc. rewrite Heq, String.eqb_refl in Hc. discriminate.
Qed.

Lemma filter_other_name_idem elem (l : list (Constraint num)) :
  filter (other_name elem) (filter (other_name elem) l)
  = filter (other_name elem) l.
Proof.
  induction l as [|c l IH]; simpl; auto.
  destruct (other_name elem c) eqn:E; simpl; rewrite ?E, IH; reflexivity.
Qed.

Lemma other_name_self elem (v : num) : other_name elem (elem, v) = false.
Proof. unfold other_name. simpl. now rewrite String.eqb_refl. Qed.

(** C7. Adding a constraint for an (axis, element) pair that already has
    one replaces it: after [add_constraint axis elem v1] and then
    [add_constraint axis elem v2], from any state of the constraint set,
    [find_constraint axis elem] is the one-item list [(elem, v2)]. *)
Theorem add_constraint_twice_replaces :
  forall (self : Matching num) (axis : string) (elem : Element num)
         (v1 v2 : num),
    find_constraint axis elem
      (add_constraint axis elem v2 (add_constraint axis elem v1 self))
    = [(elem, v2)].
Proof.
  intros self axis elem v1 v2.
  rewrite find_constraint_filter, !gconstr_add_constraint.
  rewrite !filter_app. simpl.
  rewrite other_name_self. simpl. rewrite app_nil_r.
  rewrite other_name_not_found. simpl.
  destruct (Element_eq_dec elem elem); [reflexivity | congruence].
Qed.

Lemma get_remove_constraint axis elem (self : Matching num) :
  Dict.get axis (constraints (remove_constraint axis elem self))
  = match Dict.get axis (constraints self) with
    | None => None
    | Some orig =>
        match filter (other_name elem) orig with
        | [] => None
        | c :: cs => Some (c :: cs)
        end
    end.
Proof.
  unfold remove_constraint.
  destruct (Dict.get axis (constraints self)) as [orig|] eqn:Hget; auto.
  change (filter _ orig) with (filter (other_name elem) orig).
  destruct (filter (other_name elem) orig) as [|c cs];
    destruct (Nat.ltb _ _); simpl;
    rewrite ?get_del_same, ?get_set_same; reflexivity.
Qed.

Lemma hook_remove_constraint axis elem (self : Matching num) :
  hook (remove_constraint axis elem self)
  = if Nat.ltb (List.length (filter (other_name elem) (_gconstr axis self)))
               (List.length (_gconstr axis self))
    then (hook self ++ ["remove_constraint"])%list
    else hook self.
Proof.
  unfold remove_constraint, _gconstr, Dict.get_default.
  destruct (Dict.get axis (constraints self)) as [orig|] eqn:Hget; auto.
  change (filter _ orig) with (filter (other_name elem) orig).
  destruct (filter (other_name elem) orig) as [|c cs];
    destruct (Nat.ltb _ _); reflexivity.
Qed.

Lemma remove_constraint_nothing_to_remove axis elem (self : Matching num) :
  (forall l, Dict.get axis (constraints self) = Some l -> l <> []) ->
  (forall c, In c (_gconstr axis self) -> other_name elem c = true) ->
  remove_constraint axis elem self = self.
Proof.
  intros Hwf Hall. unfold remove_constraint.
  unfold _gconstr, Dict.get_default in Hall.
  destruct (Dict.get axis (constraints self)) as [orig|] eqn:Hget; auto.
  change (filter _ orig) with (filter (other_name elem) orig).
  assert (Hsame : filter (other_name elem) orig = orig).
  { clear Hget Hwf. induction orig as [|c l IH]; simpl; auto.
    rewrite (Hall c) by (left; reflexivity). f_equal. apply IH.
    intros c' Hc'. apply Hall. now right. }
  rewrite Hsame, Nat.ltb_irrefl.
  destruct orig as [|c l]; [now elim (Hwf [])|].
  destruct self as [sg cs els rl vp hk]. unfold set_constraints. simpl in *.
  f_equal. apply set_get_same. exact Hget.
Qed.

Lemma no_empty_axis_init (segment : Segment num) rules :
  no_empty_axis (Matching_init segment rules).
Proof. intros axis l. discriminate. Qed.

Lemma no_empty_axis_clear (self : Matching num) :
  no_empty_axis (clear_constraints self).
Proof. intros axis l. discriminate. Qed.

Lemma no_empty_axis_remove axis elem (self : Matching num) :
  no_empty_axis self -> no_empty_axis (remove_constraint axis elem self).
Proof.
  intros Hwf axis' l.
  destruct (string_dec axis axis') as [<-|Hne].
  - rewrite get_remove_constraint.
    destruct (Dict.get axis (constraints self)); [|discriminate].
    destruct (filter _ _); [discriminate|]. intros [= <-]. discriminate.
  - unfold remove_constraint.
    destruct (Dict.get axis (constraints self)) as [orig|]; [|apply Hwf].
    change (filter _ orig) with (filter (other_name elem) orig).
    destruct (filter (other_name elem) orig); destruct (Nat.ltb _ _); simpl;
      rewrite ?get_del_other, ?get_set_other by assumption; apply Hwf.
Qed.

Lemma no_empty_axis_add axis elem v (self : Matching num) :
  no_empty_axis self -> no_empty_axis (add_constraint axis elem v self).
Proof.
  intros Hwf axis' l. unfold add_constraint.
  rewrite constraints_fire_hook. simpl.
  destruct (string_dec axis axis') as [<-|Hne].
  - rewrite get_dict_append. intros [= <-].
    destruct (Dict.get_default _ _ _); discriminate.
  - rewrite get_dict_append_other by assumption.
    now apply no_empty_axis_remove.
Qed.

(** C8. [remove_constraint axis elem] after [add_constraint axis elem v],
    from any state of the constraint set: [find_constraint axis elem] is
    empty; the constraints left on the axis are those that the axis had
    for elements of another name; when there are none, the axis is no
    key of the mapping any more. And for any call of [remove_constraint],
    whatever came before: the constraints it drops are those whose element
    has the name of [elem], the hook [remove_constraint] fires (once) when
    the axis has fewer constraints afterwards, and no hook fires when it
    has as many as before. *)
Theorem remove_constraint_after_add :
  forall (self : Matching num) (axis : string) (elem : Element num)
         (v : num),
    let added := add_constraint axis elem v self in
    let removed := remove_constraint axis elem added in
    find_constraint axis elem removed = []
    /\ _gconstr axis removed = filter (other_name elem) (_gconstr axis self)
    /\ (filter (other_name elem) (_gconstr axis self) = [] ->
        ~ In axis (Dict.keys (constraints removed)))
    /\ hook removed = (hook added ++ ["remove_constraint"])%list
    /\ _gconstr axis (remove_constraint axis elem self)
       = filter (other_name elem) (_gconstr axis self)
    /\ ((List.length (_gconstr axis (remove_constraint axis elem self))
         < List.length (_gconstr axis self))%nat ->
        hook (remove_constraint axis elem self)
        = (hook self ++ ["remove_constraint"])%list)
    /\ (List.length (_gconstr axis (remove_constraint axis elem self))
        = List.length (_gconstr axis self) ->
        hook (remove_constraint axis elem self) = hook self).
Proof.
  intros self axis elem v added removed.
  assert (Hadded : _gconstr axis added
            = (filter (other_name elem) (_gconstr axis self) ++ [(elem, v)])%list)
    by apply gconstr_add_constraint.
  assert (Hremoved : _gconstr axis removed
            = filter (other_name elem) (_gconstr axis self)).
  { unfold removed. rewrite gconstr_remove_constraint, Hadded, filter_app.
    simpl. rewrite other_name_self, app_nil_r. apply filter_other_name_idem. }
  repeat split.
  - rewrite find_constraint_filter, Hremoved. apply other_name_not_found.
  - exact Hremoved.
  - intros Hnone. apply get_none_not_key.
    unfold removed. rewrite get_remove_constraint.
    unfold added. rewrite get_add_constraint, filter_app. simpl.
    rewrite other_name_self, app_nil_r, filter_other_name_idem, Hnone.
    reflexivity.
  - unfold removed. rewrite hook_remove_constraint, Hadded, filter_app.
    simpl. rewrite other_name_self, app_nil_r, filter_other_name_idem.
    rewrite length_app. simpl.
    destruct (Nat.ltb_spec
                (List.length (filter (other_name elem) (_gconstr axis self)))
                (List.length (filter (other_name elem) (_gconstr axis self)) + 1));
      [reflexivity | lia].
  - apply gconstr_remove_constraint.
  - rewrite gconstr_remove_constraint, hook_remove_constraint.
    intros Hlt. apply Nat.ltb_lt in Hlt. now rewrite Hlt.
  - rewrite gconstr_remove_constraint, hook_remove_constraint.
    intros Heq. rewrite Heq, Nat.ltb_irrefl. reflexivity.
Qed.

(** C10. [remove_constraint axis elem] on an axis without constraints
    changes nothing: when the axis is no key of the constraints mapping (it
    never had a constraint, or lost its last one), the [Matching] object,
    and so the mapping and the list of fired hooks, is the same afterwards.
    In a state where no axis is mapped to the empty list (every state that
    [add_constraint], [remove_constraint] and [clear_constraints] lead
    to), an axis whose list of constraints is empty is such an axis. *)
Theorem remove_constraint_absent_axis :
  forall (self : Matching num) (axis : string) (elem : Element num),
    (Dict.get axis (constraints self) = None ->
     remove_constraint axis elem self = self)
    /\ (no_empty_axis self -> _gconstr axis self = [] ->
        remove_constraint axis elem self = self
        /\ hook (remove_constraint axis elem self) = hook self
        /\ constraints (remove_constraint axis elem self) = constraints self).
Proof.
  intros self axis elem.
  assert (Habsent : Dict.get axis (constraints self) = None ->
                    remove_constraint axis elem self = self).
  { intros Hnone. unfold remove_constraint. now rewrite Hnone. }
  split; [exact Habsent|].
  intros Hwf Hempty.
  assert (Hnone : Dict.get axis (constraints self) = None).
  { unfold _gconstr, Dict.get_default in Hempty.
    destruct (Dict.get axis (constraints self)) as [l|] eqn:Hget; auto.
    subst l. now elim (Hwf axis []). }
  rewrite (Habsent Hnone). auto.
Qed.

End ConstraintFacts.

(* ===================================================================== *)
(** * The optics table of the segment *)
(* ===================================================================== *)

Lemma get_map_items {V W} (f : string -> V -> W) (k : string) (d : Dict.t V) :
  Dict.get k (Dict.map_items f d) = option_map (f k) (Dict.get k d).
Proof.
  unfold Dict.map_items.
  induction d as [|[k' v'] rest IH]; simpl; auto.
  destruct (String.eqb k k') eqn:E; auto.
  apply String.eqb_eq in E. now subst.
Qed.

(** Running [c] and then [k] returns only if both return. *)
Lemma bind_returned {S A B} (c : Py S A) (k : A -> Py S B) s b s' :
  bind c k s = (Returned b, s') ->
  exists a s1, c s = (Returned a, s1) /\ k a s1 = (Returned b, s').
Proof.
  unfold bind. destruct (c s) as [[a|e] s1]; [eauto | discriminate].
Qed.

Lemma bind_raised_first {S A B} (c : Py S A) (k : A -> Py S B) s e s' :
  c s = (Raised e, s') -> bind c k s = (Raised e, s').
Proof. unfold bind. now intros ->. Qed.

Section TwissFacts.

Context {num : Type} `{Numeric num} `{UnitTool num} `{Madx num}.

(** C6. When the TWISS command of the interpreter fails, [Segment.twiss]
    raises what the interpreter raised, and the segment is as before except
    for the record of the request sent: the table [tw], [summary], [pos]
    and so all derived columns are the cached ones, and the hook [update]
    has not fired. *)
Theorem twiss_failure_keeps_cache :
  forall (self : Segment num) (e : Exn),
    madx_twiss (madx_calls (session self)) (_get_twiss_args self) = Raised e ->
    let '(result, self') := twiss self in
    result = Raised e
    /\ tw self' = tw self
    /\ summary self' = summary self
    /\ pos self' = pos self
    /\ seg_hook self' = seg_hook self
    /\ self' = set_session
                 {| madx_calls := (madx_calls (session self)
                                   ++ [CallTwiss (_get_twiss_args self)])%list |}
                 self.
Proof.
  intros self e Hfail.
  unfold twiss, raw_twiss.
  unfold bind at 1. unfold bind at 1. unfold get_state at 1. unfold call_twiss.
  rewrite Hfail. simpl. repeat split.
Qed.

Lemma get_table_add_unit (k : string) (d : Dict.t (list num)) :
  Dict.get k (table_add_unit d)
  = option_map (map (utool_add_unit k)) (Dict.get k d).
Proof. apply (get_map_items (fun k col => map (utool_add_unit k) col)). Qed.

(** C5. After a [Segment.twiss] that returns, with [results] what the
    interpreter answered to this call, the table of the segment is made
    from that answer and from nothing else. The summary is the summary of
    the answer; the column [s] holds, at every index, the position of the
    answer (with its unit) plus [start.at]; [envx] holds
    [(betx * ex) ** 0.5] and [envy] holds [(bety * ey) ** 0.5] for the
    columns [betx], [bety] of the answer and [ex], [ey] of its summary;
    [posx] is the column [x] and [posy] the column [y] of the answer; every
    other column is the column of the answer with its unit; [pos] is the
    column [s]; and the hook [update] has fired. *)
Theorem twiss_table_consistent :
  forall (self self' : Segment num),
    twiss self = (Returned tt, self') ->
    exists (results : TwissResult num) (raw_s betx bety x y : list num)
           (ex ey : num),
      madx_twiss (madx_calls (session self)) (_get_twiss_args self)
      = Returned results
      /\ Dict.get "s" (tr_columns results) = Some raw_s
      /\ Dict.get "betx" (table_add_unit (tr_columns results)) = Some betx
      /\ Dict.get "bety" (table_add_unit (tr_columns results)) = Some bety
      /\ Dict.get "x" (table_add_unit (tr_columns results)) = Some x
      /\ Dict.get "y" (table_add_unit (tr_columns results)) = Some y
      /\ summary self' = dict_add_unit (tr_summary results)
      /\ Dict.get "ex" (summary self') = Some ex
      /\ Dict.get "ey" (summary self') = Some ey
      /\ Dict.get "s" (tw self')
         = Some (map (fun local => num_add (utool_add_unit "s" local)
                                           (ei_at (seg_start self))) raw_s)
      /\ Dict.get "envx" (tw self')
         = Some (map (fun betx_i => num_pow_half (num_mul betx_i ex)) betx)
      /\ Dict.get "envy" (tw self')
         = Some (map (fun bety_i => num_pow_half (num_mul bety_i ey)) bety)
      /\ Dict.get "posx" (tw self') = Some x
      /\ Dict.get "posy" (tw self') = Some y
      /\ (forall k, ~ In k ["s"; "envx"; "envy"; "posx"; "posy"] ->
            Dict.get k (tw self')
            = Dict.get k (table_add_unit (tr_columns results)))
      /\ (forall i,
             nth_error (column "s" self') i
             = option_map
                 (fun local => num_add (utool_add_unit "s" local)
                                       (ei_at (seg_start self)))
                 (nth_error raw_s i))
      /\ (forall i,
             nth_error (column "envx" self') i
             = option_map (fun betx_i => num_pow_half (num_mul betx_i ex))
                          (nth_error (column "betx" self') i))
      /\ (forall i,
             nth_error (column "envy" self') i
             = option_map (fun bety_i => num_pow_half (num_mul bety_i ey))
                          (nth_error (column "bety" self') i))
      /\ (forall i,
             nth_error (column "posx" self') i
             = nth_error (column "x" self') i)
      /\ (forall i,
             nth_error (column "posy" self') i
             = nth_error (column "y" self') i)
      /\ pos self' = column "s" self'
      /\ seg_hook self' = (seg_hook self ++ ["update"])%list.
Proof.
  intros self self' Hrun.
  unfold twiss, raw_twiss, tw_get, summary_get, tw_set in Hrun.
  unfold bind, get_state, modify, call_twiss in Hrun.
  destruct (madx_twiss (madx_calls (session self)) (_get_twiss_args self))
    as [results|e] eqn:Hengine; [|discriminate].
  simpl in Hrun.
  repeat match type of Hrun with
         | context [subscript ?o ?st] =>
             let a := fresh "col" in
             let E := fresh "Hget" in
             destruct o as [a|] eqn:E;
             unfold subscript at 1, ret, raise in Hrun; simpl in Hrun;
             [|discriminate]
         end.
  injection Hrun as <-.
  repeat match goal with
         | Hg : Dict.get _ (Dict.set _ _ _) = Some _ |- _ =>
             first [ rewrite get_set_same in Hg
                   | rewrite get_set_other in Hg by discriminate ]
         end.
  assert (Hs : Dict.get "s" (table_add_unit (tr_columns results))
               = option_map (map (utool_add_unit "s"))
                            (Dict.get "s" (tr_columns results)))
    by apply get_table_add_unit.
  rewrite Hget in Hs.
  destruct (Dict.get "s" (tr_columns results)) as [raw_s|] eqn:Hraw;
    [|discriminate].
  simpl in Hs. injection Hs as ->. injection Hget0 as <-.
  remember (table_add_unit (tr_columns results)) as tw0 eqn:Htw0.
  remember (dict_add_unit (tr_summary results)) as summary0 eqn:Hsummary0.
  exists results, raw_s, col1, col3, col5, col6, col2, col4.
  unfold column, Dict.get_default. simpl.
  repeat first [ rewrite get_set_same
               | rewrite get_set_other by discriminate ].
  rewrite <- Htw0, Hget1, Hget3, Hget5, Hget6, map_map.
  repeat split; auto.
  - intros k Hk. simpl in Hk.
    repeat (rewrite get_set_other by (intros <-; tauto)). reflexivity.
  - intros i. now rewrite nth_error_map.
  - intros i. now rewrite nth_error_map.
  - intros i. now rewrite nth_error_map.
Qed.

End TwissFacts.

(* ===================================================================== *)
(** * The greedy choice of knobs *)
(* ===================================================================== *)

Section MaxFacts.

Context {A K : Type} (ltb : K -> K -> bool) (key : A -> K).

Lemma max_from_in (best : A) (l : list A) :
  In (max_from ltb key best l) (best :: l).
Proof.
  revert best. induction l as [|x rest IH]; intros best; simpl.
  - now left.
  - destruct (ltb (key best) (key x)).
    + right. apply IH.
    + destruct (IH best) as [Heq | Hin]; [now left | now right; right].
Qed.

Hypothesis ltb_irrefl : forall a, ltb a a = false.
Hypothesis ltb_trans :
  forall a b c, ltb a b = true -> ltb b c = true -> ltb a c = true.

Lemma max_from_not_below (l : list A) :
  forall best u,
    ltb (key best) (key u) = false ->
    ltb (key (max_from ltb key best l)) (key u) = false.
Proof.
  induction l as [|x rest IH]; intros best u Hu; simpl; auto.
  destruct (ltb (key best) (key x)) eqn:Hbx.
  - apply IH. destruct (ltb (key x) (key u)) eqn:Hxu; auto.
    rewrite (ltb_trans Hbx Hxu) in Hu. discriminate.
  - now apply IH.
Qed.

Lemma max_from_upper (l : list A) :
  forall best u,
    In u (best :: l) ->
    ltb (key (max_from ltb key best l)) (key u) = false.
Proof.
  induction l as [|x rest IH]; intros best u Hin.
  - destruct Hin as [<-|[]]. apply ltb_irrefl.
  - destruct Hin as [<-|[<-|Hin]].
    + apply max_from_not_below. apply ltb_irrefl.
    + simpl. destruct (ltb (key best) (key x)) eqn:Hbx.
      * apply IH. now left.
      * now apply max_from_not_below.
    + simpl. destruct (ltb (key best) (key x)); apply IH; now right.
Qed.

End MaxFacts.

Lemma list_remove_in {A} (eq_dec : forall x y : A, {x = y} + {x <> y})
    (v : A) (l : list A) :
  In v l -> exists l', list_remove eq_dec v l = Some l'.
Proof.
  induction l as [|x rest IH]; simpl; [tauto|].
  intros Hin. destruct (eq_dec x v) as [|Hne]; [eauto|].
  destruct Hin as [|Hin]; [congruence|].
  destruct (IH Hin) as [l' ->]. eauto.
Qed.

Lemma list_remove_incl {A} (eq_dec : forall x y : A, {x = y} + {x <> y})
    (v : A) (l l' : list A) :
  list_remove eq_dec v l = Some l' -> incl l' l.
Proof.
  revert l'. induction l as [|x rest IH]; simpl; intros l'; [discriminate|].
  destruct (eq_dec x v).
  - intros [= <-]. now apply incl_tl, incl_refl.
  - destruct (list_remove eq_dec v rest) as [r|]; [|discriminate].
    intros [= <-]. intros y [<-|Hy]; [now left|right]. now apply (IH r).
Qed.

Section MatchFacts.

Context {num : Type} `{Numeric num} `{UnitTool num} `{Madx num}.

Lemma get_any_elem_param_raises (elem : Element num) (params : list string) :
  (forall param, In param params -> ~ modifiable elem param) ->
  _get_any_elem_param elem params = Raised ValueError.
Proof.
  induction params as [|param rest IH]; simpl; intros Hnone; auto.
  assert (Hrest : _get_any_elem_param elem rest = Raised ValueError)
    by (apply IH; intros q Hq; apply Hnone; now right).
  assert (Hparam : ~ modifiable elem param) by (apply Hnone; now left).
  unfold modifiable in Hparam.
  destruct (elem_getitem elem param) as [[value|text]|]; auto.
  - destruct (pv_expression value) as [expression|] eqn:Hexpr.
    + exfalso. apply Hparam. left. discriminate.
    + destruct (num_eq_dec (strip_unit (pv_value value)) num_zero); auto.
      exfalso. apply Hparam. now right.
  - destruct (text_equals_zero text); auto. now exfalso.
Qed.

Lemma get_any_elem_param_raised_inv (elem : Element num)
    (params : list string) (e : Exn) :
  _get_any_elem_param elem params = Raised e ->
  e = ValueError /\ forall param, In param params -> ~ modifiable elem param.
Proof.
  induction params as [|param rest IH]; simpl.
  - intros [= <-]. split; auto.
  - destruct (elem_getitem elem param) as [[value|text]|] eqn:Hget.
    + destruct (pv_expression value) as [expression|] eqn:Hexpr;
        [discriminate|].
      destruct (num_eq_dec (strip_unit (pv_value value)) num_zero) as [Hz|];
        [|discriminate].
      intros Hr. destruct (IH Hr) as [-> Hrest]. split; auto.
      intros q [<-|Hq]; auto.
      unfold modifiable. rewrite Hget. intros [Hex|Hnz]; congruence.
    + destruct (text_equals_zero text) eqn:Hzero; [|discriminate].
      intros Hr. destruct (IH Hr) as [-> Hrest]. split; auto.
      intros q [<-|Hq]; auto.
      unfold modifiable. rewrite Hget. congruence.
    + intros Hr. destruct (IH Hr) as [-> Hrest]. split; auto.
      intros q [<-|Hq]; auto.
      unfold modifiable. now rewrite Hget.
Qed.

Lemma get_any_elem_param_returns_string (elem : Element num)
    (params : list string) (r : option string) :
  _get_any_elem_param elem params = Returned r -> exists expr, r = Some expr.
Proof.
  induction params as [|param rest IH]; simpl; [discriminate|].
  destruct (elem_getitem elem param) as [[value|text]|]; auto.
  - destruct (pv_expression value); [intros [= <-]; eauto|].
    destruct (num_eq_dec _ _); auto. intros [= <-]; eauto.
  - destruct (text_equals_zero text); auto. intros [= <-]; eauto.
Qed.

Lemma assign_flat_app l1 l2 st :
  assign_flat (l1 ++ l2) st
  = match assign_flat l1 st with
    | Returned st' => assign_flat l2 st'
    | Raised e => Raised e
    end.
Proof.
  revert st. induction l1 as [|[axis [elem target]] rest IH]; intros st; simpl.
  - reflexivity.
  - destruct (assign_knob axis elem st); auto.
Qed.

Lemma assign_axis_flat axis constr st :
  assign_axis axis constr st = assign_flat (map (pair axis) constr) st.
Proof.
  revert st. induction constr as [|[elem target] rest IH]; intros st; simpl.
  - reflexivity.
  - destruct (assign_knob axis elem st); auto.
Qed.

Lemma assign_all_flat items st :
  assign_all items st = assign_flat (flat_items items) st.
Proof.
  revert st. induction items as [|[axis constr] rest IH]; intros st; simpl.
  - reflexivity.
  - unfold flat_items in *. simpl.
    rewrite assign_flat_app, <- assign_axis_flat.
    destruct (assign_axis axis constr st); auto.
Qed.

(** What one iteration of the greedy loop does, by the candidate chosen
    and the outcome of [_get_any_elem_param] on it. *)
Lemma assign_knob_cases axis elem allvars vary pool :
  Dict.get axis allvars = Some pool ->
  assign_knob axis elem (allvars, vary)
  = match chosen pool elem with
    | None => Returned (allvars, vary)
    | Some v =>
        match _get_any_elem_param (fst v) (snd v) with
        | Raised e => Raised e
        | Returned None =>
            match list_remove Candidate_eq_dec v pool with
            | Some pool' => Returned (Dict.set axis pool' allvars, vary)
            | None => Raised ValueError
            end
        | Returned (Some expr) =>
            Returned
              (remove_from_all v allvars,
               (vary ++ [{| ve_expr := expr; ve_axis := axis;
                            ve_elem := elem; ve_pool := pool;
                            ve_knob := v |}])%list)
        end
    end.
Proof.
  intros Hget. unfold assign_knob, chosen. rewrite Hget.
  destruct (allowed_of pool (el_at elem)); reflexivity.
Qed.

Lemma chosen_allowed pool elem v :
  chosen pool elem = Some v ->
  In v pool /\ num_ltb (el_at (fst v)) (el_at elem) = true.
Proof.
  unfold chosen.
  destruct (allowed_of pool (el_at elem)) as [|first others] eqn:Hallowed;
    [discriminate|].
  intros [= <-].
  assert (Hin : In (max_from num_ltb (fun v => el_at (fst v)) first others)
                   (allowed_of pool (el_at elem))).
  { rewrite Hallowed. apply max_from_in. }
  unfold allowed_of in Hin. apply filter_In in Hin. exact Hin.
Qed.

Lemma chosen_none pool elem :
  chosen pool elem = None <-> allowed_of pool (el_at elem) = [].
Proof.
  unfold chosen. destruct (allowed_of pool (el_at elem)); split;
    auto; discriminate.
Qed.

Lemma keys_remove_from_all v (allvars : Dict.t (list (Candidate num))) :
  Dict.keys (remove_from_all v allvars) = Dict.keys allvars.
Proof.
  unfold Dict.keys, remove_from_all. rewrite map_map. reflexivity.
Qed.

Lemma has_pool_get (allvars : Dict.t (list (Candidate num))) axis :
  has_pool allvars axis <-> exists pool, Dict.get axis allvars = Some pool.
Proof.
  unfold has_pool. split.
  - intros Hin. destruct (Dict.get axis allvars) as [pool|] eqn:Hget;
      [eauto|]. now apply get_none_not_key in Hget.
  - intros [pool Hget] . destruct (in_dec string_dec axis (Dict.keys allvars));
      auto. apply get_none_not_key in n. congruence.
Qed.

Lemma assign_knob_keeps_pools axis elem allvars vary allvars' vary' :
  assign_knob axis elem (allvars, vary) = Returned (allvars', vary') ->
  forall axis', has_pool allvars axis' -> has_pool allvars' axis'.
Proof.
  intros Hstep axis' Hhas.
  destruct (Dict.get axis allvars) as [pool|] eqn:Hget.
  - rewrite assign_knob_cases with (pool := pool) in Hstep by exact Hget.
    destruct (chosen pool elem) as [v|]; [|now injection Hstep as <- <-].
    destruct (_get_any_elem_param (fst v) (snd v)) as [[expr|]|e];
      [| |discriminate].
    + injection Hstep as <- <-. unfold has_pool.
      now rewrite keys_remove_from_all.
    + destruct (list_remove _ v pool); [|discriminate].
      injection Hstep as <- <-. unfold has_pool. apply keys_set. now right.
  - unfold assign_knob in Hstep. rewrite Hget in Hstep. discriminate.
Qed.

Lemma allvars_frame axis (self : Matching num) :
  constraints (snd (_allvars axis self)) = constraints self
  /\ segment (snd (_allvars axis self)) = segment self
  /\ hook (snd (_allvars axis self)) = hook self.
Proof.
  unfold _allvars.
  destruct (Dict.get axis (_variable_parameters self)); simpl; auto.
Qed.

Lemma copy_allvars_frame axes :
  forall acc (self : Matching num),
    constraints (snd (copy_allvars axes acc self)) = constraints self
    /\ segment (snd (copy_allvars axes acc self)) = segment self
    /\ hook (snd (copy_allvars axes acc self)) = hook self.
Proof.
  induction axes as [|axis rest IH]; intros acc self; simpl; auto.
  destruct (_allvars axis self) as [vars self1] eqn:Hvars.
  destruct (allvars_frame axis self) as (Hc & Hs & Hh).
  rewrite Hvars in Hc, Hs, Hh. simpl in Hc, Hs, Hh.
  destruct (IH (Dict.set axis vars acc) self1) as (Hc' & Hs' & Hh').
  repeat split; congruence.
Qed.

Lemma copy_allvars_keys axes :
  forall acc (self : Matching num) axis,
    In axis axes \/ has_pool acc axis ->
    has_pool (fst (copy_allvars axes acc self)) axis.
Proof.
  induction axes as [|a rest IH]; intros acc self axis Hin; simpl.
  - destruct Hin as [[]|Hin]. exact Hin.
  - destruct (_allvars a self) as [vars self1].
    apply IH. destruct Hin as [[<-|Hin]|Hin]; auto;
      right; apply keys_set; auto.
Qed.

Lemma flat_items_axis {V} (items : list (string * list V)) axis (c : V) :
  In (axis, c) (flat_items items) -> In axis (map fst items).
Proof.
  unfold flat_items. rewrite in_flat_map.
  intros [[a l] [Hin Hc]]. simpl in Hc. apply in_map_iff in Hc.
  destruct Hc as [c' [[= <- <-] _]].
  apply in_map_iff. now exists (a, l).
Qed.

(** The first part of [match], phase by phase. *)
Lemma match_plan_run (self : Matching num) :
  match_plan self
  = match MatchTransform_init (segment self) with
    | Raised e => (Raised e, self)
    | Returned trans =>
        match transform_constraints trans (Dict.items (constraints self))
                                    Dict.empty with
        | Raised e => (Raised e, self)
        | Returned trans_constr =>
            let self1 :=
              snd (copy_allvars (Dict.keys trans_constr) Dict.empty self) in
            let allvars :=
              fst (copy_allvars (Dict.keys trans_constr) Dict.empty self) in
            match assign_flat (flat_items (Dict.items trans_constr))
                              (allvars, []) with
            | Raised e => (Raised e, self1)
            | Returned st => (Returned (trans_constr, snd st), self1)
            end
        end
    end.
Proof.
  unfold match_plan, bind, get_state, lift_outcome, ret.
  destruct (MatchTransform_init (segment self)) as [trans|e]; auto.
  destruct (transform_constraints trans _ _) as [tc|e]; auto.
  destruct (copy_allvars (Dict.keys tc) Dict.empty self) as [allvars self1].
  simpl. rewrite assign_all_flat. unfold Dict.items.
  destruct (assign_flat _ _); reflexivity.
Qed.

(** [match] is its first part followed by the two calls. *)
Lemma match_run (self : Matching num) :
  match_ self
  = match match_plan self with
    | (Raised e, self1) => (Raised e, self1)
    | (Returned plan, self1) =>
        match call_match (match_args self1 (fst plan) (snd plan)) self1 with
        | (Raised e, self2) => (Raised e, self2)
        | (Returned _, self2) => on_segment twiss self2
        end
    end.
Proof.
  unfold match_, bind, get_state.
  destruct (match_plan self) as [[plan|e] self1]; reflexivity.
Qed.

(** A raise of the greedy loop comes from [_get_any_elem_param] on a
    candidate that was chosen. *)
Lemma assign_flat_raised l :
  forall st e,
    (forall axis c, In (axis, c) l -> has_pool (fst st) axis) ->
    assign_flat l st = Raised e ->
    exists before axis elem target after st' pool v,
      l = (before ++ (axis, (elem, target)) :: after)%list
      /\ assign_flat before st = Returned st'
      /\ Dict.get axis (fst st') = Some pool
      /\ chosen pool elem = Some v
      /\ _get_any_elem_param (fst v) (snd v) = Raised e.
Proof.
  induction l as [|[axis [elem target]] rest IH]; intros [allvars vary] e Hkeys;
    cbn [assign_flat]; [discriminate|].
  assert (Hhas : has_pool allvars axis)
    by (apply (Hkeys axis (elem, target)); now left).
  apply has_pool_get in Hhas. destruct Hhas as [pool Hget].
  destruct (assign_knob axis elem (allvars, vary)) as [[allvars1 vary1]|e1]
    eqn:Hstep.
  - intros Hrest.
    assert (Hkeys1 : forall a c, In (a, c) rest ->
                                 has_pool (fst (allvars1, vary1)) a).
    { intros a c Hin. simpl.
      apply (assign_knob_keeps_pools _ _ _ _ Hstep).
      apply (Hkeys a c). now right. }
    destruct (IH (allvars1, vary1) e Hkeys1 Hrest) as
      (before & a & el & t & after & st' & pool' & v & -> & Hb & Hg & Hc & Hr).
    exists ((axis, (elem, target)) :: before), a, el, t, after, st', pool', v.
    repeat split; auto. cbn [assign_flat]. now rewrite Hstep.
  - intros [= <-].
    rewrite assign_knob_cases with (pool := pool) in Hstep by exact Hget.
    destruct (chosen pool elem) as [v|] eqn:Hchosen; [|discriminate].
    exists [], axis, elem, target, rest, (allvars, vary), pool, v.
    repeat split; auto.
    destruct (_get_any_elem_param (fst v) (snd v)) as [[expr|]|e2] eqn:Hgaep.
    + discriminate.
    + destruct (get_any_elem_param_returns_string _ _ Hgaep). discriminate.
    + congruence.
Qed.

(** C2. Suppose that [match] reaches, in its greedy loop, a constraint
    [(elem, target)] of [axis] (after the constraints [before], which went
    through) for which a candidate [v] is chosen, and that no parameter
    name of [v] is modifiable on its element. Then [match] raises
    [ValueError]; the [Matching] object is then the one left by the lookups
    of the candidate lists: its constraints, its hooks and its whole
    segment (the requests sent to the interpreter, the table, the summary)
    are those from before the call, so no match request was sent and no
    TWISS was run. *)
Theorem match_aborts_on_unresolved_knob :
  forall (self : Matching num) (trans : MatchTransform num)
         (trans_constr : Dict.t (list (Constraint num)))
         (before after : list (string * Constraint num))
         (axis : string) (elem : Element num) (target : num)
         (st : Dict.t (list (Candidate num)) * list (VaryEntry num))
         (pool : list (Candidate num)) (v : Candidate num),
    MatchTransform_init (segment self) = Returned trans ->
    transform_constraints trans (Dict.items (constraints self)) Dict.empty
    = Returned trans_constr ->
    flat_items (Dict.items trans_constr)
    = (before ++ (axis, (elem, target)) :: after)%list ->
    assign_flat before
      (fst (copy_allvars (Dict.keys trans_constr) Dict.empty self), [])
    = Returned st ->
    Dict.get axis (fst st) = Some pool ->
    chosen pool elem = Some v ->
    (forall param, In param (snd v) -> ~ modifiable (fst v) param) ->
    let self' := snd (copy_allvars (Dict.keys trans_constr) Dict.empty self) in
    match_ self = (Raised ValueError, self')
    /\ constraints self' = constraints self
    /\ segment self' = segment self
    /\ madx_calls (session (segment self'))
       = madx_calls (session (segment self))
    /\ hook self' = hook self.
Proof.
  intros self trans tc before after axis elem target [allvars vary] pool v
         Htrans Htc Hflat Hbefore Hget Hchosen Hnone self'.
  destruct (copy_allvars_frame (Dict.keys tc) Dict.empty self)
    as (Hc & Hs & Hh).
  fold self' in Hc, Hs, Hh.
  repeat split; auto; [|now rewrite Hs].
  rewrite match_run, match_plan_run, Htrans, Htc. cbv zeta.
  rewrite Hflat, assign_flat_app, Hbefore. cbn [assign_flat].
  simpl in Hget.
  rewrite assign_knob_cases with (pool := pool) by exact Hget.
  rewrite Hchosen, get_any_elem_param_raises by exact Hnone. reflexivity.
Qed.

(** Whenever the first part of [match] raises, [match] raises the same
    and nothing has been sent to the interpreter. *)
Lemma match_plan_raise_aborts (self self1 : Matching num) (e : Exn) :
  match_plan self = (Raised e, self1) ->
  match_ self = (Raised e, self1)
  /\ constraints self1 = constraints self
  /\ segment self1 = segment self.
Proof.
  intros Hplan. rewrite match_run, Hplan. split; auto.
  rewrite match_plan_run in Hplan.
  destruct (MatchTransform_init (segment self)) as [trans|e1];
    [|inversion Hplan; subst; auto].
  destruct (transform_constraints trans _ _) as [tc|e1];
    [|inversion Hplan; subst; auto].
  cbv zeta in Hplan.
  destruct (copy_allvars_frame (Dict.keys tc) Dict.empty self)
    as (Hc & Hs & Hh).
  destruct (assign_flat _ _); inversion Hplan; subst; auto.
Qed.

(** C4. A constraint whose axis pool has no candidate strictly upstream
    is left unassigned: the iteration of the greedy loop returns with the
    pools and the list [vary] as they were, and the loop goes on with the
    remaining constraints. And when the first part of [match] raises,
    either the segment has no emittance [ex] or [ey], or an axis has no
    transform, or the greedy loop reached a constraint for which a
    candidate was chosen (so the allowed candidates were not empty) and
    none of its parameters is modifiable; in that last case the exception
    is [ValueError]. *)
Theorem no_candidate_leaves_unassigned :
  forall (self : Matching num),
    (forall axis elem allvars vary pool,
        Dict.get axis allvars = Some pool ->
        allowed_of pool (el_at elem) = [] ->
        assign_knob axis elem (allvars, vary) = Returned (allvars, vary))
    /\ (forall axis elem target rest allvars vary pool,
           Dict.get axis allvars = Some pool ->
           allowed_of pool (el_at elem) = [] ->
           assign_flat ((axis, (elem, target)) :: rest) (allvars, vary)
           = assign_flat rest (allvars, vary))
    /\ (forall e self1,
           match_plan self = (Raised e, self1) ->
           MatchTransform_init (segment self) = Raised e
           \/ (exists trans,
                  MatchTransform_init (segment self) = Returned trans
                  /\ transform_constraints trans
                       (Dict.items (constraints self)) Dict.empty
                     = Raised e)
           \/ (exists trans trans_constr before axis elem target after st
                      pool v,
                  MatchTransform_init (segment self) = Returned trans
                  /\ transform_constraints trans
                       (Dict.items (constraints self)) Dict.empty
                     = Returned trans_constr
                  /\ flat_items (Dict.items trans_constr)
                     = (before ++ (axis, (elem, target)) :: after)%list
                  /\ assign_flat before
                       (fst (copy_allvars (Dict.keys trans_constr)
                                          Dict.empty self), [])
                     = Returned st
                  /\ Dict.get axis (fst st) = Some pool
                  /\ chosen pool elem = Some v
                  /\ allowed_of pool (el_at elem) <> []
                  /\ (forall param, In param (snd v) ->
                                    ~ modifiable (fst v) param)
                  /\ e = ValueError)).
Proof.
  intros self.
  assert (Hstep : forall axis elem allvars vary pool,
             Dict.get axis allvars = Some pool ->
             allowed_of pool (el_at elem) = [] ->
             assign_knob axis elem (allvars, vary) = Returned (allvars, vary)).
  { intros axis elem allvars vary pool Hget Hnone.
    rewrite assign_knob_cases with (pool := pool) by exact Hget.
    apply chosen_none in Hnone. now rewrite Hnone. }
  split; [exact Hstep|]. split.
  - intros axis elem target rest allvars vary pool Hget Hnone.
    cbn [assign_flat]. now rewrite (Hstep _ elem _ vary _ Hget Hnone).
  - intros e self1 Hplan. rewrite match_plan_run in Hplan.
    destruct (MatchTransform_init (segment self)) as [trans|e1];
      [|left; inversion Hplan; now subst].
    right.
    destruct (transform_constraints trans _ _) as [tc|e1] eqn:Htc;
      [|left; exists trans; split; auto; inversion Hplan; now subst].
    right. cbv zeta in Hplan.
    destruct (assign_flat (flat_items (Dict.items tc)) _) as [st1|e1]
      eqn:Hloop; [discriminate|].
    inversion Hplan; subst e1; clear Hplan.
    apply assign_flat_raised in Hloop.
    + destruct Hloop as
        (before & axis & elem & target & after & st & pool & v
         & Hflat & Hbefore & Hget & Hchosen & Hraise).
      apply get_any_elem_param_raised_inv in Hraise.
      destruct Hraise as [-> Hnone].
      exists trans, tc, before, axis, elem, target, after, st, pool, v.
      repeat split; auto.
      intros Hempty. apply chosen_none in Hempty. congruence.
    + intros axis c Hin. simpl. apply copy_allvars_keys. left.
      apply (flat_items_axis _ _ _ Hin).
Qed.

(** ** What the transform hands to the solver *)

Lemma flat_items_app {V} (a b : list (string * list V)) :
  flat_items (a ++ b) = (flat_items a ++ flat_items b)%list.
Proof. unfold flat_items. apply flat_map_app. Qed.






Lemma madx_constraints_flat (trans_constr : Dict.t (list (Constraint num))) :
  madx_constraints trans_constr
  = map (fun ntc => match_entry (fst ntc) (snd ntc)) (flat_items trans_constr).
Proof.
  unfold madx_constraints, flat_items, Dict.items.
  induction trans_constr as [|[name constr] rest IH]; simpl; auto.
  rewrite map_app, map_map, IH. reflexivity.
Qed.


(** ** The entries of [vary] and the iterations that made them *)

(** An iteration of the greedy loop that returns either leaves [vary] as
    it is or appends one entry, made from the candidate chosen in the
    working pool of the axis. *)
Lemma assign_knob_step axis elem allvars vary st1 :
  assign_knob axis elem (allvars, vary) = Returned st1 ->
  snd st1 = vary
  \/ exists entry,
       st1 = (remove_from_all (ve_knob entry) allvars,
              (vary ++ [entry])%list)
       /\ ve_axis entry = axis
       /\ ve_elem entry = elem
       /\ Dict.get axis allvars = Some (ve_pool entry)
       /\ chosen (ve_pool entry) elem = Some (ve_knob entry)
       /\ _get_any_elem_param (fst (ve_knob entry)) (snd (ve_knob entry))
          = Returned (Some (ve_expr entry)).
Proof.
  intros Hstep.
  destruct (Dict.get axis allvars) as [pool|] eqn:Hget.
  2:{ unfold assign_knob in Hstep. rewrite Hget in Hstep. discriminate. }
  rewrite assign_knob_cases with (pool := pool) in Hstep by exact Hget.
  destruct (chosen pool elem) as [v|] eqn:Hchosen;
    [|injection Hstep as <-; now left].
  destruct (_get_any_elem_param (fst v) (snd v)) as [[expr|]|e] eqn:Hgaep;
    [| |discriminate].
  - injection Hstep as <-. right.
    exists {| ve_expr := expr; ve_axis := axis; ve_elem := elem;
              ve_pool := pool; ve_knob := v |}.
    simpl. repeat split; auto.
  - destruct (list_remove Candidate_eq_dec v pool); [|discriminate].
    injection Hstep as <-. now left.
Qed.

Lemma assign_flat_trace l :
  forall allvars vary st',
    assign_flat l (allvars, vary) = Returned st' ->
    exists appended,
      snd st' = (vary ++ appended)%list
      /\ forall before entry after,
           appended = (before ++ entry :: after)%list ->
           exists done target rest pools,
             l = (done ++ (ve_axis entry, (ve_elem entry, target)) :: rest)%list
             /\ assign_flat done (allvars, vary)
                = Returned (pools, (vary ++ before)%list)
             /\ Dict.get (ve_axis entry) pools = Some (ve_pool entry)
             /\ chosen (ve_pool entry) (ve_elem entry) = Some (ve_knob entry)
             /\ _get_any_elem_param (fst (ve_knob entry))
                                    (snd (ve_knob entry))
                = Returned (Some (ve_expr entry))
             /\ assign_knob (ve_axis entry) (ve_elem entry)
                            (pools, (vary ++ before)%list)
                = Returned (remove_from_all (ve_knob entry) pools,
                            ((vary ++ before) ++ [entry])%list).
Proof.
  induction l as [|[axis [elem target]] tail IH]; intros allvars vary st';
    cbn [assign_flat].
  - intros [= <-]. exists []. split; [now rewrite app_nil_r|].
    intros before entry after Happ. now destruct before.
  - destruct (assign_knob axis elem (allvars, vary)) as [[allvars1 vary1]|e]
      eqn:Hstep; [|discriminate].
    intros Htail.
    destruct (IH allvars1 vary1 st' Htail) as [appended [Hsnd Htrace]].
    assert (Hlift : forall before entry,
              (exists done target rest pools,
                  tail = (done ++ (ve_axis entry, (ve_elem entry, target))
                               :: rest)%list
                  /\ assign_flat done (allvars1, vary1)
                     = Returned (pools, before)
                  /\ Dict.get (ve_axis entry) pools = Some (ve_pool entry)
                  /\ chosen (ve_pool entry) (ve_elem entry)
                     = Some (ve_knob entry)
                  /\ _get_any_elem_param (fst (ve_knob entry))
                                         (snd (ve_knob entry))
                     = Returned (Some (ve_expr entry))
                  /\ assign_knob (ve_axis entry) (ve_elem entry)
                                 (pools, before)
                     = Returned (remove_from_all (ve_knob entry) pools,
                                 (before ++ [entry])%list)) ->
              exists done t rest pools,
                (axis, (elem, target)) :: tail
                = (done ++ (ve_axis entry, (ve_elem entry, t))
                        :: rest)%list
                /\ assign_flat done (allvars, vary)
                   = Returned (pools, before)
                /\ Dict.get (ve_axis entry) pools = Some (ve_pool entry)
                /\ chosen (ve_pool entry) (ve_elem entry)
                   = Some (ve_knob entry)
                /\ _get_any_elem_param (fst (ve_knob entry))
                                       (snd (ve_knob entry))
                   = Returned (Some (ve_expr entry))
                /\ assign_knob (ve_axis entry) (ve_elem entry)
                               (pools, before)
                   = Returned (remove_from_all (ve_knob entry) pools,
                               (before ++ [entry])%list)).
    { intros before entry (done & t & rest & pools & Heq & Hd & Hrest).
      exists ((axis, (elem, target)) :: done), t, rest, pools.
      split; [now rewrite Heq|]. split; [|exact Hrest].
      cbn [assign_flat]. now rewrite Hstep. }
    destruct (assign_knob_step _ _ _ _ Hstep) as [Hsame | Hnew].
    + simpl in Hsame. subst vary1. exists appended. split; [exact Hsnd|].
      intros before entry after Happ. apply Hlift.
      exact (Htrace before entry after Happ).
    + destruct Hnew as (first & [= -> ->] & Hax & Hel & Hpool & Hch & Hexpr).
      exists (first :: appended). split.
      { rewrite Hsnd, <- app_assoc. reflexivity. }
      intros before entry after Happ.
      destruct before as [|b before'].
      * simpl in Happ. injection Happ as <- _.
        exists [], target, tail, allvars. subst axis elem.
        rewrite app_nil_r. cbn [assign_flat].
        repeat split; auto.
      * simpl in Happ. injection Happ as <- Happ.
        replace (vary ++ first :: before')%list
          with ((vary ++ [first]) ++ before')%list
          by (now rewrite <- app_assoc).
        apply Hlift. exact (Htrace before' entry after Happ).
Qed.

(** Every entry of the list [vary] that the first part of [match]
    returns was appended by an iteration of the greedy loop on the
    candidate chosen from the working pool of its axis. *)
Lemma match_plan_trace (self self' : Matching num) trans_constr vary :
  match_plan self = (Returned (trans_constr, vary), self') ->
  forall before entry after,
    vary = (before ++ entry :: after)%list ->
    taken_at (fst (copy_allvars (Dict.keys trans_constr) Dict.empty self))
             (flat_items (Dict.items trans_constr)) before entry
    /\ chosen (ve_pool entry) (ve_elem entry) = Some (ve_knob entry).
Proof.
  intros Hplan before entry after Hsplit. rewrite match_plan_run in Hplan.
  destruct (MatchTransform_init (segment self)) as [trans|e]; [|discriminate].
  destruct (transform_constraints trans _ _) as [tc1|e]; [|discriminate].
  cbv zeta in Hplan.
  destruct (assign_flat (flat_items (Dict.items tc1)) _) as [st|e] eqn:Hloop;
    [|discriminate].
  injection Hplan as Htc Hvary Hself. subst tc1.
  destruct (assign_flat_trace _ _ _ Hloop) as [appended [Hsnd Htrace]].
  simpl in Hsnd. rewrite Hsnd in Hvary.
  destruct (Htrace before entry after) as
    (done & target & rest & pools & Hflat & Hdone & Hpool & Hch & Hexpr & Hst).
  { congruence. }
  split; [|exact Hch].
  exists done, target, rest, pools. simpl in Hdone, Hst.
  repeat split; auto.
Qed.

(** ** One knob per element, when the pools agree *)

Lemma list_remove_some {A} (eq_dec : forall x y : A, {x = y} + {x <> y})
    (v : A) (l l' : list A) :
  list_remove eq_dec v l = Some l' ->
  NoDup l -> NoDup l' /\ ~ In v l'.
Proof.
  revert l'. induction l as [|a rest IH]; simpl; intros l'; [discriminate|].
  destruct (eq_dec a v) as [->|Hne].
  - intros [= <-] Hnd. inversion Hnd; subst. auto.
  - destruct (list_remove eq_dec v rest) as [r|] eqn:Hr; [|discriminate].
    intros [= <-] Hnd. inversion Hnd as [|a' l0 Hnotin Hnd']; subst.
    destruct (IH r eq_refl Hnd') as [Hndr Hvr]. split.
    + constructor; auto. intros Hin. apply Hnotin.
      now apply (list_remove_incl _ _ _ Hr).
    + intros [Heq | Hin]; [congruence | tauto].
Qed.

Lemma list_remove_none {A} (eq_dec : forall x y : A, {x = y} + {x <> y})
    (v : A) (l : list A) :
  list_remove eq_dec v l = None -> ~ In v l.
Proof.
  intros Hnone Hin.
  destruct (list_remove_in eq_dec v l Hin) as [l' Hsome]. congruence.
Qed.

Lemma get_in {V} (k : string) (d : Dict.t V) (v : V) :
  Dict.get k d = Some v -> In (k, v) d.
Proof.
  induction d as [|[k' v'] rest IH]; simpl; [discriminate|].
  destruct (String.eqb k k') eqn:E.
  - apply String.eqb_eq in E. subst. intros [= ->]. now left.
  - intros Hget. right. auto.
Qed.

(** What is left of a pool once the chosen candidate was removed from
    every pool. *)
Lemma remove_from_all_pool (v : Candidate num) allvars axis pool' :
  In (axis, pool') (remove_from_all v allvars) ->
  exists pool,
    In (axis, pool) allvars /\ incl pool' pool
    /\ (NoDup pool -> NoDup pool' /\ ~ In v pool').
Proof.
  unfold remove_from_all. rewrite in_map_iff.
  intros [[a pool] [[= <- <-] Hin]]. exists pool. split; auto. simpl.
  destruct (list_remove Candidate_eq_dec v pool) as [c|] eqn:Hr.
  - split; [now apply (list_remove_incl _ _ _ Hr)|].
    intros Hnd. exact (list_remove_some _ _ Hr Hnd).
  - split; [apply incl_refl|]. intros Hnd. split; auto.
    exact (list_remove_none _ _ _ Hr).
Qed.

Lemma assign_knob_knobs_apart axis elem st st' :
  knobs_apart st ->
  assign_knob axis elem st = Returned st' ->
  knobs_apart st'.
Proof.
  destruct st as [allvars vary]. intros Hinv Hstep.
  destruct (Dict.get axis allvars) as [pool|] eqn:Hget.
  2:{ unfold assign_knob in Hstep. rewrite Hget in Hstep. discriminate. }
  rewrite assign_knob_cases with (pool := pool) in Hstep by exact Hget.
  destruct (chosen pool elem) as [v|] eqn:Hchosen;
    [|now injection Hstep as <-].
  destruct (_get_any_elem_param (fst v) (snd v)) as [[expr|]|e] eqn:Hgaep;
    [| |discriminate].
  2:{ destruct (get_any_elem_param_returns_string _ _ Hgaep). discriminate. }
  injection Hstep as <-.
  destruct Hinv as ((Hnodup & Hsame) & Hgone & Hknobs). simpl in *.
  destruct (chosen_allowed _ _ Hchosen) as [Hv _].
  apply get_in in Hget.
  repeat split; simpl.
  - intros a p' Hp'.
    destruct (remove_from_all_pool _ _ _ _ Hp') as (p & Hp & _ & Hnd).
    apply Hnd. now apply (Hnodup a).
  - intros a1 p1 a2 p2 u1 u2 Hp1 Hu1 Hp2 Hu2.
    destruct (remove_from_all_pool _ _ _ _ Hp1) as (q1 & Hq1 & Hi1 & _).
    destruct (remove_from_all_pool _ _ _ _ Hp2) as (q2 & Hq2 & Hi2 & _).
    apply (Hsame a1 q1 a2 q2); auto.
  - intros entry a p' u Hentry Hp' Hu.
    destruct (remove_from_all_pool _ _ _ _ Hp') as (p & Hp & Hincl & Hnd).
    apply in_app_iff in Hentry. destruct Hentry as [Hold | [<- | []]].
    + apply (Hgone entry a p u); auto.
    + unfold knob_element. simpl. intros Heq.
      assert (u = v) by (apply (Hsame a p axis pool); auto).
      subst u. now apply (Hnd (Hnodup a p Hp)).
  - rewrite map_app. simpl.
    apply NoDup_app; auto.
    + constructor; [intros []|constructor].
    + intros el Hel [<-|[]].
      apply in_map_iff in Hel. destruct Hel as [entry [Heq Hentry]].
      apply (Hgone entry axis pool v); auto.
Qed.

Lemma assign_flat_knobs_apart l :
  forall st st',
    knobs_apart st -> assign_flat l st = Returned st' -> knobs_apart st'.
Proof.
  induction l as [|[axis [elem target]] rest IH]; intros st st' Hinv;
    cbn [assign_flat].
  - now intros [= <-].
  - destruct (assign_knob axis elem st) as [st1|e] eqn:Hstep; [|discriminate].
    apply IH. now apply (assign_knob_knobs_apart _ _ Hinv Hstep).
Qed.

(** When the candidate lists that [match] starts from agree, the list
    [vary] holds at most one knob per element. *)
Lemma one_knob_per_element_when_pools_agree
    (self self' : Matching num) trans_constr vary :
  match_plan self = (Returned (trans_constr, vary), self') ->
  pools_agree (fst (copy_allvars (Dict.keys trans_constr) Dict.empty self)) ->
  NoDup (map knob_element vary).
Proof.
  intros Hplan Hagree. rewrite match_plan_run in Hplan.
  destruct (MatchTransform_init (segment self)) as [trans|e]; [|discriminate].
  destruct (transform_constraints trans _ _) as [tc1|e]; [|discriminate].
  cbv zeta in Hplan.
  destruct (assign_flat (flat_items (Dict.items tc1)) _) as [st|e] eqn:Hloop;
    [|discriminate].
  inversion Hplan; subst.
  enough (Hfin : knobs_apart st) by apply Hfin.
  eapply assign_flat_knobs_apart; [|exact Hloop].
  split; [exact Hagree|]. split; simpl; [intros ? ? ? ? []|constructor].
Qed.

Section Ordered.

(** Comparison of positions: no position is before itself, and being
    before is transitive. *)
Hypothesis num_ltb_irrefl : forall a : num, num_ltb a a = false.
Hypothesis num_ltb_trans :
  forall a b c : num,
    num_ltb a b = true -> num_ltb b c = true -> num_ltb a c = true.

Lemma chosen_upper pool elem v :
  chosen pool elem = Some v ->
  forall u,
    In u pool ->
    num_ltb (el_at (fst u)) (el_at elem) = true ->
    num_ltb (el_at (fst v)) (el_at (fst u)) = false.
Proof.
  unfold chosen.
  destruct (allowed_of pool (el_at elem)) as [|first others] eqn:Hallowed;
    [discriminate|].
  intros [= <-] u Hin Hup.
  apply (max_from_upper num_ltb (fun v => el_at (fst v))
                        num_ltb_irrefl num_ltb_trans).
  assert (Hallowed_u : In u (allowed_of pool (el_at elem)))
    by (apply filter_In; auto).
  rewrite Hallowed in Hallowed_u. exact Hallowed_u.
Qed.

(** C3. Every entry of the list [vary] that [match] builds, and so every
    text of the [vary] argument of the match request, comes from an
    iteration of the greedy loop: the loop stood at a constraint on the
    element [ve_elem] of the axis [ve_axis], with [ve_pool] the working
    pool of that axis at that moment, and the text is what
    [_get_any_elem_param] gives for the candidate [ve_knob]. That
    candidate is in the working pool, its position is strictly less than
    the position of the element of the constraint, and no candidate of the
    working pool strictly upstream of the constraint has a greater
    position. *)
Theorem knob_is_closest_upstream :
  forall (self self' : Matching num)
         (trans_constr : Dict.t (list (Constraint num)))
         (vary : list (VaryEntry num)),
    match_plan self = (Returned (trans_constr, vary), self') ->
    forall (before : list (VaryEntry num)) (entry : VaryEntry num)
           (after : list (VaryEntry num)),
      vary = (before ++ entry :: after)%list ->
      taken_at (fst (copy_allvars (Dict.keys trans_constr) Dict.empty self))
               (flat_items (Dict.items trans_constr)) before entry
      /\ closest_upstream entry.
Proof.
  intros self self' tc vary Hplan before entry after Hsplit.
  destruct (match_plan_trace _ Hplan before entry after Hsplit)
    as [Htaken Hchosen].
  split; [exact Htaken|].
  destruct (chosen_allowed _ _ Hchosen) as [Hin Hup].
  split; [exact Hin|]. split; [exact Hup|].
  intros u Hu Huup. now apply (chosen_upper _ _ Hchosen).
Qed.

End Ordered.

End MatchFacts.

(* ===================================================================== *)
(** * The optics table and the elements of the segment *)
(* ===================================================================== *)

Lemma str_split_length (sep : ascii) (s : string) :
  List.length (str_split sep s) = S (occurrences sep s).
Proof.
  induction s as [|c rest IH]; simpl; auto.
  destruct (Ascii.eqb c sep); simpl.
  - now rewrite IH.
  - destruct (str_split sep rest); simpl in *; [discriminate|exact IH].
Qed.

Lemma str_split_one (sep : ascii) (s only : string) :
  str_split sep s = [only] -> s = only /\ occurrences sep s = 0%nat.
Proof.
  revert only. induction s as [|c rest IH]; simpl; intros only.
  - now intros [= <-].
  - destruct (Ascii.eqb c sep).
    + pose proof (str_split_length sep rest) as Hlen.
      destruct (str_split sep rest); [discriminate|discriminate].
    + destruct (str_split sep rest) as [|f o] eqn:Hs.
      * pose proof (str_split_length sep rest) as Hlen. rewrite Hs in Hlen.
        discriminate.
      * intros [= <- ->]. destruct (IH f eq_refl) as [-> Hocc]. auto.
Qed.

Lemma str_split_two (sep : ascii) (s first second : string) :
  str_split sep s = [first; second] ->
  s = first ++ String sep second
  /\ occurrences sep first = 0%nat /\ occurrences sep second = 0%nat.
Proof.
  revert first. induction s as [|c rest IH]; simpl; intros first.
  - discriminate.
  - destruct (Ascii.eqb c sep) eqn:Hc.
    + apply Ascii.eqb_eq in Hc. subst c.
      intros [= <- Hrest]. apply str_split_one in Hrest.
      destruct Hrest as [-> Hocc]. auto.
    + destruct (str_split sep rest) as [|f o] eqn:Hs; [discriminate|].
      intros [= <- ->]. destruct (IH f eq_refl) as (-> & Hf & Hsec).
      simpl. rewrite Hc. auto.
Qed.

Section SegmentAccessFacts.

Context {num : Type} `{Numeric num} `{UnitTool num} `{Madx num}
        `{Comparable num} `{ElementList num}.

Lemma get_dict_add_unit (k : string) (d : Dict.t num) :
  Dict.get k (dict_add_unit d) = option_map (utool_add_unit k) (Dict.get k d).
Proof. apply (get_map_items utool_add_unit). Qed.

Lemma get_some_key {V} (k : string) (d : Dict.t V) :
  In k (Dict.keys d) <-> exists v, Dict.get k d = Some v.
Proof.
  destruct (Dict.get k d) as [v|] eqn:Hget.
  - split; [eauto|]. intros _.
    destruct (in_dec string_dec k (Dict.keys d)) as [|Hno]; auto.
    apply get_none_not_key in Hno. congruence.
  - split.
    + intros Hin. now apply get_none_not_key in Hget.
    + intros [v Hv]. discriminate.
Qed.

(** The lookups of [twiss], one after the other, on the answer of the
    interpreter. *)
Ltac twiss_lookups :=
  simpl;
  repeat first
    [ rewrite get_set_same
    | rewrite get_set_other by discriminate
    | rewrite get_table_add_unit
    | rewrite get_dict_add_unit
    | match goal with
      | |- context [subscript (option_map _ (Dict.get ?k ?d)) _] =>
          destruct (Dict.get k d) eqn:?; simpl
      end
    | progress (unfold subscript at 1, ret, raise; simpl) ].

(** X1. [Segment.twiss] returns exactly when the interpreter answers
    and the answer has the columns [s], [betx], [bety], [x] and [y] and the
    summary entries [ex] and [ey]. *)
Theorem twiss_returns_iff :
  forall (self : Segment num),
    fst (twiss self) = Returned tt
    <-> exists results,
          madx_twiss (madx_calls (session self)) (_get_twiss_args self)
          = Returned results
          /\ (forall k, In k ["s"; "betx"; "bety"; "x"; "y"] ->
                        In k (Dict.keys (tr_columns results)))
          /\ (forall k, In k ["ex"; "ey"] ->
                        In k (Dict.keys (tr_summary results))).
Proof.
  intros self.
  destruct (madx_twiss (madx_calls (session self)) (_get_twiss_args self))
    as [results|e] eqn:Hengine.
  - assert (Hrun : fst (twiss self) = Returned tt
              <-> (forall k, In k ["s"; "betx"; "bety"; "x"; "y"] ->
                      exists v, Dict.get k (tr_columns results) = Some v)
                  /\ (forall k, In k ["ex"; "ey"] ->
                      exists v, Dict.get k (tr_summary results) = Some v)).
    { unfold twiss, raw_twiss, tw_get, summary_get, tw_set.
      unfold bind, get_state, modify, call_twiss. rewrite Hengine.
      twiss_lookups.
      all: split;
        [ try discriminate; intros _; split; intros k Hk; simpl in Hk;
          repeat (destruct Hk as [<-|Hk]; [eauto|]); destruct Hk
        | intros [Hcols Hsum]; try reflexivity;
          first
            [ destruct (Hcols "s") as [? ?]; [simpl; tauto|]; congruence
            | destruct (Hcols "betx") as [? ?]; [simpl; tauto|]; congruence
            | destruct (Hcols "bety") as [? ?]; [simpl; tauto|]; congruence
            | destruct (Hcols "x") as [? ?]; [simpl; tauto|]; congruence
            | destruct (Hcols "y") as [? ?]; [simpl; tauto|]; congruence
            | destruct (Hsum "ex") as [? ?]; [simpl; tauto|]; congruence
            | destruct (Hsum "ey") as [? ?]; [simpl; tauto|]; congruence ] ]. }
    rewrite Hrun. split.
    + intros [Hcols Hsum]. exists results. split; auto.
      split; intros k Hk; apply get_some_key; auto.
    + intros [results' [[= <-] [Hcols Hsum]]].
      split; intros k Hk; apply get_some_key; auto.
  - split.
    + unfold twiss, raw_twiss, bind, get_state, call_twiss.
      rewrite Hengine. discriminate.
    + intros [results [Hr _]]. discriminate.
Qed.

(** X2. When the interpreter answers but [twiss] raises, the exception
    is [KeyError] and the segment no longer holds the old optics: the
    summary is the one of the answer, and so is every column but the
    derived ones ([s], [envx], [envy], [posx], [posy]); the hook [update]
    has not fired. *)
Theorem twiss_interrupted_after_answer :
  forall (self : Segment num) (results : TwissResult num) (e : Exn),
    madx_twiss (madx_calls (session self)) (_get_twiss_args self)
    = Returned results ->
    fst (twiss self) = Raised e ->
    let self' := snd (twiss self) in
    e = KeyError
    /\ summary self' = dict_add_unit (tr_summary results)
    /\ (forall k, ~ In k ["s"; "envx"; "envy"; "posx"; "posy"] ->
          Dict.get k (tw self')
          = Dict.get k (table_add_unit (tr_columns results)))
    /\ seg_hook self' = seg_hook self.
Proof.
  intros self results e Hengine.
  unfold twiss, raw_twiss, tw_get, summary_get, tw_set.
  unfold bind, get_state, modify, call_twiss. rewrite Hengine.
  twiss_lookups.
  all: intros Hraise; try discriminate; injection Hraise as <-.
  all: repeat split; auto.
  all: intros k Hk; simpl in Hk.
  all: repeat (rewrite get_set_other by (intros <-; tauto)).
  all: reflexivity.
Qed.

Lemma twiss_calls (self : Segment num) :
  madx_calls (session (snd (twiss self)))
  = (madx_calls (session self) ++ [CallTwiss (_get_twiss_args self)])%list.
Proof.
  unfold twiss, raw_twiss, tw_get, summary_get, tw_set.
  unfold bind, get_state, modify, call_twiss.
  destruct (madx_twiss _ _); [|reflexivity].
  twiss_lookups. all: reflexivity.
Qed.

Lemma twiss_frame (self : Segment num) :
  sequence_name (snd (twiss self)) = sequence_name self
  /\ seg_start (snd (twiss self)) = seg_start self
  /\ seg_stop (snd (twiss self)) = seg_stop self
  /\ seg_range (snd (twiss self)) = seg_range self
  /\ _twiss_args (snd (twiss self)) = _twiss_args self
  /\ elements (snd (twiss self)) = elements self.
Proof.
  unfold twiss, raw_twiss, tw_get, summary_get, tw_set.
  unfold bind, get_state, modify, call_twiss.
  destruct (madx_twiss _ _); [|repeat split].
  twiss_lookups. all: repeat split.
Qed.

(** X3. Assigning to [Segment.twiss_args] stores the new initial
    conditions and sends one TWISS request that carries them, stripped of
    their units, with the sequence, the range and the columns of the
    segment. When the interpreter fails on that request, the assignment
    raises, the new initial conditions stay, and table, summary, positions
    and hooks are the old ones. *)
Theorem twiss_args_setter_keeps_new_value :
  forall (self : Segment num) (v : Dict.t num),
    let request :=
      {| ta_sequence := sequence_name self;
         ta_range := seg_range self;
         ta_columns := _columns;
         ta_twiss_init := dict_strip_unit v |} in
    let '(result, self') := twiss_args_setter v self in
    twiss_args self' = v
    /\ madx_calls (session self')
       = (madx_calls (session self) ++ [CallTwiss request])%list
    /\ (forall e,
          madx_twiss (madx_calls (session self)) request = Raised e ->
          result = Raised e
          /\ tw self' = tw self
          /\ summary self' = summary self
          /\ pos self' = pos self
          /\ seg_hook self' = seg_hook self).
Proof.
  intros self v request.
  unfold twiss_args_setter, bind at 1, modify at 1.
  pose proof (twiss_calls (set__twiss_args v self)) as Hcalls.
  pose proof (twiss_frame (set__twiss_args v self)) as (_ & _ & _ & _ & Hargs & _).
  pose proof (@twiss_failure_keeps_cache _ _ _ _ (set__twiss_args v self))
    as Hfail.
  destruct (twiss (set__twiss_args v self)) as [result self'] eqn:Hrun.
  simpl in Hcalls, Hargs.
  split; [exact Hargs|]. split; [exact Hcalls|].
  intros e He. specialize (Hfail e He). cbv beta iota in Hfail.
  destruct Hfail as (Hr & Htw & Hsum & Hpos & Hhook & _).
  repeat split; auto.
Qed.

Lemma find_first {A} (f : A -> bool) (l : list A) :
  match find f l with
  | Some x =>
      exists before after,
        l = (before ++ x :: after)%list
        /\ f x = true
        /\ forall y, In y before -> f y = false
  | None => forall y, In y l -> f y = false
  end.
Proof.
  induction l as [|a rest IH]; simpl.
  - intros y [].
  - destruct (f a) eqn:Ha.
    + exists [], rest. repeat split; auto. intros y [].
    + destruct (find f rest) as [x|].
      * destruct IH as (before & after & -> & Hx & Hb).
        exists (a :: before), after. repeat split; auto.
        intros y [<-|Hy]; auto.
      * intros y [<-|Hy]; auto.
Qed.

(** X4. [element_by_position] returns [None] for the position [None];
    else the first element of the sequence, in order, with
    [at <= pos <= at + l], so that at a position shared by two elements the
    earlier one is returned; and [None] when no element is such. *)
Theorem element_by_position_first_hit :
  forall (self : Segment num) (pos : num),
    element_by_position None self = None
    /\ match element_by_position (Some pos) self with
       | Some elem =>
           exists before after,
             elements self = (before ++ elem :: after)%list
             /\ lies_within pos elem = true
             /\ forall other, In other before -> lies_within pos other = false
       | None =>
           forall elem, In elem (elements self) -> lies_within pos elem = false
       end.
Proof.
  intros self pos. split; [reflexivity|].
  exact (find_first (lies_within pos) (elements self)).
Qed.

(** X5. [get_twiss] raises what [get_element_info] raises; for an
    element that it finds: [None] exactly when the index lies outside of
    the segment; else the entry of the column at the offset
    [index - start.index], which is not negative, so that the column is
    never read from its end; [KeyError] when the table has no such column,
    [IndexError] when the column is too short. *)
Theorem get_twiss_row_of_element :
  forall (self : Segment num) (elem : ElementRef num) (name : string),
    let first := ei_index (seg_start self) in
    let last := ei_index (seg_stop self) in
    match get_element_info elem self with
    | Err e => get_twiss elem name self = Err e
    | Ok info =>
        let index := ei_index info in
        match get_twiss elem name self with
        | Ok None => (index < first \/ last < index)%Z
        | Ok (Some value) =>
            (first <= index <= last)%Z
            /\ exists column,
                 Dict.get name (tw self) = Some column
                 /\ nth_error column (Z.to_nat (index - first)) = Some value
        | Err e =>
            (first <= index <= last)%Z
            /\ ((e = Exception KeyError /\ Dict.get name (tw self) = None)
                \/ (e = IndexError
                    /\ exists column,
                         Dict.get name (tw self) = Some column
                         /\ (Z.of_nat (List.length column)
                             <= index - first)%Z))
        end
    end.
Proof.
  intros self elem name first last.
  destruct (get_element_info elem self) as [info|e] eqn:Hinfo;
    [|unfold get_twiss; now rewrite Hinfo].
  intros index. unfold get_twiss. rewrite Hinfo.
  unfold contains. fold first last index.
  destruct (Z.leb_spec first index) as [Hlo|Hlo]; simpl; [|lia].
  destruct (Z.geb_spec last index) as [Hhi|Hhi]; simpl; [|lia].
  assert (Hrange : (first <= index <= last)%Z) by lia.
  destruct (Dict.get name (tw self)) as [column|] eqn:Hcol.
  - unfold getitem.
    destruct (Z.ltb_spec (index - first) (- Z.of_nat (List.length column)));
      [lia|].
    destruct (Z.leb_spec (Z.of_nat (List.length column)) (index - first));
      simpl.
    + split; auto. right. split; auto. exists column. auto.
    + destruct (Z.ltb_spec (index - first) 0); [lia|].
      destruct (nth_error column (Z.to_nat (index - first))) as [value|]
        eqn:Hnth.
      * split; auto. exists column. auto.
      * apply nth_error_None in Hnth. lia.
  - split; auto.
Qed.

(** X6. [parse_range] cuts a range text at every [/]: a text without
    or with several [/] raises [ValueError] before any element is looked
    up; a text with one [/] is the start name, [/] and the stop name,
    neither holding a [/], and the result is the [ElementInfo] of the two
    names, the start looked up first. *)
Theorem parse_range_splits_at_slash :
  forall (self : Segment num) (text : string),
    (occurrences "/" text <> 1%nat ->
     parse_range (RangeText text) self = Err (Exception ValueError))
    /\ (occurrences "/" text = 1%nat ->
        exists start_name stop_name,
          text = start_name ++ "/" ++ stop_name
          /\ occurrences "/" start_name = 0%nat
          /\ occurrences "/" stop_name = 0%nat
          /\ parse_range (RangeText text) self
             = match get_element_info (RefKey (ByName start_name)) self with
               | Err e => Err e
               | Ok start =>
                   match get_element_info (RefKey (ByName stop_name))
                                          self with
                   | Err e => Err e
                   | Ok stop => Ok (start, stop)
                   end
               end).
Proof.
  intros self text.
  pose proof (str_split_length "/" text) as Hlen.
  split.
  - intros Hcount. unfold parse_range.
    destruct (str_split "/" text) as [|a [|b [|c rest]]] eqn:Hsplit;
      simpl in *; try reflexivity. lia.
  - intros Hcount. unfold parse_range.
    destruct (str_split "/" text) as [|a [|b [|c rest]]] eqn:Hsplit;
      simpl in Hlen; try lia.
    destruct (str_split_two _ _ Hsplit) as (Htext & Ha & Hb).
    exists a, b. repeat split; auto.
Qed.

End SegmentAccessFacts.

(* ===================================================================== *)
(** * What a matching session goes through *)
(* ===================================================================== *)

Section LifecycleFacts.

Context {num : Type} `{Numeric num} `{UnitTool num} `{Madx num}.

Lemma allvars_unfold axis (self : Matching num) :
  _allvars axis self
  = match Dict.get axis (_variable_parameters self) with
    | Some allvars => (allvars, self)
    | None =>
        (fresh_candidates axis self,
         set_variable_parameters
           (Dict.set axis (fresh_candidates axis self)
                     (_variable_parameters self)) self)
    end.
Proof. reflexivity. Qed.

Lemma allvars_rules axis (self : Matching num) :
  _elements (snd (_allvars axis self)) = _elements self
  /\ _rules (snd (_allvars axis self)) = _rules self.
Proof.
  rewrite allvars_unfold.
  destruct (Dict.get axis (_variable_parameters self)); simpl; auto.
Qed.

Lemma fresh_candidates_ext axis (self self' : Matching num) :
  _elements self' = _elements self -> _rules self' = _rules self ->
  fresh_candidates axis self' = fresh_candidates axis self.
Proof. unfold fresh_candidates. now intros -> ->. Qed.

Lemma allvars_sound axis (self : Matching num) :
  cache_sound self ->
  fst (_allvars axis self) = fresh_candidates axis self
  /\ cache_sound (snd (_allvars axis self)).
Proof.
  intros Hsound. rewrite allvars_unfold.
  destruct (Dict.get axis (_variable_parameters self)) as [pool|] eqn:Hget;
    simpl.
  - split; auto.
  - split; auto. intros axis' pool'. simpl.
    change (fresh_candidates axis'
              (set_variable_parameters
                 (Dict.set axis (fresh_candidates axis self)
                           (_variable_parameters self)) self))
      with (fresh_candidates axis' self).
    destruct (string_dec axis axis') as [<-|Hne].
    + rewrite get_set_same. now intros [= <-].
    + rewrite get_set_other by assumption. apply Hsound.
Qed.

Lemma copy_allvars_rules axes :
  forall acc (self : Matching num),
    _elements (snd (copy_allvars axes acc self)) = _elements self
    /\ _rules (snd (copy_allvars axes acc self)) = _rules self.
Proof.
  induction axes as [|axis rest IH]; intros acc self; simpl; auto.
  destruct (_allvars axis self) as [vars self1] eqn:Hvars.
  destruct (allvars_rules axis self) as (He & Hr).
  rewrite Hvars in He, Hr. simpl in He, Hr.
  destruct (IH (Dict.set axis vars acc) self1) as (He' & Hr').
  split; congruence.
Qed.

Lemma in_set {V} (k k' : string) (v v' : V) (d : Dict.t V) :
  In (k', v') (Dict.set k v d) -> (k', v') = (k, v) \/ In (k', v') d.
Proof.
  induction d as [|[k0 v0] rest IH]; simpl.
  - intros [Heq|[]]. left. congruence.
  - destruct (String.eqb k k0); simpl.
    + intros [Heq|Hin]; [left; congruence | right; right; exact Hin].
    + intros [Heq|Hin]; [right; left; exact Heq|].
      destruct (IH Hin); auto.
Qed.

Lemma copy_allvars_sound axes :
  forall acc (self : Matching num),
    cache_sound self ->
    (forall axis pool, In (axis, pool) acc ->
                       pool = fresh_candidates axis self) ->
    cache_sound (snd (copy_allvars axes acc self))
    /\ forall axis pool,
         In (axis, pool) (fst (copy_allvars axes acc self)) ->
         pool = fresh_candidates axis self.
Proof.
  induction axes as [|a rest IH]; intros acc self Hsound Hacc; simpl; auto.
  destruct (_allvars a self) as [vars self1] eqn:Hvars.
  destruct (allvars_sound a Hsound) as (Hfresh & Hsound1).
  destruct (allvars_rules a self) as (He & Hr).
  rewrite Hvars in Hfresh, Hsound1, He, Hr. simpl in Hfresh, Hsound1, He, Hr.
  assert (Hext : forall axis, fresh_candidates axis self1
                              = fresh_candidates axis self)
    by (intros axis; now apply fresh_candidates_ext).
  destruct (IH (Dict.set a vars acc) self1 Hsound1) as (Hs & Hp).
  - intros axis pool Hin. rewrite Hext.
    apply in_set in Hin. destruct Hin as [[= -> ->]|Hin]; auto.
  - split; auto. intros axis pool Hin. rewrite <- Hext. now apply Hp.
Qed.

Lemma in_fresh_candidates axis (self : Matching num) elem params :
  In (elem, params) (fresh_candidates axis self)
  <-> In elem (_elements self)
      /\ exists spec, Dict.get axis (_rules self) = Some spec
                      /\ Dict.get (el_type elem) spec = Some params.
Proof.
  unfold fresh_candidates, Dict.get_default. rewrite in_flat_map.
  split.
  - intros [e [Hin Hc]].
    destruct (Dict.get axis (_rules self)) as [spec|] eqn:Hspec.
    + destruct (Dict.get (el_type e) spec) as [p|] eqn:Hp; [|destruct Hc].
      destruct Hc as [[= -> ->]|[]]. split; auto. exists spec. auto.
    + simpl in Hc. destruct Hc.
  - intros [Hin [spec [Hspec Hp]]]. exists elem. split; auto.
    rewrite Hspec, Hp. now left.
Qed.

Lemma fresh_candidates_nodup axis (self : Matching num) :
  NoDup (_elements self) -> NoDup (fresh_candidates axis self).
Proof.
  unfold fresh_candidates.
  generalize (Dict.get_default axis Dict.empty (_rules self)) as spec.
  intros spec. induction (_elements self) as [|e rest IH]; simpl.
  - constructor.
  - intros Hnd. inversion Hnd as [|e' l Hnotin Hnd']; subst.
    destruct (Dict.get (el_type e) spec) as [p|]; simpl; auto.
    constructor; auto. rewrite in_flat_map.
    intros [e' [Hin Hc]].
    destruct (Dict.get (el_type e') spec); [|destruct Hc].
    destruct Hc as [[= -> _]|[]]. contradiction.
Qed.

(** ** What [twiss] and [match] leave alone *)

(** The object that the first part of [match] leaves. *)
Lemma match_plan_state (self : Matching num) :
  constraints (snd (match_plan self)) = constraints self
  /\ segment (snd (match_plan self)) = segment self
  /\ hook (snd (match_plan self)) = hook self
  /\ _elements (snd (match_plan self)) = _elements self
  /\ _rules (snd (match_plan self)) = _rules self
  /\ (cache_sound self -> cache_sound (snd (match_plan self))).
Proof.
  rewrite match_plan_run.
  destruct (MatchTransform_init (segment self)) as [trans|e]; simpl; auto 10.
  destruct (transform_constraints trans _ _) as [tc|e]; simpl; auto 10.
  destruct (copy_allvars_frame (Dict.keys tc) Dict.empty self)
    as (Hc & Hs & Hh).
  destruct (copy_allvars_rules (Dict.keys tc) Dict.empty self) as (He & Hr).
  assert (Hsound : cache_sound self ->
            cache_sound (snd (copy_allvars (Dict.keys tc) Dict.empty self))).
  { intros Hsound. apply copy_allvars_sound; auto. intros ? ? []. }
  destruct (assign_flat _ _); simpl; auto 10.
Qed.

Lemma match_state (self : Matching num) :
  constraints (snd (match_ self)) = constraints self
  /\ hook (snd (match_ self)) = hook self
  /\ _elements (snd (match_ self)) = _elements self
  /\ _rules (snd (match_ self)) = _rules self
  /\ (cache_sound self -> cache_sound (snd (match_ self))).
Proof.
  rewrite match_run.
  destruct (match_plan_state self) as (Hc & Hs & Hh & He & Hr & Hsound).
  destruct (match_plan self) as [[plan|e] self1]; simpl in *; auto 10.
  unfold call_match.
  destruct (madx_match _ _); simpl; auto 10.
  unfold on_segment.
  destruct (twiss _) as [r seg']; simpl; auto 10.
Qed.

(** ** The states that the methods lead to *)

Lemma remove_constraint_rest axis elem (self : Matching num) :
  _elements (remove_constraint axis elem self) = _elements self
  /\ _rules (remove_constraint axis elem self) = _rules self
  /\ _variable_parameters (remove_constraint axis elem self)
     = _variable_parameters self
  /\ segment (remove_constraint axis elem self) = segment self.
Proof.
  unfold remove_constraint.
  destruct (Dict.get axis (constraints self)) as [orig|]; auto.
  change (filter _ orig) with (filter (other_name elem) orig).
  destruct (filter (other_name elem) orig); destruct (Nat.ltb _ _);
    simpl; auto.
Qed.

Lemma add_constraint_rest axis elem v (self : Matching num) :
  _elements (add_constraint axis elem v self) = _elements self
  /\ _rules (add_constraint axis elem v self) = _rules self
  /\ _variable_parameters (add_constraint axis elem v self)
     = _variable_parameters self
  /\ segment (add_constraint axis elem v self) = segment self.
Proof.
  unfold add_constraint. simpl. apply remove_constraint_rest.
Qed.

Lemma cache_sound_ext (self self' : Matching num) :
  _elements self' = _elements self -> _rules self' = _rules self ->
  _variable_parameters self' = _variable_parameters self ->
  cache_sound self -> cache_sound self'.
Proof.
  intros He Hr Hv Hsound axis pool. rewrite Hv.
  rewrite (fresh_candidates_ext axis self self' He Hr). apply Hsound.
Qed.

Lemma gconstr_add_constraint_other axis axis' elem v (self : Matching num) :
  axis <> axis' ->
  _gconstr axis' (add_constraint axis elem v self) = _gconstr axis' self.
Proof.
  intros Hne. rewrite <- (gconstr_remove_constraint_other elem self Hne).
  unfold add_constraint, _gconstr, Dict.get_default.
  rewrite constraints_fire_hook. simpl.
  now rewrite get_dict_append_other.
Qed.

Lemma filter_names_nodup elem (l : list (Constraint num)) :
  NoDup (map (fun c => el_name (fst c)) l) ->
  NoDup (map (fun c => el_name (fst c)) (filter (other_name elem) l)).
Proof.
  induction l as [|c rest IH]; simpl; auto.
  intros Hnd. inversion Hnd as [|n l Hnotin Hnd']; subst.
  destruct (other_name elem c); simpl; auto.
  constructor; auto. intros Hin. apply Hnotin.
  apply in_map_iff in Hin. destruct Hin as [c' [Hname Hc']].
  apply filter_In in Hc'. apply in_map_iff. exists c'. tauto.
Qed.

Lemma filter_names_without elem (l : list (Constraint num)) :
  ~ In (el_name elem)
       (map (fun c => el_name (fst c)) (filter (other_name elem) l)).
Proof.
  intros Hin. apply in_map_iff in Hin. destruct Hin as [c [Hname Hc]].
  apply filter_In in Hc. destruct Hc as [_ Hc].
  unfold other_name in Hc. rewrite Hname, String.eqb_refl in Hc. discriminate.
Qed.

Lemma constrained_names_remove axis axis' elem (self : Matching num) :
  NoDup (constrained_names axis' self) ->
  NoDup (constrained_names axis' (remove_constraint axis elem self)).
Proof.
  unfold constrained_names. intros Hnd.
  destruct (string_dec axis axis') as [<-|Hne].
  - rewrite gconstr_remove_constraint. now apply filter_names_nodup.
  - now rewrite gconstr_remove_constraint_other.
Qed.

Lemma constrained_names_add axis axis' elem v (self : Matching num) :
  NoDup (constrained_names axis' self) ->
  NoDup (constrained_names axis' (add_constraint axis elem v self)).
Proof.
  unfold constrained_names. intros Hnd.
  destruct (string_dec axis axis') as [<-|Hne].
  - rewrite gconstr_add_constraint, map_app. simpl.
    apply NoDup_app.
    + now apply filter_names_nodup.
    + constructor; [intros []|constructor].
    + intros name Hin [<-|[]]. now apply filter_names_without in Hin.
  - now rewrite gconstr_add_constraint_other.
Qed.

(** The invariant of a [Matching] object. *)
Lemma apply_edit_invariant (self : Matching num) (edit : Edit num) :
  no_empty_axis self /\ (forall axis, NoDup (constrained_names axis self))
  /\ cache_sound self ->
  no_empty_axis (apply_edit self edit)
  /\ (forall axis, NoDup (constrained_names axis (apply_edit self edit)))
  /\ cache_sound (apply_edit self edit)
  /\ _elements (apply_edit self edit) = _elements self
  /\ _rules (apply_edit self edit) = _rules self.
Proof.
  intros (Hwf & Hnames & Hsound).
  destruct edit as [axis elem v|axis elem| | |]; simpl.
  - destruct (add_constraint_rest axis elem v self) as (He & Hr & Hv & _).
    repeat split; auto.
    + now apply no_empty_axis_add.
    + intros axis'. now apply constrained_names_add.
    + eapply cache_sound_ext; eauto.
  - destruct (remove_constraint_rest axis elem self) as (He & Hr & Hv & _).
    repeat split; auto.
    + now apply no_empty_axis_remove.
    + intros axis'. now apply constrained_names_remove.
    + eapply cache_sound_ext; eauto.
  - repeat split; auto.
    + apply no_empty_axis_clear.
    + intros axis'. constructor.
  - repeat split; auto.
    + intros axis l. discriminate.
    + intros axis'. constructor.
  - destruct (match_state self) as (Hc & Hh & He & Hr & Hs).
    repeat split; auto.
    + intros axis l. rewrite Hc. apply Hwf.
    + intros axis. unfold constrained_names, _gconstr. rewrite Hc.
      apply Hnames.
Qed.

Lemma apply_edits_invariant (edits : list (Edit num)) :
  forall (self : Matching num),
    no_empty_axis self
    /\ (forall axis, NoDup (constrained_names axis self))
    /\ cache_sound self ->
    no_empty_axis (apply_edits edits self)
    /\ (forall axis, NoDup (constrained_names axis (apply_edits edits self)))
    /\ cache_sound (apply_edits edits self)
    /\ _elements (apply_edits edits self) = _elements self
    /\ _rules (apply_edits edits self) = _rules self.
Proof.
  induction edits as [|edit rest IH]; intros self Hinv; simpl.
  - tauto.
  - destruct (apply_edit_invariant edit Hinv) as (F1 & F2 & F3 & F4 & F5).
    destruct (IH (apply_edit self edit)) as (G1 & G2 & G3 & G4 & G5); auto.
    repeat split; auto; congruence.
Qed.

(** X7. Whatever sequence of [add_constraint], [remove_constraint],
    [clear_constraints], [stop] and [match] calls a [Matching] object has
    gone through since [__init__]: no axis of its constraints mapping is
    mapped to the empty list; on every axis the names of the constrained
    elements are pairwise distinct; every cached candidate list is the one
    that [_allvars] would compute now; and [_elements] and [_rules] are
    those given at creation. *)
Theorem matching_invariants :
  forall (segment : Segment num) (rules : Dict.t (Dict.t (list string)))
         (edits : list (Edit num)),
    let self := apply_edits edits (Matching_init segment rules) in
    no_empty_axis self
    /\ (forall axis, NoDup (constrained_names axis self))
    /\ cache_sound self
    /\ _elements self = elements segment
    /\ _rules self = rules.
Proof.
  intros segment rules edits.
  apply apply_edits_invariant. repeat split.
  - apply no_empty_axis_init.
  - intros axis. constructor.
  - intros axis pool. discriminate.
Qed.

Lemma filter_names_at_most_one (elem : Element num)
    (l : list (Constraint num)) :
  NoDup (map (fun c => el_name (fst c)) l) ->
  (List.length
     (filter (fun c => if Element_eq_dec (fst c) elem then true else false)
             l) <= 1)%nat.
Proof.
  induction l as [|c rest IH]; simpl; auto.
  intros Hnd. inversion Hnd as [|n l Hnotin Hnd']; subst.
  destruct (Element_eq_dec (fst c) elem) as [Heq|Hne]; simpl; auto.
  assert (Hnone : filter (fun c0 => if Element_eq_dec (fst c0) elem
                                    then true else false) rest = []).
  { apply filter_none. intros c' Hc'.
    destruct (Element_eq_dec (fst c') elem) as [Heq'|]; auto.
    exfalso. apply Hnotin. apply in_map_iff. exists c'. split; auto.
    congruence. }
  rewrite Hnone. simpl. lia.
Qed.

(** X8. In every state reached from [__init__] through these calls,
    [find_constraint axis elem] returns at most one constraint, and an
    axis holds at most one constraint for the elements of a given name. *)
Theorem at_most_one_constraint_per_element :
  forall (segment : Segment num) (rules : Dict.t (Dict.t (list string)))
         (edits : list (Edit num)) (axis : string) (elem : Element num),
    let self := apply_edits edits (Matching_init segment rules) in
    (List.length (find_constraint axis elem self) <= 1)%nat
    /\ (List.length
          (filter (fun c => String.eqb (el_name (fst c)) (el_name elem))
                  (_gconstr axis self)) <= 1)%nat.
Proof.
  intros segment rules edits axis elem self.
  assert (Hnames : forall a, NoDup (constrained_names a self)).
  { apply apply_edits_invariant. repeat split.
    - apply no_empty_axis_init.
    - intros a. constructor.
    - intros a pool. discriminate. }
  specialize (Hnames axis).
  unfold constrained_names in Hnames. split.
  - rewrite find_constraint_filter. now apply filter_names_at_most_one.
  - induction (_gconstr axis self) as [|c rest IH]; simpl; auto.
    inversion Hnames as [|n l Hnotin Hnd']; subst.
    destruct (String.eqb (el_name (fst c)) (el_name elem)) eqn:Hc; auto.
    assert (Hnone : filter (fun c0 => String.eqb (el_name (fst c0))
                                                 (el_name elem)) rest = []).
    { apply filter_none. intros c' Hc'.
      destruct (String.eqb (el_name (fst c')) (el_name elem)) eqn:Hc''; auto.
      exfalso. apply Hnotin. apply in_map_iff. exists c'. split; auto.
      apply String.eqb_eq in Hc, Hc''. congruence. }
    rewrite Hnone. simpl. lia.
Qed.

(** ** One knob per element *)

Lemma copy_allvars_agree (self : Matching num) axes :
  NoDup (_elements self) -> rules_coherent (_rules self) ->
  cache_sound self ->
  pools_agree (fst (copy_allvars axes Dict.empty self)).
Proof.
  intros Hnd Hrules Hsound.
  destruct (copy_allvars_sound axes Dict.empty Hsound) as [_ Hpools].
  { intros ? ? []. }
  split.
  - intros axis pool Hin. rewrite (Hpools _ _ Hin).
    now apply fresh_candidates_nodup.
  - intros axis1 pool1 axis2 pool2 [e1 p1] [e2 p2] Hin1 Hu1 Hin2 Hu2 Heq.
    simpl in Heq. subst e2.
    rewrite (Hpools _ _ Hin1) in Hu1. rewrite (Hpools _ _ Hin2) in Hu2.
    apply in_fresh_candidates in Hu1, Hu2.
    destruct Hu1 as [_ [spec1 [Hs1 Hp1]]].
    destruct Hu2 as [_ [spec2 [Hs2 Hp2]]].
    f_equal. exact (Hrules _ _ _ _ _ _ _ Hs1 Hs2 Hp1 Hp2).
Qed.

(** X9. When the sequence lists no element twice, the rules give an
    element type the same parameter names on every axis, and the cached
    candidate lists are the computed ones, the list [vary] that [match]
    builds has at most one knob per element: every entry was appended by
    an iteration of the greedy loop, its text being what
    [_get_any_elem_param] gives for the candidate taken from the working
    pool, and no two entries were taken from candidates of the same
    element. *)
Theorem one_knob_per_element :
  forall (self self' : Matching num)
         (trans_constr : Dict.t (list (Constraint num)))
         (vary : list (VaryEntry num)),
    NoDup (_elements self) ->
    rules_coherent (_rules self) ->
    cache_sound self ->
    match_plan self = (Returned (trans_constr, vary), self') ->
    NoDup (map knob_element vary)
    /\ forall (before : list (VaryEntry num)) (entry : VaryEntry num)
              (after : list (VaryEntry num)),
         vary = (before ++ entry :: after)%list ->
         taken_at (fst (copy_allvars (Dict.keys trans_constr) Dict.empty
                                     self))
                  (flat_items (Dict.items trans_constr)) before entry.
Proof.
  intros self self' tc vary Hnd Hrules Hsound Hplan. split.
  - apply (one_knob_per_element_when_pools_agree _ Hplan).
    now apply copy_allvars_agree.
  - intros before entry after Hsplit.
    apply (match_plan_trace _ Hplan before entry after Hsplit).
Qed.

(** ** The requests that [match] sends *)

Lemma match_args_segment (self self1 : Matching num) tc vary :
  segment self1 = segment self ->
  match_args self1 tc vary = match_args self tc vary.
Proof. unfold match_args. now intros ->. Qed.

(** X10. When the first part of [match] goes through and the interpreter
    rejects the match request, [match] raises what the interpreter raised;
    the request is on record, no TWISS request follows, and the table, the
    summary, the positions and the hooks of the segment as well as the
    constraints are as before. *)
Theorem match_rejected_by_interpreter :
  forall (self self1 : Matching num)
         (plan : Dict.t (list (Constraint num)) * list (VaryEntry num))
         (e : Exn),
    match_plan self = (Returned plan, self1) ->
    madx_match (madx_calls (session (segment self)))
               (match_args self (fst plan) (snd plan)) = Raised e ->
    let '(result, self') := match_ self in
    result = Raised e
    /\ madx_calls (session (segment self'))
       = (madx_calls (session (segment self))
          ++ [CallMatch (match_args self (fst plan) (snd plan))])%list
    /\ tw (segment self') = tw (segment self)
    /\ summary (segment self') = summary (segment self)
    /\ pos (segment self') = pos (segment self)
    /\ seg_hook (segment self') = seg_hook (segment self)
    /\ constraints self' = constraints self.
Proof.
  intros self self1 plan e Hplan Hfail.
  destruct (match_plan_state self) as (Hc & Hs & _).
  rewrite match_run, Hplan. rewrite Hplan in Hc, Hs. simpl in Hc, Hs.
  rewrite (@match_args_segment self self1 (fst plan) (snd plan) Hs).
  unfold call_match. cbv beta. rewrite Hs, Hfail. simpl. repeat split; auto.
Qed.

(** X11. When the first part of [match] goes through and the interpreter
    accepts the match request, [match] ends as [Segment.twiss] does on the
    segment with that request on record: two requests are sent, the match
    and then one TWISS, both for the same sequence and with the same
    initial conditions; the constraints are kept. *)
Theorem match_then_twiss :
  forall (self self1 : Matching num)
         (plan : Dict.t (list (Constraint num)) * list (VaryEntry num)),
    match_plan self = (Returned plan, self1) ->
    madx_match (madx_calls (session (segment self)))
               (match_args self (fst plan) (snd plan)) = Returned tt ->
    let args := match_args self (fst plan) (snd plan) in
    let asked :=
      set_session
        {| madx_calls := (madx_calls (session (segment self))
                          ++ [CallMatch args])%list |} (segment self) in
    let '(result, self') := match_ self in
    (result, segment self') = twiss asked
    /\ madx_calls (session (segment self'))
       = (madx_calls (session (segment self))
          ++ [CallMatch args; CallTwiss (_get_twiss_args (segment self))])%list
    /\ ma_sequence args = ta_sequence (_get_twiss_args (segment self))
    /\ ma_twiss_init args = ta_twiss_init (_get_twiss_args (segment self))
    /\ constraints self' = constraints self.
Proof.
  intros self self1 plan Hplan Hok args asked.
  destruct (match_plan_state self) as (Hc & Hs & _).
  rewrite match_run, Hplan. rewrite Hplan in Hc, Hs. simpl in Hc, Hs.
  rewrite (@match_args_segment self self1 (fst plan) (snd plan) Hs).
  unfold call_match. cbv beta. rewrite Hs, Hok. fold args. fold asked.
  unfold on_segment. simpl.
  pose proof (twiss_calls asked) as Hcalls.
  destruct (twiss asked) as [r seg'] eqn:Htwiss. simpl in *.
  repeat split; auto.
  rewrite Hcalls. unfold asked. simpl. now rewrite <- app_assoc.
Qed.

(** ** The size of the request *)

Lemma flat_items_length_extend {V} (k : string) (item : V) :
  forall (d : Dict.t (list V)) l,
    Dict.get k d = Some l ->
    List.length (flat_items (Dict.set k (l ++ [item])%list d))
    = S (List.length (flat_items d)).
Proof.
  induction d as [|[k' l'] rest IH]; intros l; simpl; [discriminate|].
  destruct (String.eqb k k') eqn:E.
  - intros [= ->]. unfold flat_items. simpl.
    rewrite !length_app, !length_map, length_app. simpl. lia.
  - intros Hget. unfold flat_items in *. simpl.
    rewrite !length_app, (IH l Hget). lia.
Qed.

Lemma flat_items_length_new {V} (k : string) (item : V) :
  forall (d : Dict.t (list V)),
    Dict.get k d = None ->
    List.length (flat_items (Dict.set k [item] d))
    = S (List.length (flat_items d)).
Proof.
  induction d as [|[k' l'] rest IH]; simpl; auto.
  destruct (String.eqb k k') eqn:E; [discriminate|].
  intros Hget. unfold flat_items in *. simpl.
  rewrite !length_app, (IH Hget). lia.
Qed.

Lemma flat_items_length_append {V} (k : string) (item : V)
    (d : Dict.t (list V)) :
  List.length (flat_items (dict_append k item d))
  = S (List.length (flat_items d)).
Proof.
  unfold dict_append. destruct (Dict.get k d) as [l|] eqn:Hget.
  - now apply flat_items_length_extend.
  - now apply flat_items_length_new.
Qed.

Lemma transform_axis_length trans axis constr :
  forall acc acc',
    transform_axis trans axis constr acc = Returned acc' ->
    List.length (flat_items acc')
    = (List.length (flat_items acc) + List.length constr)%nat.
Proof.
  induction constr as [|[elem value] rest IH]; intros acc acc'; simpl.
  - intros [= <-]. lia.
  - destruct (getattr_trans axis) as [method|]; [|discriminate].
    destruct (method trans value) as [trans_name trans_value].
    intros Hrest. rewrite (IH _ _ Hrest), flat_items_length_append. lia.
Qed.

Lemma transform_constraints_length trans items :
  forall acc acc',
    transform_constraints trans items acc = Returned acc' ->
    List.length (flat_items acc')
    = (List.length (flat_items acc) + List.length (flat_items items))%nat.
Proof.
  induction items as [|[axis constr] rest IH]; intros acc acc'; simpl.
  - intros [= <-]. change (flat_items (@nil (string * list (Constraint num)))) with (@nil (string * Constraint num)). simpl. lia.
  - destruct (transform_axis trans axis constr acc) as [acc1|e] eqn:Haxis;
      [|discriminate].
    intros Hrest.
    rewrite (IH _ _ Hrest), (transform_axis_length _ _ _ _ Haxis).
    change (flat_items ((axis, constr) :: rest))
      with (map (pair axis) constr ++ flat_items rest)%list.
    rewrite length_app, length_map. lia.
Qed.

Lemma assign_knob_length axis elem st st' :
  assign_knob axis elem st = Returned st' ->
  (List.length (snd st') <= S (List.length (snd st)))%nat.
Proof.
  destruct st as [allvars vary]. unfold assign_knob.
  destruct (Dict.get axis allvars) as [pool|]; [|discriminate].
  destruct (allowed_of pool (el_at elem)) as [|first others].
  - intros [= <-]. simpl. lia.
  - destruct (_get_any_elem_param _ _) as [[expr|]|e]; [| |discriminate].
    + intros [= <-]. simpl. rewrite length_app. simpl. lia.
    + destruct (list_remove _ _ pool); [|discriminate].
      intros [= <-]. simpl. lia.
Qed.

Lemma assign_flat_length l :
  forall st st',
    assign_flat l st = Returned st' ->
    (List.length (snd st') <= List.length (snd st) + List.length l)%nat.
Proof.
  induction l as [|[axis [elem target]] rest IH]; intros st st';
    cbn [assign_flat].
  - intros [= <-]. lia.
  - destruct (assign_knob axis elem st) as [st1|e] eqn:Hstep; [|discriminate].
    intros Hrest. apply IH in Hrest. apply assign_knob_length in Hstep.
    simpl. lia.
Qed.

(** X12. The match request carries exactly one constraint entry per
    stored constraint, over all axes, and at most as many knobs as there
    are constraints. *)
Theorem match_request_sizes :
  forall (self self1 : Matching num)
         (trans_constr : Dict.t (list (Constraint num)))
         (vary : list (VaryEntry num)),
    match_plan self = (Returned (trans_constr, vary), self1) ->
    let args := match_args self1 trans_constr vary in
    let stored := List.length (flat_items (Dict.items (constraints self))) in
    List.length (ma_constraints args) = stored
    /\ (List.length (ma_vary args) <= stored)%nat.
Proof.
  intros self self1 tc vary Hplan args stored.
  rewrite match_plan_run in Hplan.
  destruct (MatchTransform_init (segment self)) as [trans|e]; [|discriminate].
  destruct (transform_constraints trans _ _) as [tc1|e] eqn:Htc;
    [|discriminate].
  cbv zeta in Hplan.
  destruct (assign_flat _ _) as [st|e] eqn:Hloop; [|discriminate].
  inversion Hplan; subst; clear Hplan.
  apply transform_constraints_length in Htc.
  apply assign_flat_length in Hloop. simpl in Hloop.
  unfold args, match_args. cbn [ma_constraints ma_vary].
  rewrite madx_constraints_flat, !length_map.
  unfold Dict.items in *. unfold stored.
  change (flat_items (@Dict.empty (list (Constraint num)))) with
    (@nil (string * Constraint num)) in Htc.
  simpl in Htc. split; lia.
Qed.

(** X13. Whatever its outcome, [match] leaves the constraints, the fired
    hooks, the elements and the rules of the [Matching] object as they
    were, and of its segment the elements, the initial conditions
    [twiss_args], the sequence name, the range and its end points. *)
Theorem match_changes_only_optics :
  forall (self : Matching num),
    let self' := snd (match_ self) in
    constraints self' = constraints self
    /\ hook self' = hook self
    /\ _elements self' = _elements self
    /\ _rules self' = _rules self
    /\ elements (segment self') = elements (segment self)
    /\ _twiss_args (segment self') = _twiss_args (segment self)
    /\ sequence_name (segment self') = sequence_name (segment self)
    /\ seg_range (segment self') = seg_range (segment self)
    /\ seg_start (segment self') = seg_start (segment self)
    /\ seg_stop (segment self') = seg_stop (segment self).
Proof.
  intros self self'.
  destruct (match_state self) as (Hc & Hh & He & Hr & _).
  fold self' in Hc, Hh, He, Hr.
  repeat (split; [assumption|]).
  unfold self'. rewrite match_run.
  destruct (match_plan_state self) as (_ & Hs & _).
  destruct (match_plan self) as [[plan|e] self1]; simpl in Hs |- *;
    [|rewrite Hs; repeat split].
  unfold call_match. cbv beta. rewrite Hs.
  destruct (madx_match _ _); simpl; [|repeat split].
  unfold on_segment.
  match goal with
  | |- context [twiss ?seg] =>
      destruct (twiss_frame seg) as (F1 & F2 & F3 & F4 & F5 & F6);
      destruct (twiss seg) as [r seg']
  end.
  simpl in *. repeat split; assumption.
Qed.

(** X14. [_get_any_elem_param] goes by the first parameter name of the
    list that is modifiable on the element, looked up among all keys of
    the element ([l] and [at] as well as the further parameters): present,
    with an expression or with a value that is not zero. It returns the
    expression of that parameter if it has one, else the text
    [name->param]. It raises [ValueError] when no name of the list is
    modifiable, and nothing else. So a rule that names [l] yields the knob
    [name->l] on an element of a length that is not zero. *)
Theorem get_any_elem_param_first_modifiable :
  forall (elem : Element num) (params : list string),
    match _get_any_elem_param elem params with
    | Returned r =>
        exists before param after,
          params = (before ++ param :: after)%list
          /\ (forall q, In q before -> ~ modifiable elem q)
          /\ modifiable elem param
          /\ r = Some (knob_text elem param)
    | Raised e =>
        e = ValueError /\ forall q, In q params -> ~ modifiable elem q
    end
    /\ (strip_unit (el_l elem) <> num_zero ->
        _get_any_elem_param elem ["l"]
        = Returned (Some (el_name elem ++ "->l"))).
Proof.
  intros elem params. split.
  - destruct (_get_any_elem_param elem params) as [r|e] eqn:Hrun;
      [|now apply get_any_elem_param_raised_inv].
    revert Hrun. induction params as [|param rest IH]; simpl; [discriminate|].
    assert (Hskip : ~ modifiable elem param ->
              _get_any_elem_param elem rest = Returned r ->
              exists before param0 after,
                param :: rest = (before ++ param0 :: after)%list
                /\ (forall q, In q before -> ~ modifiable elem q)
                /\ modifiable elem param0
                /\ r = Some (knob_text elem param0)).
    { intros Hnot Hrest.
      destruct (IH Hrest) as (before & p & after & -> & Hb & Hm & Hr).
      exists (param :: before), p, after. repeat split; auto.
      intros q [<-|Hq]; auto. }
    assert (Hhere : modifiable elem param ->
              Returned (Some (knob_text elem param)) = Returned r ->
              exists before param0 after,
                param :: rest = (before ++ param0 :: after)%list
                /\ (forall q, In q before -> ~ modifiable elem q)
                /\ modifiable elem param0
                /\ r = Some (knob_text elem param0)).
    { intros Hm [= <-]. exists [], param, rest.
      split; [reflexivity|]. split; [intros q []|]. split; auto. }
    destruct (elem_getitem elem param) as [[value|text]|] eqn:Hget.
    + destruct (pv_expression value) as [expression|] eqn:Hexpr.
      * intros Hr. apply Hhere.
        -- unfold modifiable. rewrite Hget. left. congruence.
        -- unfold knob_text. now rewrite Hget, Hexpr.
      * destruct (num_eq_dec (strip_unit (pv_value value)) num_zero)
          as [Hz|Hnz].
        -- apply Hskip. unfold modifiable. rewrite Hget.
           intros [Hex|Hv]; congruence.
        -- intros Hr. apply Hhere.
           ++ unfold modifiable. rewrite Hget. now right.
           ++ unfold knob_text. now rewrite Hget, Hexpr.
    + destruct (text_equals_zero text) eqn:Hzero.
      * apply Hskip. unfold modifiable. rewrite Hget. congruence.
      * intros Hr. apply Hhere.
        -- unfold modifiable. now rewrite Hget.
        -- unfold knob_text. now rewrite Hget.
    + apply Hskip. unfold modifiable. now rewrite Hget.
  - intros Hlength. simpl.
    destruct (num_eq_dec (strip_unit (el_l elem)) num_zero); [tauto|].
    reflexivity.
Qed.

(** X15. [_allvars axis] computes the candidates once: afterwards they
    are cached under [axis], a second call returns the same list and
    changes nothing, and the first call changed nothing but that cache
    entry. When nothing was cached, the candidates are the elements whose
    type has an entry in the rules of the axis, in sequence order, each
    with the parameter names of its type; an axis without rules has no
    candidate. *)
Theorem allvars_computed_once :
  forall (axis : string) (self : Matching num),
    let '(vars, self1) := _allvars axis self in
    _allvars axis self1 = (vars, self1)
    /\ Dict.get axis (_variable_parameters self1) = Some vars
    /\ (forall axis', axis' <> axis ->
          Dict.get axis' (_variable_parameters self1)
          = Dict.get axis' (_variable_parameters self))
    /\ constraints self1 = constraints self
    /\ segment self1 = segment self
    /\ hook self1 = hook self
    /\ (Dict.get axis (_variable_parameters self) = None ->
        (forall elem params,
            In (elem, params) vars
            <-> In elem (_elements self)
                /\ exists spec,
                     Dict.get axis (_rules self) = Some spec
                     /\ Dict.get (el_type elem) spec = Some params)
        /\ map fst vars
           = filter (fun elem =>
                       match Dict.get (el_type elem)
                               (Dict.get_default axis Dict.empty
                                                 (_rules self)) with
                       | Some _ => true
                       | None => false
                       end) (_elements self)).
Proof.
  intros axis self. rewrite allvars_unfold.
  destruct (Dict.get axis (_variable_parameters self)) as [pool|] eqn:Hget.
  - rewrite allvars_unfold, Hget.
    repeat (split; [reflexivity|]). discriminate.
  - rewrite allvars_unfold. simpl. rewrite get_set_same.
    split; [reflexivity|]. split; [reflexivity|]. split.
    { intros axis' Hne. now rewrite get_set_other by congruence. }
    repeat (split; [reflexivity|]). intros _. split.
    + intros elem params. apply in_fresh_candidates.
    + unfold fresh_candidates.
      generalize (Dict.get_default axis Dict.empty (_rules self)) as spec.
      intros spec.
      induction (_elements self) as [|e rest IH]; simpl; auto.
      destruct (Dict.get (el_type e) spec); simpl; now rewrite IH.
Qed.

(** X16. [add_constraint axis elem v] leaves what [find_constraint]
    returns for another axis, and for an element of another name on the
    same axis, as it was. An element that differs from [elem] but has its
    name has no constraint on [axis] afterwards: the replacement goes by
    name, the lookup by equality of the whole element. *)
Theorem add_constraint_keeps_others :
  forall (self : Matching num) (axis : string) (elem : Element num)
         (v : num) (axis' : string) (elem' : Element num),
    (axis' <> axis \/ el_name elem' <> el_name elem ->
     find_constraint axis' elem' (add_constraint axis elem v self)
     = find_constraint axis' elem' self)
    /\ (el_name elem' = el_name elem -> elem' <> elem ->
        find_constraint axis elem' (add_constraint axis elem v self) = []).
Proof.
  intros self axis elem v axis' elem'. split.
  - intros Hother. rewrite !find_constraint_filter.
    destruct (string_dec axis axis') as [<-|Hne].
    + destruct Hother as [Hax|Hname]; [congruence|].
      rewrite gconstr_add_constraint, filter_app. simpl.
      destruct (Element_eq_dec elem elem') as [->|_]; [congruence|].
      rewrite app_nil_r.
      induction (_gconstr axis self) as [|c rest IH]; simpl; auto.
      destruct (other_name elem c) eqn:Hc; simpl; rewrite IH.
      * reflexivity.
      * destruct (Element_eq_dec (fst c) elem') as [Heq|]; auto.
        unfold other_name in Hc. rewrite Heq in Hc.
        apply Bool.negb_false_iff, String.eqb_eq in Hc. congruence.
    + now rewrite gconstr_add_constraint_other.
  - intros Hname Hdiff. rewrite find_constraint_filter.
    rewrite gconstr_add_constraint, filter_app. simpl.
    destruct (Element_eq_dec elem elem') as [->|_]; [congruence|].
    rewrite app_nil_r. apply filter_none. intros c Hc.
    apply filter_In in Hc. destruct Hc as [_ Hc].
    destruct (Element_eq_dec (fst c) elem') as [Heq|]; auto.
    unfold other_name in Hc. rewrite Heq, Hname, String.eqb_refl in Hc.
    discriminate.
Qed.

(** X25. [remove_constraint axis elem] leaves what [find_constraint]
    returns for another axis, and for an element of another name on the
    same axis, as it was. Every element that has the name of [elem], equal
    to it or not, has no constraint on [axis] afterwards. *)
Theorem remove_constraint_keeps_others :
  forall (self : Matching num) (axis : string) (elem : Element num)
         (axis' : string) (elem' : Element num),
    (axis' <> axis \/ el_name elem' <> el_name elem ->
     find_constraint axis' elem' (remove_constraint axis elem self)
     = find_constraint axis' elem' self)
    /\ (el_name elem' = el_name elem ->
        find_constraint axis elem' (remove_constraint axis elem self) = []).
Proof.
  intros self axis elem axis' elem'. split.
  - intros Hother. rewrite !find_constraint_filter.
    destruct (string_dec axis axis') as [<-|Hne].
    + destruct Hother as [Hax|Hname]; [congruence|].
      rewrite gconstr_remove_constraint.
      induction (_gconstr axis self) as [|c rest IH]; simpl; auto.
      destruct (other_name elem c) eqn:Hc; simpl; rewrite IH.
      * reflexivity.
      * destruct (Element_eq_dec (fst c) elem') as [Heq|]; auto.
        unfold other_name in Hc. rewrite Heq in Hc.
        apply Bool.negb_false_iff, String.eqb_eq in Hc. congruence.
    + now rewrite gconstr_remove_constraint_other.
  - intros Hname. rewrite find_constraint_filter, gconstr_remove_constraint.
    apply filter_none. intros c Hc.
    apply filter_In in Hc. destruct Hc as [_ Hc].
    destruct (Element_eq_dec (fst c) elem') as [Heq|]; auto.
    unfold other_name in Hc. rewrite Heq, Hname, String.eqb_refl in Hc.
    discriminate.
Qed.

(** ** What the listeners are told *)

(** Filtering by name shortens the list exactly when it holds the
    name. *)
Lemma filter_shorter_iff_found (elem : Element num)
    (l : list (Constraint num)) :
  Nat.ltb (List.length (filter (other_name elem) l)) (List.length l)
  = existsb (fun c => String.eqb (el_name (fst c)) (el_name elem)) l.
Proof.
  assert (Hle : forall l' : list (Constraint num),
             (List.length (filter (other_name elem) l') <= List.length l')%nat).
  { induction l' as [|c rest IH]; simpl; auto.
    destruct (other_name elem c); simpl; lia. }
  induction l as [|c rest IH]; simpl; auto.
  unfold other_name at 1.
  destruct (String.eqb (el_name (fst c)) (el_name elem)); simpl.
  - apply Nat.ltb_lt. specialize (Hle rest). lia.
  - rewrite <- IH.
    destruct (Nat.ltb_spec (List.length (filter (other_name elem) rest))
                           (List.length rest));
      [apply Nat.ltb_lt | apply Nat.ltb_ge]; lia.
Qed.

(** X24. The signals of the constraint set, in the order in which they
    are fired. [remove_constraint] fires its signal once when the axis
    held a constraint of the element's name, and stays silent otherwise.
    [add_constraint] fires [remove_constraint] first when it replaces a
    constraint of that name, and [add_constraint] after it in every case.
    [clear_constraints] fires its signal even when there was nothing to
    clear, and [stop] fires [clear_constraints] before [stop]. *)
Theorem add_constraint_notifications :
  forall (self : Matching num) (axis : string) (elem : Element num)
         (v : num),
    let replaced :=
      existsb (fun c => String.eqb (el_name (fst c)) (el_name elem))
              (_gconstr axis self) in
    hook (remove_constraint axis elem self)
    = (hook self ++ if replaced then ["remove_constraint"] else [])%list
    /\ hook (add_constraint axis elem v self)
       = (hook self ++ (if replaced then ["remove_constraint"] else [])
                    ++ ["add_constraint"])%list
    /\ hook (clear_constraints self)
       = (hook self ++ ["clear_constraints"])%list
    /\ hook (stop self) = (hook self ++ ["clear_constraints"; "stop"])%list.
Proof.
  intros self axis elem v replaced.
  assert (Hremove : hook (remove_constraint axis elem self)
            = (hook self ++ if replaced then ["remove_constraint"] else [])%list).
  { rewrite hook_remove_constraint, filter_shorter_iff_found.
    fold replaced. destruct replaced; [reflexivity|now rewrite app_nil_r]. }
  split; [exact Hremove|]. split; [|split].
  - unfold add_constraint. simpl. rewrite Hremove. now rewrite <- app_assoc.
  - reflexivity.
  - unfold stop, clear_constraints. simpl. now rewrite <- app_assoc.
Qed.

(** ** Edge cases of [match] *)

(** X17. With an empty constraint set, and emittances in the summary,
    [match] does not return early: its first part yields no transformed
    constraint and no knob and leaves the object as it is, and the
    interpreter receives a match request with an empty [vary] and an empty
    constraints list, followed by a TWISS request if it accepts the
    match. *)
Theorem match_without_constraints :
  forall (self : Matching num) (ex ey : num),
    constraints self = Dict.empty ->
    Dict.get "ex" (summary (segment self)) = Some ex ->
    Dict.get "ey" (summary (segment self)) = Some ey ->
    let args :=
      {| ma_sequence := sequence_name (segment self);
         ma_vary := [];
         ma_constraints := [];
         ma_twiss_init := dict_strip_unit (_twiss_args (segment self)) |} in
    let calls := madx_calls (session (segment self)) in
    match_plan self = (Returned (Dict.empty, []), self)
    /\ madx_calls (session (segment (snd (match_ self))))
       = (calls ++ CallMatch args
            :: match madx_match calls args with
               | Returned _ => [CallTwiss (_get_twiss_args (segment self))]
               | Raised _ => []
               end)%list.
Proof.
  intros self ex ey Hempty Hex Hey args calls.
  assert (Hplan : match_plan self = (Returned (Dict.empty, []), self)).
  { rewrite match_plan_run. unfold MatchTransform_init.
    rewrite Hex, Hey, Hempty. simpl. destruct self; reflexivity. }
  split; [exact Hplan|].
  rewrite match_run, Hplan. unfold call_match. cbv beta.
  change (match_args self (fst (Dict.empty, [])) (snd (Dict.empty, [])))
    with args.
  fold calls. destruct (madx_match calls args); simpl.
  - unfold on_segment.
    match goal with
    | |- context [twiss ?seg] =>
        pose proof (twiss_calls seg) as Hcalls;
        destruct (twiss seg) as [r seg']
    end.
    simpl in *. rewrite Hcalls. now rewrite <- app_assoc.
  - reflexivity.
Qed.

(** X18. When the summary of the segment lacks [ex] or [ey], [match]
    raises [KeyError] at once, with or without constraints: the object is
    unchanged and nothing is sent to the interpreter. *)
Theorem match_needs_emittances :
  forall (self : Matching num),
    Dict.get "ex" (summary (segment self)) = None
    \/ Dict.get "ey" (summary (segment self)) = None ->
    match_ self = (Raised KeyError, self).
Proof.
  intros self Hmissing.
  rewrite match_run, match_plan_run. unfold MatchTransform_init.
  destruct Hmissing as [Hex|Hey].
  - now rewrite Hex.
  - destruct (Dict.get "ex" (summary (segment self))); now rewrite ?Hey.
Qed.

End LifecycleFacts.

(* ===================================================================== *)
(** * What the guessed models hold *)
(* ===================================================================== *)

Section GuessedModelFacts.

Context {num : Type} `{Numeric num} `{UnitTool num}.

Lemma keys_set_iff {V} (k k' : string) (v : V) (d : Dict.t V) :
  In k' (Dict.keys (Dict.set k v d)) <-> k' = k \/ In k' (Dict.keys d).
Proof.
  unfold Dict.keys. induction d as [|[k0 v0] rest IH]; simpl.
  - intuition.
  - destruct (String.eqb k k0) eqn:E; simpl.
    + apply String.eqb_eq in E. subst k0. intuition.
    + rewrite IH. intuition.
Qed.

Lemma getitem_zero {A} (data : list A) :
  getitem data 0 = match data with
                   | [] => Err IndexError
                   | first :: _ => Ok first
                   end.
Proof.
  unfold getitem. destruct data as [|first rest]; simpl; auto.
Qed.

(** What the comprehension keeps, on top of the entries it started
    from. *)
Lemma twiss_of_items_spec (items : list (string * Column num)) :
  forall acc twiss,
    twiss_of_items items acc = Ok twiss ->
    (forall key value,
        Dict.get key twiss = Some value ->
        Dict.get key acc = Some value
        \/ exists rest,
             In (key, Numbers (value :: rest)) items
             /\ (is_mandatory key = true \/ value <> num_zero))
    /\ (forall key, In key (Dict.keys acc) -> In key (Dict.keys twiss))
    /\ (forall key value rest,
          In (key, Numbers (value :: rest)) items ->
          is_mandatory key = true \/ value <> num_zero ->
          In key (Dict.keys twiss))
    /\ (forall key, In (key, Numbers []) items -> False).
Proof.
  induction items as [|[key column] more IH]; intros acc twiss; simpl.
  - intros [= <-]. repeat split; auto; try tauto.
  - destruct column as [data|text].
    + rewrite getitem_zero.
      assert (Hkeep : forall value rest,
                data = value :: rest ->
                is_mandatory key = true \/ value <> num_zero ->
                twiss_of_items more (Dict.set key value acc) = Ok twiss ->
                (forall k v,
                    Dict.get k twiss = Some v ->
                    Dict.get k acc = Some v
                    \/ exists r,
                         ((key, Numbers data) = (k, Numbers (v :: r))
                          \/ In (k, Numbers (v :: r)) more)
                         /\ (is_mandatory k = true \/ v <> num_zero))
                /\ (forall k, In k (Dict.keys acc) -> In k (Dict.keys twiss))
                /\ (forall k v r,
                      (key, Numbers data) = (k, Numbers (v :: r))
                      \/ In (k, Numbers (v :: r)) more ->
                      is_mandatory k = true \/ v <> num_zero ->
                      In k (Dict.keys twiss))
                /\ (forall k, (key, Numbers data) = (k, Numbers [])
                              \/ In (k, Numbers []) more -> False)).
      { intros value rest -> Hwhy Hrun.
        destruct (IH _ _ Hrun) as (Hsound & Hacc & Hcomplete & Hempty).
        split; [|split; [|split]].
        - intros k v Hk. destruct (Hsound k v Hk) as [Hset|[r [Hin Hw]]].
          + destruct (string_dec key k) as [<-|Hne].
            * rewrite get_set_same in Hset. injection Hset as <-.
              right. exists rest. auto.
            * rewrite get_set_other in Hset by assumption. now left.
          + right. exists r. auto.
        - intros k Hk. apply Hacc. apply keys_set_iff. now right.
        - intros k v r [[= <- <- <-]|Hin] Hw.
          + apply Hacc. apply keys_set_iff. now left.
          + now apply (Hcomplete k v r).
        - intros k [Heq|Hin]; [discriminate|]. now apply (Hempty k). }
      assert (Hskip : forall value rest,
                data = value :: rest ->
                is_mandatory key = false -> value = num_zero ->
                twiss_of_items more acc = Ok twiss ->
                (forall k v,
                    Dict.get k twiss = Some v ->
                    Dict.get k acc = Some v
                    \/ exists r,
                         ((key, Numbers data) = (k, Numbers (v :: r))
                          \/ In (k, Numbers (v :: r)) more)
                         /\ (is_mandatory k = true \/ v <> num_zero))
                /\ (forall k, In k (Dict.keys acc) -> In k (Dict.keys twiss))
                /\ (forall k v r,
                      (key, Numbers data) = (k, Numbers (v :: r))
                      \/ In (k, Numbers (v :: r)) more ->
                      is_mandatory k = true \/ v <> num_zero ->
                      In k (Dict.keys twiss))
                /\ (forall k, (key, Numbers data) = (k, Numbers [])
                              \/ In (k, Numbers []) more -> False)).
      { intros value rest -> Hnot Hzero Hrun.
        destruct (IH _ _ Hrun) as (Hsound & Hacc & Hcomplete & Hempty).
        split; [|split; [|split]].
        - intros k v Hk. destruct (Hsound k v Hk) as [Hset|[r [Hin Hw]]];
            [now left|]. right. exists r. auto.
        - exact Hacc.
        - intros k v r [[= <- <- <-]|Hin] Hw.
          + destruct Hw; congruence.
          + now apply (Hcomplete k v r).
        - intros k [Heq|Hin]; [discriminate|]. now apply (Hempty k). }
      destruct (is_mandatory key) eqn:Hmand.
      * destruct data as [|value rest]; [discriminate|].
        intros Hrun. apply (Hkeep value rest); auto.
      * destruct data as [|value rest]; [discriminate|].
        unfold nonzero.
        destruct (num_eq_dec value num_zero) as [Hz|Hnz].
        -- intros Hrun. apply (Hskip value rest); auto.
        -- intros Hrun. apply (Hkeep value rest); auto.
    + intros Hrun.
      destruct (IH _ _ Hrun) as (Hsound & Hacc & Hcomplete & Hempty).
      split; [|split; [|split]].
      * intros k v Hk. destruct (Hsound k v Hk) as [Hset|[r [Hin Hw]]];
          [now left|]. right. exists r. auto.
      * exact Hacc.
      * intros k v r [Heq|Hin] Hw; [discriminate|].
        now apply (Hcomplete k v r).
      * intros k [Heq|Hin]; [discriminate|]. now apply (Hempty k).
Qed.

Lemma is_mandatory_in (key : string) :
  is_mandatory key = true <-> In key mandatory_fields.
Proof.
  unfold is_mandatory. rewrite existsb_exists. split.
  - intros [k [Hin Heq]]. apply String.eqb_eq in Heq. now subst.
  - intros Hin. exists key. split; auto. apply String.eqb_refl.
Qed.

Lemma table_ends_inv (sequence : Sequence num) (table : Table num)
    first last :
  table_ends sequence table = Ok (first, last) ->
  table_range table = Ok [first; last]
  /\ In first (seq_elements sequence) /\ In last (seq_elements sequence).
Proof.
  unfold table_ends.
  destruct (table_range table) as [[|f [|l [|x rest]]]|[[]| |]];
    try discriminate.
  destruct (existsb (String.eqb f) (seq_elements sequence)) eqn:Hf;
    [|discriminate].
  destruct (existsb (String.eqb l) (seq_elements sequence)) eqn:Hl;
    [|discriminate].
  simpl. intros [= <- <-]. split; auto.
  apply existsb_exists in Hf, Hl.
  destruct Hf as [x [Hx Hxe]]. destruct Hl as [y [Hy Hye]].
  apply String.eqb_eq in Hxe, Hye. subst. auto.
Qed.

(** X19. When [Session._get_twiss] returns [((first, last), twiss)]:
    [first] and [last] are the two items of the range of the table and
    elements of the sequence; every entry of [twiss] is the first value of
    a numeric column of that name that is a mandatory field ([betx],
    [bety], [alfx], [alfy]) or not zero; and every numeric column that is
    mandatory or starts with a value that is not zero has an entry. *)
Theorem get_twiss_initial_conditions :
  forall (sequence : Sequence num) (first last : string)
         (twiss : Dict.t num),
    _get_twiss sequence = Ok ((first, last), twiss) ->
    In first (seq_elements sequence)
    /\ In last (seq_elements sequence)
    /\ exists table,
         seq_twiss_table sequence = Ok table
         /\ table_range table = Ok [first; last]
         /\ (forall key value,
               Dict.get key twiss = Some value ->
               exists rest,
                 In (key, Numbers (value :: rest)) (table_items table)
                 /\ (In key mandatory_fields \/ value <> num_zero))
         /\ (forall key value rest,
               In (key, Numbers (value :: rest)) (table_items table) ->
               In key mandatory_fields \/ value <> num_zero ->
               In key (Dict.keys twiss)).
Proof.
  intros sequence first last twiss. unfold _get_twiss.
  destruct (seq_twiss_table sequence) as [table|e]; [|discriminate].
  destruct (table_ends sequence table) as [[f l]|e] eqn:Hends;
    [|discriminate].
  destruct (twiss_of_items (table_items table) Dict.empty) as [tw|e] eqn:Hrun;
    [|discriminate].
  intros [= <- <- <-].
  destruct (table_ends_inv _ _ Hends) as (Hrange & Hf & Hl).
  destruct (twiss_of_items_spec _ _ Hrun) as (Hsound & _ & Hcomplete & _).
  repeat split; auto. exists table. repeat split; auto.
  - intros key value Hget.
    destruct (Hsound key value Hget) as [Hacc|[rest [Hin Hw]]];
      [discriminate|].
    exists rest. split; auto. rewrite <- is_mandatory_in. exact Hw.
  - intros key value rest Hin Hw. apply (Hcomplete key value rest Hin).
    rewrite is_mandatory_in. exact Hw.
Qed.

(** X20. [Session._get_seq_model] raises [RuntimeError] for a sequence
    that is not defined, and for no other: for a defined sequence, a
    [RuntimeError] of [sequence.beam] gives an empty beam, a [RuntimeError]
    of [_get_twiss] gives the range [(name$start, name$end)] and empty
    initial conditions, and any other exception of the two passes
    through. *)
Theorem get_seq_model_falls_back :
  forall (sequences : Dict.t (Sequence num)) (name : string),
    match Dict.get name sequences with
    | None =>
        _get_seq_model sequences name
        = Err (RuntimeError "The sequence is not defined.")
    | Some sequence =>
        match _get_seq_model sequences name with
        | Ok model =>
            sm_sequence model = name
            /\ ((exists beam,
                    seq_beam sequence = Ok beam
                    /\ sm_beam model = dict_add_unit beam)
                \/ (exists msg,
                       seq_beam sequence = Err (RuntimeError msg)
                       /\ sm_beam model = Dict.empty))
            /\ ((exists twiss,
                    _get_twiss sequence = Ok (sm_range model, twiss)
                    /\ sm_twiss model = dict_add_unit twiss)
                \/ (exists msg,
                       _get_twiss sequence = Err (RuntimeError msg)
                       /\ sm_range model
                          = (name ++ "$start", name ++ "$end")
                       /\ sm_twiss model = Dict.empty))
        | Err e =>
            is_RuntimeError e = false
            /\ (seq_beam sequence = Err e \/ _get_twiss sequence = Err e)
        end
    end.
Proof.
  intros sequences name. unfold _get_seq_model.
  destruct (Dict.get name sequences) as [sequence|]; [|reflexivity].
  destruct (seq_beam sequence) as [beam|[e| |msg]] eqn:Hbeam.
  4: change (dict_add_unit (@Dict.empty num)) with (@Dict.empty num).
  1, 4: destruct (_get_twiss sequence) as [[range twiss]|[e'| |msg']];
    simpl; repeat split; eauto 10.
  all: simpl; auto.
Qed.

Lemma map_noexcept_spec {A B} (func : A -> Result B) (catch : Error -> bool)
    (sequence : list A) :
  match map_noexcept func sequence catch with
  | Ok values =>
      values = flat_map (fun item => match func item with
                                     | Ok value => [value]
                                     | Err _ => []
                                     end) sequence
      /\ forall item e, In item sequence -> func item = Err e ->
                        catch e = true
  | Err e =>
      catch e = false /\ exists item, In item sequence /\ func item = Err e
  end.
Proof.
  induction sequence as [|item rest IH]; simpl.
  - split; auto.
  - destruct (func item) as [value|e] eqn:Hitem.
    + destruct (map_noexcept func rest catch) as [values|e'].
      * destruct IH as [-> Hcaught]. split; auto.
        intros it e [<-|Hin] He; [congruence|eauto].
      * destruct IH as [Hc [it [Hin He]]]. split; auto. exists it. auto.
    + destruct (catch e) eqn:Hcatch.
      * destruct (map_noexcept func rest catch) as [values|e'].
        -- destruct IH as [-> Hcaught]. split; auto.
           intros it e0 [<-|Hin] He; [congruence|eauto].
        -- destruct IH as [Hc [it [Hin He]]]. split; auto. exists it. auto.
      * split; auto. exists item. auto.
Qed.

Lemma get_seq_model_sequence (sequences : Dict.t (Sequence num)) name model :
  get_seq_model sequences name = Ok model -> md_sequence model = name.
Proof.
  unfold get_seq_model.
  destruct (Dict.get name sequences) as [sequence|]; [|discriminate].
  destruct (seq_beam sequence); [|discriminate].
  destruct (seq_twiss_table sequence) as [table|]; [|discriminate].
  destruct (table_ends sequence table) as [[f l]|]; [|discriminate].
  destruct (twiss_init_of_items _ _); [|discriminate].
  now intros [= <-].
Qed.

(** X21. [Model.detect] returns the models of the sequences for which
    [get_seq_model] returns, in the order of the sequences, and skips
    those on which it raises [RuntimeError]; it fails only with an
    exception of [get_seq_model] that is no [RuntimeError]. *)
Theorem detect_skips_unusable_sequences :
  forall (sequences : Dict.t (Sequence num)),
    match detect sequences with
    | Ok models =>
        map (@md_sequence num) models
        = filter (fun name => match get_seq_model sequences name with
                              | Ok _ => true
                              | Err _ => false
                              end) (Dict.keys sequences)
        /\ (forall name e,
              In name (Dict.keys sequences) ->
              get_seq_model sequences name = Err e ->
              exists msg, e = RuntimeError msg)
    | Err e =>
        (forall msg, e <> RuntimeError msg)
        /\ exists name,
             In name (Dict.keys sequences)
             /\ get_seq_model sequences name = Err e
    end.
Proof.
  intros sequences. unfold detect.
  pose proof (map_noexcept_spec (get_seq_model sequences) is_RuntimeError
                                (Dict.keys sequences)) as Hspec.
  destruct (map_noexcept _ _ _) as [models|e].
  - destruct Hspec as [-> Hcaught]. split.
    + induction (Dict.keys sequences) as [|name rest IH]; simpl; auto.
      destruct (get_seq_model sequences name) as [model|e] eqn:Hm; simpl.
      * rewrite (get_seq_model_sequence _ _ Hm). f_equal.
        apply IH. intros n e Hin. apply Hcaught. now right.
      * apply IH. intros n e0 Hin. apply Hcaught. now right.
    + intros name e Hin He. specialize (Hcaught name e Hin He).
      destruct e; try discriminate. eauto.
  - destruct Hspec as [Hc Hex]. split; auto.
    intros msg ->. discriminate.
Qed.

End GuessedModelFacts.

(* ===================================================================== *)
(** * Signals and their handlers *)
(* ===================================================================== *)

Module PluginFacts.

Import Plugin.

Section SignalFacts.

Variable Handler : Type.
Variable Handler_eq_dec : forall a b : Handler, {a = b} + {a <> b}.

Let disconnect := disconnect Handler_eq_dec.

Lemma list_remove_first {A} (eq_dec : forall x y : A, {x = y} + {x <> y})
    (v : A) (before after : list A) :
  ~ In v before ->
  list_remove eq_dec v (before ++ v :: after) = Some (before ++ after)%list.
Proof.
  induction before as [|a rest IH]; simpl; intros Hnot.
  - destruct (eq_dec v v); [reflexivity|congruence].
  - destruct (eq_dec a v) as [->|Hne]; [tauto|].
    rewrite IH by tauto. reflexivity.
Qed.

Lemma list_remove_absent {A} (eq_dec : forall x y : A, {x = y} + {x <> y})
    (v : A) (l : list A) :
  ~ In v l -> list_remove eq_dec v l = None.
Proof.
  intros Hnot. destruct (list_remove eq_dec v l) as [l'|] eqn:Hr; auto.
  exfalso. apply Hnot. clear Hnot. revert l' Hr.
  induction l as [|a rest IH]; simpl; intros l'; [discriminate|].
  destruct (eq_dec a v) as [->|Hne]; [now left|].
  destruct (list_remove eq_dec v rest) as [r|]; [|discriminate].
  intros _. right. now apply (IH r).
Qed.

(** X22. [List.disconnect] removes one registration of the handler, the
    earliest, and raises [ValueError], leaving the list as it is, when the
    handler is not connected. So [connect] followed by [disconnect]
    restores the list only for a handler that was not connected before;
    for one that was, the earlier registration goes and the new one stays
    at the end. *)
Theorem disconnect_removes_first_registration :
  forall (slot : Handler) (slots : list (Slot Handler)),
    (~ In (Client slot) slots ->
     disconnect slot slots = (Raised ValueError, slots)
     /\ bind (connect slot) (fun _ => disconnect slot) slots
        = (Returned tt, slots))
    /\ (forall before after,
          slots = (before ++ Client slot :: after)%list ->
          ~ In (Client slot) before ->
          disconnect slot slots = (Returned tt, (before ++ after)%list)
          /\ bind (connect slot) (fun _ => disconnect slot) slots
             = (Returned tt, (before ++ after ++ [Client slot])%list)).
Proof.
  intros slot slots. split.
  - intros Hnot. unfold disconnect, Plugin.disconnect, bind, connect, modify.
    rewrite (@list_remove_absent _ (Slot_eq_dec Handler_eq_dec)
               (Client slot) slots Hnot).
    rewrite (@list_remove_first _ (Slot_eq_dec Handler_eq_dec)
               (Client slot) slots [] Hnot), app_nil_r. auto.
  - intros before after -> Hnot.
    unfold disconnect, Plugin.disconnect, bind, connect, modify.
    rewrite <- app_assoc. simpl.
    rewrite (@list_remove_first _ (Slot_eq_dec Handler_eq_dec)
               (Client slot) before after Hnot).
    rewrite (@list_remove_first _ (Slot_eq_dec Handler_eq_dec)
               (Client slot) before (after ++ [Client slot]) Hnot). auto.
Qed.



End SignalFacts.

End PluginFacts.

(* ===================================================================== *)
(** * The statements at work on the concrete setting *)
(* ===================================================================== *)

Lemma Z_ltb_trans (a b c : Z) :
  Z.ltb a b = true -> Z.ltb b c = true -> Z.ltb a c = true.
Proof. rewrite !Z.ltb_lt. lia. Qed.

(** C1, on the code: with the rules [x: kicker: [hkick]] and
    [y: kicker: [vkick]] and a target for [posx] and for [posy] at the
    drift downstream of the kicker, [match] sends a [vary] list with two
    knobs of the one element [k1]: the kicker is chosen for the constraint
    of axis [x] and, still in the pool of axis [y], chosen again. *)
Theorem kicker_supplies_two_knobs :
  map (fun entry => el_name (fst (ve_knob entry))) (plan_vary kicker_matching)
  = ["k1"; "k1"]
  /\ map (@ve_axis Z) (plan_vary kicker_matching) = ["x"; "y"]
  /\ exists args twiss_args self',
       @match_ Z _ _ steady_madx kicker_matching = (Returned tt, self')
       /\ madx_calls (session (segment self'))
          = [CallMatch args; CallTwiss twiss_args]
       /\ ma_vary args = ["k1->hkick"; "k1->vkick"].
Proof.
  split; [vm_compute; reflexivity|]. split; [vm_compute; reflexivity|].
  eexists _, _, _. split; [vm_compute; reflexivity|].
  split; vm_compute; reflexivity.
Qed.

(** C2 at work: the only candidate upstream of the drift has the literal
    strength 0, so [match] raises and nothing reaches the interpreter. *)
Lemma match_aborts_on_unresolved_knob_witness :
  let self' := snd (copy_allvars ["betx"] Dict.empty dead_knob_matching) in
  @match_ Z _ _ steady_madx dead_knob_matching = (Raised ValueError, self')
  /\ constraints self' = constraints dead_knob_matching
  /\ segment self' = segment dead_knob_matching
  /\ madx_calls (session (segment self')) = []
  /\ hook self' = hook dead_knob_matching.
Proof.
  apply (@match_aborts_on_unresolved_knob Z Z_Numeric plain_units steady_madx
           dead_knob_matching {| _ex := 4%Z; _ey := 9%Z |}
           [("betx", [(D1, 1%Z)])] [] [] "betx" D1 1%Z
           ([("betx", [(Q0, ["k1"])])], [])
           [(Q0, ["k1"])] (Q0, ["k1"]));
    try (vm_compute; reflexivity).
  intros param [<-|[]] [Hexpr|Hnonzero];
    [now apply Hexpr | now apply Hnonzero].
Defined.

(** C3 at work: candidates at 10, 25 and 40 and a constraint at 50; the
    candidate at 40 is taken, and its strength is what the interpreter is
    asked to vary. *)
Lemma knob_is_closest_upstream_witness :
  let pool := [(quad_at "qa" 10%Z, ["k1"]); (quad_at "qb" 25%Z, ["k1"]);
               (quad_at "qc" 40%Z, ["k1"])] in
  let entry := {| ve_expr := "qc->k1"; ve_axis := "betx"; ve_elem := M50;
                  ve_pool := pool; ve_knob := (quad_at "qc" 40%Z, ["k1"]) |} in
  plan_vary three_quads_matching = [entry]
  /\ ma_vary (match_args three_quads_matching [("betx", [(M50, 1%Z)])]
                         (plan_vary three_quads_matching)) = ["qc->k1"]
  /\ taken_at [("betx", pool)] [("betx", (M50, 1%Z))] [] entry
  /\ closest_upstream entry.
Proof.
  intros pool entry.
  split; [vm_compute; reflexivity|]. split; [vm_compute; reflexivity|].
  assert (Hplan : match_plan three_quads_matching
                  = (Returned ([("betx", [(M50, 1%Z)])], [entry]),
                     snd (match_plan three_quads_matching)))
    by (vm_compute; reflexivity).
  apply (@knob_is_closest_upstream Z Z_Numeric plain_units
           Z.ltb_irrefl Z_ltb_trans three_quads_matching
           (snd (match_plan three_quads_matching))
           [("betx", [(M50, 1%Z)])] [entry] Hplan [] entry [] eq_refl).
Defined.

(** C4 at work: a constraint at position 5 and candidates at 5 and 10; the
    iteration leaves pools and [vary] as they are, and the first part of
    [match] returns an empty [vary]. *)
Lemma no_candidate_leaves_unassigned_witness :
  let pools := [("betx", [(quad_at "q5" 5%Z, ["k1"]);
                          (quad_at "q10" 10%Z, ["k1"])])] in
  assign_knob "betx" D1 (pools, []) = Returned (pools, [])
  /\ fst (match_plan downstream_only_matching)
     = Returned ([("betx", [(D1, 1%Z)])], []).
Proof.
  split; [|vm_compute; reflexivity].
  apply (proj1 (@no_candidate_leaves_unassigned Z Z_Numeric plain_units
                  downstream_only_matching))
    with (pool := [(quad_at "q5" 5%Z, ["k1"]); (quad_at "q10" 10%Z, ["k1"])]);
    vm_compute; reflexivity.
Defined.

(** C5 at work: a range that starts at 100; the local positions 0, 5, 10
    are reported as 100, 105, 110, and the envelopes are the roots of the
    beta functions of the answer times the emittances 4 and 9. *)
Lemma twiss_table_consistent_witness :
  let self' := snd (@twiss Z _ _ steady_madx fresh_segment) in
  Dict.get "s" (tw self') = Some [100; 105; 110]%Z
  /\ Dict.get "envx" (tw self')
     = Some (map (fun betx_i => Z.sqrt (betx_i * 4)) [4; 9; 16])%Z
  /\ Dict.get "envy" (tw self')
     = Some (map (fun bety_i => Z.sqrt (bety_i * 9)) [1; 4; 9])%Z
  /\ Dict.get "posx" (tw self') = Some [1; 2; 3]%Z
  /\ Dict.get "posy" (tw self') = Some [4; 5; 6]%Z.
Proof.
  intros self'.
  assert (Hrun : @twiss Z _ _ steady_madx fresh_segment = (Returned tt, self'))
    by (vm_compute; reflexivity).
  destruct (@twiss_table_consistent Z Z_Numeric plain_units steady_madx
              fresh_segment self' Hrun)
    as (results & raw_s & betx & bety & x & y & ex & ey
        & Hres & Hraw & Hbx & Hby & Hx & Hy & Hsum & Hex & Hey
        & Hs & Henvx & Henvy & Hpx & Hpy & _).
  injection Hres as <-.
  injection Hraw as <-. injection Hbx as <-. injection Hby as <-.
  injection Hx as <-. injection Hy as <-.
  rewrite Hsum in Hex, Hey. injection Hex as <-. injection Hey as <-.
  repeat split; assumption.
Defined.

(** C6 at work: the TWISS command fails; the cached state stays. *)
Lemma twiss_failure_keeps_cache_witness :
  let '(result, self') := @twiss Z _ _ failing_madx fresh_segment in
  result = Raised (EngineError "twiss failed")
  /\ tw self' = tw fresh_segment
  /\ summary self' = summary fresh_segment
  /\ pos self' = pos fresh_segment
  /\ seg_hook self' = seg_hook fresh_segment
  /\ self' = set_session
               {| madx_calls := [CallTwiss (_get_twiss_args fresh_segment)] |}
               fresh_segment.
Proof.
  apply (@twiss_failure_keeps_cache Z Z_Numeric plain_units failing_madx
           fresh_segment (EngineError "twiss failed")).
  vm_compute. reflexivity.
Defined.

(** C8 at work: the drift loses its only constraint and the axis goes. *)
Lemma remove_constraint_after_add_witness :
  ~ In "envx" (Dict.keys (constraints
                            (remove_constraint "envx" D1 drift_matching))).
Proof.
  apply (proj1 (proj2 (proj2
           (@remove_constraint_after_add Z Z_Numeric
              (Matching_init fresh_segment quad_rules) "envx" D1 2%Z)))).
  vm_compute. reflexivity.
Defined.


(** C10 at work: no constraint was ever set on [envy]. *)
Lemma remove_constraint_absent_axis_witness :
  remove_constraint "envy" D1 drift_matching = drift_matching.
Proof.
  apply (proj1 (@remove_constraint_absent_axis Z drift_matching "envy" D1)).
  vm_compute. reflexivity.
Defined.

(** X10 at work: the interpreter rejects the request for the drift. *)
Lemma match_rejected_by_interpreter_witness :
  let '(result, self') := @match_ Z _ _ refusing_madx drift_matching in
  result = Raised (EngineError "match failed")
  /\ madx_calls (session (segment self'))
     = [CallMatch (match_args drift_matching [("betx", [(D1, 1%Z)])]
                              (plan_vary drift_matching))]
  /\ tw (segment self') = tw (segment drift_matching)
  /\ summary (segment self') = summary (segment drift_matching)
  /\ pos (segment self') = pos (segment drift_matching)
  /\ seg_hook (segment self') = seg_hook (segment drift_matching)
  /\ constraints self' = constraints drift_matching.
Proof.
  apply (@match_rejected_by_interpreter Z Z_Numeric plain_units refusing_madx
           drift_matching (snd (match_plan drift_matching))
           ([("betx", [(D1, 1%Z)])], plan_vary drift_matching)
           (EngineError "match failed"));
    vm_compute; reflexivity.
Defined.

(** X11 at work: the interpreter accepts the request for the drift. *)
Lemma match_then_twiss_witness :
  let args := match_args drift_matching [("betx", [(D1, 1%Z)])]
                         (plan_vary drift_matching) in
  let '(result, self') := @match_ Z _ _ steady_madx drift_matching in
  (result, segment self')
  = @twiss Z _ _ steady_madx
      (set_session {| madx_calls := [CallMatch args] |}
                   (segment drift_matching))
  /\ madx_calls (session (segment self'))
     = [CallMatch args; CallTwiss (_get_twiss_args (segment drift_matching))]
  /\ ma_sequence args = ta_sequence (_get_twiss_args (segment drift_matching))
  /\ ma_twiss_init args
     = ta_twiss_init (_get_twiss_args (segment drift_matching))
  /\ constraints self' = constraints drift_matching.
Proof.
  apply (@match_then_twiss Z Z_Numeric plain_units steady_madx
           drift_matching (snd (match_plan drift_matching))
           ([("betx", [(D1, 1%Z)])], plan_vary drift_matching));
    vm_compute; reflexivity.
Defined.

(** X12 at work: two constraints at the marker, on two axes. *)
Lemma match_request_sizes_witness :
  let args := match_args (snd (match_plan both_planes_matching))
                [("betx", [(M50, 1%Z)]); ("bety", [(M50, 1%Z)])]
                (plan_vary both_planes_matching) in
  List.length (ma_constraints args) = 2%nat
  /\ (List.length (ma_vary args) <= 2)%nat.
Proof.
  apply (@match_request_sizes Z Z_Numeric plain_units both_planes_matching
           (snd (match_plan both_planes_matching))
           [("betx", [(M50, 1%Z)]); ("bety", [(M50, 1%Z)])]
           (plan_vary both_planes_matching)).
  vm_compute. reflexivity.
Defined.

(** The rules for quadrupoles name [k1] on both axes. *)
Lemma quad_rules_coherent : rules_coherent quad_rules.
Proof.
  intros axis1 axis2 spec1 spec2 type params1 params2.
  unfold quad_rules. simpl.
  destruct (String.eqb axis1 "betx"); [|destruct (String.eqb axis1 "bety")];
    (intros [= <-] || discriminate);
    (destruct (String.eqb axis2 "betx"); [|destruct (String.eqb axis2 "bety")]);
    (intros [= <-] || discriminate); simpl;
    (destruct (String.eqb type "quadrupole"); [|discriminate]);
    intros [= <-] [= <-]; reflexivity.
Qed.

(** X9 at work: the two constraints at the marker take the two
    quadrupoles next to it, one each, and the interpreter is asked to vary
    the strength of each. *)
Lemma one_knob_per_element_witness :
  ma_vary (match_args both_planes_matching
             [("betx", [(M50, 1%Z)]); ("bety", [(M50, 1%Z)])]
             (plan_vary both_planes_matching)) = ["qc->k1"; "qb->k1"]
  /\ map (fun entry => el_name (knob_element entry))
         (plan_vary both_planes_matching) = ["qc"; "qb"]
  /\ NoDup (map (@knob_element Z) (plan_vary both_planes_matching)).
Proof.
  split; [vm_compute; reflexivity|]. split; [vm_compute; reflexivity|].
  apply (@one_knob_per_element Z Z_Numeric plain_units both_planes_matching
           (snd (match_plan both_planes_matching))
           [("betx", [(M50, 1%Z)]); ("bety", [(M50, 1%Z)])]).
  - repeat constructor; simpl; intuition discriminate.
  - exact quad_rules_coherent.
  - intros axis pool. discriminate.
  - vm_compute. reflexivity.
Defined.

(** X16 at work: a constraint on [envy] leaves the one on [envx]; a
    second quadrupole of the name [q0] takes the place of the first. *)
Lemma add_constraint_keeps_others_witness :
  find_constraint "envx" D1 (add_constraint "envy" Q2 3%Z drift_matching)
  = [(D1, 2%Z)]
  /\ find_constraint "envx" Q0 (add_constraint "envx" (quad_at "q0" 7%Z) 5%Z
                                  (add_constraint "envx" Q0 1%Z idle_matching))
     = [].
Proof.
  split.
  - rewrite (proj1 (@add_constraint_keeps_others Z Z_Numeric drift_matching
                      "envy" Q2 3%Z "envx" D1)).
    + vm_compute. reflexivity.
    + left. discriminate.
  - apply (proj2 (@add_constraint_keeps_others Z Z_Numeric
                    (add_constraint "envx" Q0 1%Z idle_matching)
                    "envx" (quad_at "q0" 7%Z) 5%Z "envx" Q0)).
    + reflexivity.
    + discriminate.
Defined.

(** X25 at work: removing the constraint of [Q2] on [envy] leaves the
    one of [D1] on [envx]; removing by a second quadrupole of the name
    [q0] removes the constraint of the first. *)
Lemma remove_constraint_keeps_others_witness :
  find_constraint "envx" D1 (remove_constraint "envy" Q2 drift_matching)
  = [(D1, 2%Z)]
  /\ find_constraint "envx" Q0
       (remove_constraint "envx" (quad_at "q0" 7%Z)
          (add_constraint "envx" Q0 1%Z idle_matching))
     = [].
Proof.
  split.
  - rewrite (proj1 (@remove_constraint_keeps_others Z Z_Numeric drift_matching
                      "envy" Q2 "envx" D1)).
    + vm_compute. reflexivity.
    + left. discriminate.
  - apply (proj2 (@remove_constraint_keeps_others Z Z_Numeric
                    (add_constraint "envx" Q0 1%Z idle_matching)
                    "envx" (quad_at "q0" 7%Z) "envx" Q0)).
    reflexivity.
Defined.

(** X2 at work: the answer has no summary; the table is the new one
    all the same. *)
Lemma twiss_interrupted_after_answer_witness :
  let self' := snd (@twiss Z _ _ summaryless_madx fresh_segment) in
  fst (@twiss Z _ _ summaryless_madx fresh_segment) = Raised KeyError
  /\ summary self' = []
  /\ Dict.get "betx" (tw self') = Some [4; 9; 16]%Z
  /\ pos self' = [100; 105; 110]%Z
  /\ seg_hook self' = [].
Proof.
  destruct (@twiss_interrupted_after_answer Z Z_Numeric plain_units
              summaryless_madx fresh_segment
              {| tr_columns := tr_columns three_rows; tr_summary := [] |}
              KeyError)
    as (_ & Hsum & Hcols & Hhook); try (vm_compute; reflexivity).
  split; [vm_compute; reflexivity|].
  split; [exact Hsum|]. split; [|split; [vm_compute; reflexivity|exact Hhook]].
  rewrite Hcols; [vm_compute; reflexivity|].
  simpl. intuition discriminate.
Defined.

(** X17 at work: a matching session without constraints. *)
Lemma match_without_constraints_witness :
  match_plan idle_matching = (Returned (Dict.empty, []), idle_matching)
  /\ madx_calls (session (segment (snd (@match_ Z _ _ steady_madx
                                          idle_matching))))
     = [CallMatch {| ma_sequence := "line"; ma_vary := [];
                     ma_constraints := [];
                     ma_twiss_init := [("betx", 1%Z); ("bety", 1%Z)] |};
        CallTwiss (_get_twiss_args fresh_segment)].
Proof.
  apply (@match_without_constraints Z Z_Numeric plain_units steady_madx
           idle_matching 4%Z 9%Z); reflexivity.
Defined.

(** X18 at work: a segment without summary. *)
Lemma match_needs_emittances_witness :
  @match_ Z _ _ steady_madx (Matching_init blank_segment quad_rules)
  = (Raised KeyError, Matching_init blank_segment quad_rules).
Proof.
  apply (@match_needs_emittances Z Z_Numeric plain_units steady_madx
           (Matching_init blank_segment quad_rules)).
  left. reflexivity.
Defined.

(** X19 at work: [alfx] is kept though it starts with 0, [x] is not,
    the text column is skipped. *)
Lemma get_twiss_initial_conditions_witness :
  _get_twiss line_sequence
  = Ok (("q1", "q2"), [("betx", 4%Z); ("alfx", 0%Z); ("y", 5%Z)])
  /\ In "q1" (seq_elements line_sequence)
  /\ In "q2" (seq_elements line_sequence).
Proof.
  assert (Hrun : _get_twiss line_sequence
                 = Ok (("q1", "q2"),
                       [("betx", 4%Z); ("alfx", 0%Z); ("y", 5%Z)]))
    by (vm_compute; reflexivity).
  split; [exact Hrun|].
  destruct (@get_twiss_initial_conditions Z Z_Numeric line_sequence
              "q1" "q2" [("betx", 4%Z); ("alfx", 0%Z); ("y", 5%Z)] Hrun)
    as (Hfirst & Hlast & _).
  split; assumption.
Defined.

(** X22 at work: a handler connected twice. *)
Lemma disconnect_removes_first_registration_witness :
  Plugin.disconnect Nat.eq_dec 7%nat
    [Plugin.EntryPoint nat "madgui.core.mainframe.init" None;
     Plugin.Client 7%nat; Plugin.Client 8%nat; Plugin.Client 7%nat]
  = (Returned tt,
     [Plugin.EntryPoint nat "madgui.core.mainframe.init" None;
      Plugin.Client 8%nat; Plugin.Client 7%nat])
  /\ Plugin.disconnect Nat.eq_dec 9%nat [Plugin.Client 8%nat]
     = (Raised ValueError, [Plugin.Client 8%nat]).
Proof.
  split.
  - apply (proj2 (@PluginFacts.disconnect_removes_first_registration
                    nat Nat.eq_dec 7%nat _)
             [Plugin.EntryPoint nat "madgui.core.mainframe.init" None]
             [Plugin.Client 8%nat; Plugin.Client 7%nat]).
    + reflexivity.
    + simpl. intuition discriminate.
  - apply (proj1 (@PluginFacts.disconnect_removes_first_registration
                    nat Nat.eq_dec 9%nat [Plugin.Client 8%nat])).
    simpl. intuition discriminate.
Defined.

(** X6 at work: a range text with two [/]. *)
Lemma parse_range_splits_at_slash_witness :
  parse_range (RangeText "q1/d1/q2") fresh_segment
  = Err (Exception ValueError)
  /\ parse_range (RangeText "q1/q2") fresh_segment
     = Ok ({| ei_name := "q1"; ei_index := 0%Z; ei_at := 0%Z |},
           {| ei_name := "q2"; ei_index := 2%Z; ei_at := 10%Z |}).
Proof.
  split; [|vm_compute; reflexivity].
  apply (proj1 (@parse_range_splits_at_slash Z line_elements fresh_segment
                  "q1/d1/q2")).
  vm_compute. discriminate.
Defined.

(** X3 at work: new initial conditions given to a segment whose
    interpreter fails on TWISS. *)
Lemma twiss_args_setter_keeps_new_value_witness :
  let '(result, self') :=
    @twiss_args_setter Z _ _ failing_madx [("betx", 2%Z)] fresh_segment in
  result = Raised (EngineError "twiss failed")
  /\ twiss_args self' = [("betx", 2%Z)]
  /\ tw self' = []
  /\ List.length (madx_calls (session self')) = 1%nat.
Proof.
  pose proof (@twiss_args_setter_keeps_new_value Z Z_Numeric plain_units
                failing_madx fresh_segment [("betx", 2%Z)]) as Hw.
  cbv zeta in Hw.
  destruct (@twiss_args_setter Z _ _ failing_madx [("betx", 2%Z)]
              fresh_segment) as [result self'].
  destruct Hw as (Hv & Hcalls & Hfail).
  destruct (Hfail (EngineError "twiss failed") eq_refl) as (Hr & Htw & _).
  split; [exact Hr|]. split; [exact Hv|]. split; [exact Htw|].
  rewrite Hcalls. reflexivity.
Defined.

(** X15 at work: the candidates for [betx] on the three-element line are
    its two quadrupoles. *)
Lemma allvars_computed_once_witness :
  let '(vars, self1) := _allvars "betx" idle_matching in
  map fst vars = [Q1; Q2]
  /\ _allvars "betx" self1 = (vars, self1).
Proof.
  pose proof (@allvars_computed_once Z "betx" idle_matching) as Hw.
  destruct (_allvars "betx" idle_matching) as [vars self1].
  destruct Hw as (Hagain & _ & _ & _ & _ & _ & Hfresh).
  destruct (Hfresh eq_refl) as [_ Hmap].
  split; [exact Hmap|exact Hagain].
Defined.

(** X14 at work: a rule that names the length of a drift. *)
Lemma get_any_elem_param_first_modifiable_witness :
  _get_any_elem_param D1 ["l"] = Returned (Some "d1->l")
  /\ _get_any_elem_param Q1 ["l"; "k1"] = Returned (Some "q1->l")
  /\ _get_any_elem_param Q1 ["k1"; "l"] = Returned (Some "kq1")
  /\ _get_any_elem_param Q0 ["angle"; "k1"] = Raised ValueError.
Proof.
  split; [|vm_compute; auto].
  apply (proj2 (@get_any_elem_param_first_modifiable Z Z_Numeric plain_units
                  D1 ["l"])).
  vm_compute. discriminate.
Defined.
